(** * metrics-sample2.mjs: a shallow embedding of the sampling pipeline

    The script polls execution-layer and consensus-layer nodes and a
    Prometheus backend at a fixed cadence and appends rows to five CSV
    streams.  This development embeds the script function by function and
    proves properties of the failover resolver, the samplers, the instance
    reconciler and the cadence loop.

    Modelling conventions.
    - A JavaScript [Number] that the script only ever uses as an integer
      (slots, epochs, counts, gwei balances, millisecond clocks) is a [Z];
      readings taken from Prometheus are rationals [Q].  [Math.floor] and
      [Math.round] are taken over exact rationals.  The sum and the mean
      of the validator balances are computed as the script computes them,
      in double precision ([binary64]).  [NaN] and the infinities are
      outside the model.
    - The network, the clock and the signal handlers are the outside world:
      an abstract type [World] with transition functions ([Env]).  An
      [async] function is a computation in a state-and-exception monad
      [M]; [await] is sequencing, a rejected promise is a thrown [exn].
    - The samplers that one tick starts together are run one after the
      other, in the order in which the script starts them.
    - [fs.appendFileSync] on one of the five streams is an entry added to
      the append-only log [written], and does not fail; [trace] is a ghost
      log of the URLs handed to [fetch]. *)

From Stdlib Require Import ZArith QArith Qround Qabs Qpower Qreduction.
From Stdlib Require Import List Permutation String Ascii Bool Lia Lqa.
From Stdlib Require Import DecimalString.
From Stdlib Require Floats.SpecFloat.
From ExtLib Require Import Structures.Monad Structures.MonadExc.
Import ListNotations.
Import MonadNotation.

Open Scope string_scope.
Open Scope list_scope.
Open Scope Z_scope.
Open Scope monad_scope.

(** ** JavaScript helpers *)

Module Js.

(** The exceptions the script can meet. *)
Inductive exn : Type :=
| Error (message : string)
| TypeError (message : string)
| SyntaxError (message : string)
| ReferenceError (message : string).

(** [`${n}`] for an integer [n]. *)
Definition String_of_Z (n : Z) : string :=
  NilZero.string_of_int (Z.to_int n).

(** [s.replace(/\/$/, '')]: drop one trailing slash. *)
Fixpoint strip_trailing_slash (s : string) : string :=
  match s with
  | EmptyString => EmptyString
  | String c EmptyString => if Ascii.eqb c "/" then EmptyString else s
  | String c rest => String c (strip_trailing_slash rest)
  end.

(** [s.startsWith(p)]. *)
Definition startsWith (s p : string) : bool := String.prefix p s.

(** [s.includes(sub)]. *)
Definition includes (s sub : string) : bool :=
  match String.index 0 sub s with
  | Some _ => true
  | None => false
  end.

(** [a || b] on numbers that are integers: [0] is falsy. *)
Definition or_num (a b : Z) : Z := if a =? 0 then b else a.

(** [a || b] on strings: the empty string is falsy. *)
Definition or_str (a b : string) : string :=
  match a with
  | EmptyString => b
  | _ => a
  end.

(** [a ?? b] where [None] stands for [undefined] or [null]. *)
Definition nullish {A : Type} (a : option A) (b : A) : A :=
  match a with
  | Some v => v
  | None => b
  end.

(** [Math.floor] and [Math.round] (half-way cases go up). *)
Definition Math_floor (x : Q) : Z := Qfloor x.
Definition Math_round (x : Q) : Z := Qfloor (x + (1 # 2)).

(** *** Double-precision arithmetic

    A finite double is a rational [m * 2^e] with [|m| < 2^53]; the result
    of an operation is the double nearest to the exact result, a tie
    going to the even significand.  Below [2^-1022] the doubles keep the
    spacing [2^-1074].  A result of magnitude [2^1024] or more, which is
    [Infinity] in JavaScript, is outside the model. *)

(** [floor(log2 x)] for a positive [x]. *)
Definition ilog2 (x : Q) : Z :=
  let e := Z.log2 (Qnum x) - Z.log2 (Z.pos (Qden x)) in
  if Qle_bool (2 ^ e) x then e else e - 1.

(** The integer nearest to [t], a tie going to the even one. *)
Definition round_half_even (t : Q) : Z :=
  let f := Qfloor t in
  match Qcompare (t - inject_Z f) (1 # 2) with
  | Lt => f
  | Gt => f + 1
  | Eq => if Z.even f then f else f + 1
  end.

(** The double nearest to [x], in lowest terms. *)
Definition binary64 (x : Q) : Q :=
  if Qeq_bool x 0 then 0%Q
  else
    let e := Z.max (ilog2 (Qabs x)) (-1022) in
    let ulp := (2 ^ (e - 52))%Q in
    Qred (inject_Z (round_half_even (x / ulp)) * ulp).

(** [a + b] and [a / b] on doubles ([b] not zero). *)
Definition Number_add (a b : Q) : Q := binary64 (a + b).
Definition Number_div (a b : Q) : Q := binary64 (a / b).

(** A plain object with string keys, in property order. *)
Definition object (V : Type) : Type := list (string * V).

(** [o[k]]; [None] is [undefined]. *)
Fixpoint get {V : Type} (k : string) (o : object V) : option V :=
  match o with
  | [] => None
  | (k', v) :: rest => if String.eqb k k' then Some v else get k rest
  end.

(** [o[k] = v]: an existing key keeps its place, a new one goes last. *)
Fixpoint set {V : Type} (k : string) (v : V) (o : object V) : object V :=
  match o with
  | [] => [(k, v)]
  | (k', v') :: rest =>
      if String.eqb k k' then (k', v) :: rest else (k', v') :: set k v rest
  end.

Definition keys {V : Type} (o : object V) : list string := map fst o.
Definition values {V : Type} (o : object V) : list V := map snd o.

(** The double-quote character, for queries that carry one. *)
Definition dquote : string := String (ascii_of_nat 34) EmptyString.

End Js.
Import Js.

(** ** Data model *)

(** [const MISSING = -1]. *)
Definition MISSING : Z := -1.

(** The sentinel in a column that holds a Prometheus reading. *)
Definition MISSING_Q : Q := inject_Z MISSING.

(** [PROM_INSTANCE_MAP]: Prometheus instance label to container name. *)
Definition PROM_INSTANCE_MAP : object string :=
  [ ("host.docker.internal:8080", "prysm-1");
    ("host.docker.internal:8081", "prysm-2");
    ("host.docker.internal:8082", "prysm-3");
    ("host.docker.internal:6060", "geth-1");
    ("host.docker.internal:6061", "geth-2");
    ("host.docker.internal:6062", "geth-3") ].

(** The decoded bodies the script reads.  A field is [None] when the
    property is absent ([undefined] or [null]); a present numeric field
    carries the value [Number] gives it. *)

(** [json.data] of [/eth/v1/beacon/headers/head]. *)
Record HeaderData : Type := {
  header_message_slot : option Z;   (* d?.header?.message?.slot *)
  data_slot : option Z              (* d?.slot *)
}.

(** [json.data] of [.../finality_checkpoints]. *)
Record FinalityData : Type := {
  current_justified_epoch : option Z;   (* d?.current_justified?.epoch *)
  finalized_epoch : option Z            (* d?.finalized?.epoch *)
}.

(** One entry of [json.data] of [.../validators]. *)
Record ValidatorEntry : Type := {
  balance : option Z;             (* v?.balance *)
  effective_balance : option Z    (* v?.effective_balance *)
}.

(** [json.data] where the script expects an array. *)
Inductive ArrayData (A : Type) : Type :=
| Falsy                    (* absent, null, 0, the empty string, false *)
| NotArray                 (* a truthy value that is not an array *)
| Arr (items : list A).
Arguments Falsy {A}.
Arguments NotArray {A}.
Arguments Arr {A} items.

(** One element of a Prometheus instant-query result that carries its
    value. *)
Record PromSample : Type := {
  metric_instance : string;   (* r.metric.instance *)
  value1 : Q                  (* Number(r.value[1]) *)
}.

(** One element of [json.data.result] as it is served: a sample, or an
    element that has its [metric] but no [value], so that reading
    [r.value[1]] is a TypeError. *)
Inductive PromEntry : Type :=
| Sample (s : PromSample)
| NoValue (instance : string).   (* r.metric.instance *)

(** The latest block as [eth_getBlockByNumber] returns it, each field
    already through [hexToNum] ([None] is [null]). *)
Record BlockJson : Type := {
  baseFeePerGas : option Z;
  gasUsed : option Z;
  gasLimit : option Z
}.

(** [json.result] of a JSON-RPC answer. *)
Inductive RpcResult : Type :=
| RNull
| RQuantity (hexToNum : option Z)
| RBlock (blk : BlockJson).

(** What [res.json()] resolves to: one of the bodies the script reads,
    by its shape.  [data] is [json.data] ([None] when falsy);
    [data_result] is [json.data.result] ([None] when it is falsy);
    [error] is the text of a truthy [json.error]. *)
Inductive Json : Type :=
| JHeader (data : option HeaderData)
| JFinality (data : option FinalityData)
| JValidators (data : ArrayData ValidatorEntry)
| JProm (status : string) (data_result : option (list PromEntry))
| JRpc (error : option string) (result : RpcResult)
| JNull.

(** A [fetch] request: the URL, and for a JSON-RPC POST the method. *)
Inductive Request : Type :=
| GET (url : string)
| POST (url : string) (rpc_method : string).

Definition request_url (r : Request) : string :=
  match r with
  | GET u => u
  | POST u _ => u
  end.

(** A [fetch] response: [res.ok], [res.status] and what [res.json()]
    gives (it throws on a body that is not JSON). *)
Record Response : Type := {
  ok : bool;
  status : Z;
  json : exn + Json
}.

(** The five output streams ([EL_CSV], [VAL_CSV], ...). *)
Inductive Sink : Type := EL_CSV | VAL_CSV | NET_CSV | PERF_CL_CSV | PERF_EL_CSV.

(** A column value handed to [appendCsvRow]. *)
Inductive cell : Type :=
| CInt (z : Z)
| CNum (q : Q)
| CStr (s : string).

Definition Row : Type := list cell.

(** The outcome [Promise.allSettled] records for one promise. *)
Inductive Settled (A : Type) : Type :=
| Fulfilled (value : A)
| Rejected (reason : exn).
Arguments Fulfilled {A} value.
Arguments Rejected {A} reason.

(** The outside world and the configuration read at start-up. *)
Class Env : Type := {
  World : Type;
  (** [fetch]: the answer (or the thrown network error) and the world after. *)
  fetch : Request -> World -> (exn + Response) * World;
  (** [Date.now()]. *)
  Date_now : World -> Z;
  (** The world once a [setTimeout] of the given delay has fired. *)
  setTimeout : Z -> World -> World;
  (** Whether a SIGINT or SIGTERM handler has run ([stop = true]). *)
  signalled : World -> bool;
  encodeURIComponent : string -> string;
  EL_ENDPOINTS : list string;
  CL_ENDPOINTS : list string;
  INTERVAL_MS : Z;
  DURATION_SEC : Z;
  SLOTS_PER_EPOCH : Z;
  PROMETHEUS_URL : string
}.

(** ** The state-and-exception monad *)

Section Monad.
Context {E : Env}.

(** Program state: the world, the rows appended so far (oldest first) and
    the ghost log of fetched URLs (oldest first). *)
Record St : Type := {
  world : World;
  written : list (Sink * Row);
  trace : list string
}.

(** A computation: an exception or a value, and the state left behind.
    Effects made before a throw stay. *)
Definition M (A : Type) : Type := St -> (exn + A) * St.

Definition M_ret {A : Type} (a : A) : M A := fun st => (inr a, st).

Definition M_bind {A B : Type} (m : M A) (k : A -> M B) : M B :=
  fun st =>
    match m st with
    | (inl e, st') => (inl e, st')
    | (inr a, st') => k a st'
    end.

(** [throw e]. *)
Definition throw {A : Type} (e : exn) : M A := fun st => (inl e, st).

(** [try { m } catch (e) { h e }]. *)
Definition try_catch {A : Type} (m : M A) (h : exn -> M A) : M A :=
  fun st =>
    match m st with
    | (inl e, st') => h e st'
    | (inr a, st') => (inr a, st')
    end.

#[global] Instance Monad_M : Monad M :=
  {| ret := @M_ret; bind := @M_bind |}.

#[global] Instance MonadExc_M : MonadExc exn M :=
  {| raise := @throw; catch := @try_catch |}.

(** A value that is either thrown or returned. *)
Definition lift_exn {A : Type} (r : exn + A) : M A :=
  match r with
  | inl e => throw e
  | inr a => M_ret a
  end.

End Monad.

(** ** The script *)

Section Program.
Context {E : Env}.

(** *** Primitive steps *)

(** [await fetch(...)], with the URL added to the ghost log. *)
Definition do_fetch (r : Request) : M Response :=
  fun st =>
    let (res, w) := fetch r (world st) in
    (res, {| world := w; written := written st;
             trace := trace st ++ [request_url r] |}).

(** [Date.now()] *)
Definition now : M Z := fun st => (inr (Date_now (world st)), st).

(** [function unixMs() { return Date.now(); }] *)
Definition unixMs : M Z := now.

(** [function sleep(ms) { return new Promise(r => setTimeout(r, ms)); }] *)
Definition sleep (ms : Z) : M unit :=
  fun st =>
    (inr tt, {| world := setTimeout ms (world st); written := written st;
                trace := trace st |}).

(** Reading the [stop] flag that the signal handlers set. *)
Definition read_stop : M bool := fun st => (inr (signalled (world st)), st).

(** [appendCsvRow(file, columns)]: one more row on the stream.  The CSV
    text ([csvEsc], [join]) is not modelled; the row is kept as columns. *)
Definition appendCsvRow (file : Sink) (columns : Row) : M unit :=
  fun st =>
    (inr tt, {| world := world st; written := written st ++ [(file, columns)];
                trace := trace st |}).

(** [Promise.all]: the values in order, or the first rejection. *)
Fixpoint Promise_all {A : Type} (ps : list (M A)) : M (list A) :=
  match ps with
  | [] => ret []
  | p :: rest =>
      v <- p ;;
      vs <- Promise_all rest ;;
      ret (v :: vs)
  end.

(** [Promise.allSettled]: every promise is run to its end and its
    outcome recorded; the result itself never rejects. *)
Fixpoint Promise_allSettled {A : Type} (ps : list (M A)) : M (list (Settled A)) :=
  match ps with
  | [] => ret []
  | p :: rest =>
      s <- try_catch (v <- p ;; ret (Fulfilled v)) (fun e => ret (Rejected e)) ;;
      ss <- Promise_allSettled rest ;;
      ret (s :: ss)
  end.

(** *** Configuration derived at start-up *)

(** [Object.fromEntries]: a later entry for the same key wins. *)
Definition fromEntries {V : Type} (entries : list (string * V)) : object V :=
  fold_left (fun o kv => Js.set (fst kv) (snd kv) o) entries [].

(** [arr.map((e, i) => [e, i])] *)
Fixpoint indexed (i : Z) (l : list string) : list (string * Z) :=
  match l with
  | [] => []
  | e :: rest => (e, i) :: indexed (i + 1) rest
  end.

Definition EL_INDEX : object Z := fromEntries (indexed 0 EL_ENDPOINTS).
Definition CL_INDEX : object Z := fromEntries (indexed 0 CL_ENDPOINTS).

Definition elContainerName (i : Z) : string := "geth-" ++ String_of_Z (i + 1).
Definition clContainerName (i : Z) : string := "prysm-" ++ String_of_Z (i + 1).

(** [Number.isFinite] on a value of the model: every [Z] is finite. *)
Definition Number_isFinite (n : Z) : bool := true.

(** [initCsvFiles]: the header row of each stream. *)
Definition elHeader : Row :=
  map CStr ["ts_ms"; "container_name"; "basefee_wei"; "gasprice_wei";
            "block_gas_used"; "block_gas_limit"; "block_tx_count"].
Definition valHeader : Row :=
  map CStr ["ts_ms"; "source_container"; "avg_effective_balance_gwei"].
Definition netHeader : Row :=
  map CStr ["ts_ms"; "head_slot"; "current_epoch"; "justified_epoch";
            "finalized_epoch"; "finality_gap_slots"; "finality_gap_epochs";
            "validators_total"; "activation_queue_len"; "exit_queue_len";
            "active_validator_count"; "participation_rate"].
Definition perfElHeader : Row :=
  map CStr ["ts_ms"; "container_name"; "txpool_pending"; "p2p_peers";
            "block_number"; "block_exec_latency_p95"; "cpu_seconds_total";
            "memory_bytes"].
Definition perfClHeader : Row :=
  map CStr ["ts_ms"; "container_name"; "state_transition_ms"; "head_slot";
            "justified_epoch"; "finalized_epoch"; "peer_count";
            "block_import_time_sum"; "active_validators"; "cpu_seconds_total";
            "memory_bytes"].

Definition initCsvFiles : M unit :=
  appendCsvRow EL_CSV elHeader ;;
  appendCsvRow VAL_CSV valHeader ;;
  appendCsvRow NET_CSV netHeader ;;
  appendCsvRow PERF_CL_CSV perfClHeader ;;
  appendCsvRow PERF_EL_CSV perfElHeader.

(** *** Source adapters *)

(** [jsonRpc(url, method, params)] *)
Definition jsonRpc (url method : string) : M (RpcResult * Z) :=
  t0 <- now ;;
  res <- do_fetch (POST url method) ;;
  t1 <- now ;;
  let latency := t1 - t0 in
  if negb (ok res)
  then throw (Error (method ++ " HTTP " ++ String_of_Z (status res)))
  else
    json <- lift_exn (json res) ;;
    match json with
    | JRpc (Some msg) _ => throw (Error (method ++ " error: " ++ msg))
    | JRpc None result => ret (result, latency)
    | JNull => throw (TypeError "Cannot read properties of null")
    | _ => ret (RNull, latency)
    end.

(** [beaconGet(url, path)] *)
Definition beaconGet (url path : string) : M (Json * Z) :=
  t0 <- now ;;
  res <- do_fetch (GET (strip_trailing_slash url ++ path)) ;;
  t1 <- now ;;
  let latency := t1 - t0 in
  if negb (ok res)
  then throw (Error (path ++ " HTTP " ++ String_of_Z (status res)))
  else
    json <- lift_exn (json res) ;;
    ret (json, latency).

(** The [for (const endpoint of ...)] loop of [beaconGetWithFailover],
    over the endpoints still to try. *)
Fixpoint failover_loop (endpoints : list string) (path : string) : M (Json * Z) :=
  match endpoints with
  | [] => throw (Error ("All CL endpoints failed for " ++ path))
  | endpoint :: rest =>
      try_catch (beaconGet endpoint path)
                (fun _ => failover_loop rest path)   (* ignore and try next *)
  end.

(** [beaconGetWithFailover(path)] *)
Definition beaconGetWithFailover (path : string) : M (Json * Z) :=
  failover_loop CL_ENDPOINTS path.

(** [queryPrometheus(query)]: the elements served, or [[]] on any
    failure. *)
Definition queryPrometheus (query : string) : M (list PromEntry) :=
  try_catch
    (let url := (PROMETHEUS_URL ++ "/api/v1/query?query="
                   ++ encodeURIComponent query)%string in
     res <- do_fetch (GET url) ;;
     if negb (ok res) then ret []
     else
       json <- lift_exn (json res) ;;
       match json with
       | JNull => throw (TypeError "Cannot read properties of null")
       | JProm status data_result =>
           if negb (String.eqb status "success") then ret []
           else ret (match data_result with Some l => l | None => [] end)
       | _ => ret []
       end)
    (fun _ => ret []).

(** [hexToNum] applied to a JSON-RPC result. *)
Definition hexToNum (r : RpcResult) : option Z :=
  match r with
  | RQuantity n => n
  | _ => None
  end.

(** *** Execution-layer sampler *)

(** [sampleEl(endpoint)]: each field falls back to [MISSING] on its own. *)
Definition sampleEl (endpoint : string) : M Row :=
  ts_ms <- unixMs ;;
  let endpoint_idx := nullish (Js.get endpoint EL_INDEX) MISSING in
  let containerName := elContainerName endpoint_idx in
  gasprice <-
    try_catch (r <- jsonRpc endpoint "eth_gasPrice" ;;
               ret (nullish (hexToNum (fst r)) MISSING))
              (fun _ => ret MISSING) ;;
  try_catch (_ <- jsonRpc endpoint "eth_blockNumber" ;; ret tt)
            (fun _ => ret tt) ;;
  blk <-
    try_catch (r <- jsonRpc endpoint "eth_getBlockByNumber" ;;
               match fst r with
               | RBlock b =>
                   ret (nullish (baseFeePerGas b) MISSING,
                        nullish (gasUsed b) MISSING,
                        nullish (gasLimit b) MISSING)
               | _ => ret (MISSING, MISSING, MISSING)
               end)
              (fun _ => ret (MISSING, MISSING, MISSING)) ;;
  let '(basefee, gasUsed, gasLimit) := blk in
  blockTxCount <-
    try_catch (r <- jsonRpc endpoint "eth_getBlockTransactionCountByNumber" ;;
               ret (nullish (hexToNum (fst r)) MISSING))
              (fun _ => ret MISSING) ;;
  let row := [CInt ts_ms; CStr containerName; CInt basefee; CInt gasprice;
              CInt gasUsed; CInt gasLimit; CInt blockTxCount] in
  appendCsvRow EL_CSV row ;;
  ret row.

(** *** Network sampler *)

(** The TypeError of reading [r.value[1]] when [r.value] is absent. *)
Definition no_value : exn :=
  TypeError "Cannot read properties of undefined (reading '1')".

(** [getParticipationRate()]: [Number(res[0].value[1])] is evaluated
    outside any [try]. *)
Definition getParticipationRate : M Q :=
  res <- queryPrometheus "beacon_head_participation" ;;
  match res with
  | Sample r :: _ => ret (value1 r)
  | NoValue _ :: _ => throw no_value
  | [] => ret (inject_Z (-1))
  end.

(** [Number(d?.header?.message?.slot ?? d?.slot ?? -1)] with
    [d = json.data || {}]. *)
Definition headSlot_of (json : Json) : M Z :=
  match json with
  | JNull => throw (TypeError "Cannot read properties of null")
  | JHeader (Some d) =>
      ret (nullish (header_message_slot d) (nullish (data_slot d) (-1)))
  | _ => ret (-1)
  end.

(** [Number(d?.current_justified?.epoch ?? -1)] and
    [Number(d?.finalized?.epoch ?? -1)]. *)
Definition checkpoints_of (json : Json) : M (Z * Z) :=
  match json with
  | JNull => throw (TypeError "Cannot read properties of null")
  | JFinality (Some d) =>
      ret (nullish (current_justified_epoch d) (-1),
           nullish (finalized_epoch d) (-1))
  | _ => ret (-1, -1)
  end.

(** [curEpoch], [finSlot], [finGapSlots], [finGapEpochs] as the sampler
    derives them. *)
Definition curEpoch_of (headSlot : Z) : Z :=
  if (0 <=? headSlot) && Number_isFinite SLOTS_PER_EPOCH
  then Math_floor (inject_Z headSlot / inject_Z SLOTS_PER_EPOCH)
  else -1.

Definition finSlot_of (finEpoch : Z) : Z :=
  if (0 <=? finEpoch) && Number_isFinite SLOTS_PER_EPOCH
  then finEpoch * SLOTS_PER_EPOCH
  else -1.

Definition finGapSlots_of (headSlot finSlot : Z) : Z :=
  if (0 <=? headSlot) && (0 <=? finSlot)
  then Z.max 0 (headSlot - finSlot)
  else -1.

Definition finGapEpochs_of (curEpoch finEpoch : Z) : Z :=
  if (0 <=? curEpoch) && (0 <=? finEpoch)
  then Z.max 0 (curEpoch - finEpoch)
  else -1.

(** [Array.isArray(json?.data) ? json.data.length : -1] *)
Definition data_length (json : Json) : Z :=
  match json with
  | JValidators (Arr items) => Z.of_nat (List.length items)
  | _ => -1
  end.

(** The inner [countStatus(statuses)]. *)
Definition countStatus (statuses : string) : M Z :=
  try_catch
    (r <- beaconGetWithFailover
            ("/eth/v1/beacon/states/head/validators?status=" ++ statuses) ;;
     ret (data_length (fst r)))
    (fun _ => ret (-1)).

(** [[...].filter(n => n >= 0).reduce((a, b) => a + b, 0) || -1] *)
Definition total_of (counts : list Z) : Z :=
  or_num (fold_left Z.add (filter (fun n => 0 <=? n) counts) 0) (-1).

(** [(cPendInit >= 0 && cPendQueue >= 0) ? (cPendInit + cPendQueue) : -1] *)
Definition activationQueueLen_of (cPendInit cPendQueue : Z) : Z :=
  if (0 <=? cPendInit) && (0 <=? cPendQueue)
  then cPendInit + cPendQueue
  else -1.

(** [sampleNetwork()] *)
Definition sampleNetwork : M unit :=
  ts_ms <- unixMs ;;
  headSlot <-
    try_catch (r <- beaconGetWithFailover "/eth/v1/beacon/headers/head" ;;
               headSlot_of (fst r))
              (fun _ => ret (-1)) ;;
  cp <-
    try_catch (r <- beaconGetWithFailover
                      "/eth/v1/beacon/states/head/finality_checkpoints" ;;
               checkpoints_of (fst r))
              (fun _ => ret (-1, -1)) ;;
  let '(justEpoch, finEpoch) := cp in
  let curEpoch := curEpoch_of headSlot in
  let finSlot := finSlot_of finEpoch in
  let finGapSlots := finGapSlots_of headSlot finSlot in
  let finGapEpochs := finGapEpochs_of curEpoch finEpoch in
  cPendInit <- countStatus "pending_initialized" ;;
  cPendQueue <- countStatus "pending_queued" ;;
  cActOngo <- countStatus "active_ongoing" ;;
  cActExit <- countStatus "active_exiting" ;;
  let total := total_of [cPendInit; cPendQueue; cActOngo; cActExit] in
  let activationQueueLen := activationQueueLen_of cPendInit cPendQueue in
  let exitQueueLen := cActExit in
  let activeValidatorCount := cActOngo in
  participationRate <- getParticipationRate ;;
  appendCsvRow NET_CSV
    [CInt ts_ms;
     CInt headSlot; CInt curEpoch; CInt justEpoch; CInt finEpoch;
     CInt finGapSlots; CInt finGapEpochs;
     CInt total; CInt activationQueueLen; CInt exitQueueLen;
     CInt activeValidatorCount;
     CNum participationRate].

(** *** Validator-balance sampler *)

(** [Number(v?.balance ?? v?.effective_balance ?? -1)] *)
Definition balance_of (v : ValidatorEntry) : Z :=
  nullish (balance v) (nullish (effective_balance v) (-1)).

(** [(json.data || []).map(...).filter(n => n >= 0)]; [map] on a truthy
    value that is not an array is a TypeError. *)
Definition balances_of (json : Json) : M (list Z) :=
  match json with
  | JNull => throw (TypeError "Cannot read properties of null")
  | JValidators (Arr items) =>
      ret (filter (fun n => 0 <=? n) (map balance_of items))
  | JValidators NotArray | JHeader (Some _) | JFinality (Some _)
  | JProm _ (Some _) =>
      throw (TypeError "map is not a function")
  | _ => ret []
  end.

(** [let sum = 0; for (const b of arr) { sum += b; }] and
    [Math.round(sum / arr.length)] when [arr] is not empty, else the
    initial [-1].  The sum and the quotient are doubles. *)
Definition avgBal_of (arr : list Z) : Z :=
  match arr with
  | [] => -1
  | _ =>
      let sum := fold_left (fun sum b => Number_add sum (inject_Z b)) arr 0%Q in
      Math_round (Number_div sum (inject_Z (Z.of_nat (List.length arr))))
  end.

(** [sampleValidators()] *)
Definition sampleValidators : M unit :=
  ts_ms <- unixMs ;;
  let source := "any" in
  avgBal <-
    try_catch (r <- beaconGetWithFailover
                      "/eth/v1/beacon/states/head/validators?status=active" ;;
               arr <- balances_of (fst r) ;;
               ret (avgBal_of arr))
              (fun _ => ret (-1)) ;;
  appendCsvRow VAL_CSV [CInt ts_ms; CStr source; CInt avgBal].

(** *** Performance sampler and instance reconciler *)

(** The record kept per container: [{ m1, ..., m9 }]. *)
Record PerfRecord : Type := {
  m1 : Q; m2 : Q; m3 : Q; m4 : Q; m5 : Q; m6 : Q; m7 : Q; m8 : Q; m9 : Q
}.

(** The property names ['m1'] ... ['m9'] handed to [update]. *)
Inductive MetricKey : Type :=
| Km1 | Km2 | Km3 | Km4 | Km5 | Km6 | Km7 | Km8 | Km9.

(** [rec[key]] *)
Definition get_metric (key : MetricKey) (r : PerfRecord) : Q :=
  match key with
  | Km1 => m1 r | Km2 => m2 r | Km3 => m3 r
  | Km4 => m4 r | Km5 => m5 r | Km6 => m6 r
  | Km7 => m7 r | Km8 => m8 r | Km9 => m9 r
  end.

(** [rec[key] = v] *)
Definition set_metric (key : MetricKey) (v : Q) (r : PerfRecord) : PerfRecord :=
  match key with
  | Km1 => {| m1 := v; m2 := m2 r; m3 := m3 r; m4 := m4 r; m5 := m5 r;
              m6 := m6 r; m7 := m7 r; m8 := m8 r; m9 := m9 r |}
  | Km2 => {| m1 := m1 r; m2 := v; m3 := m3 r; m4 := m4 r; m5 := m5 r;
              m6 := m6 r; m7 := m7 r; m8 := m8 r; m9 := m9 r |}
  | Km3 => {| m1 := m1 r; m2 := m2 r; m3 := v; m4 := m4 r; m5 := m5 r;
              m6 := m6 r; m7 := m7 r; m8 := m8 r; m9 := m9 r |}
  | Km4 => {| m1 := m1 r; m2 := m2 r; m3 := m3 r; m4 := v; m5 := m5 r;
              m6 := m6 r; m7 := m7 r; m8 := m8 r; m9 := m9 r |}
  | Km5 => {| m1 := m1 r; m2 := m2 r; m3 := m3 r; m4 := m4 r; m5 := v;
              m6 := m6 r; m7 := m7 r; m8 := m8 r; m9 := m9 r |}
  | Km6 => {| m1 := m1 r; m2 := m2 r; m3 := m3 r; m4 := m4 r; m5 := m5 r;
              m6 := v; m7 := m7 r; m8 := m8 r; m9 := m9 r |}
  | Km7 => {| m1 := m1 r; m2 := m2 r; m3 := m3 r; m4 := m4 r; m5 := m5 r;
              m6 := m6 r; m7 := v; m8 := m8 r; m9 := m9 r |}
  | Km8 => {| m1 := m1 r; m2 := m2 r; m3 := m3 r; m4 := m4 r; m5 := m5 r;
              m6 := m6 r; m7 := m7 r; m8 := v; m9 := m9 r |}
  | Km9 => {| m1 := m1 r; m2 := m2 r; m3 := m3 r; m4 := m4 r; m5 := m5 r;
              m6 := m6 r; m7 := m7 r; m8 := m8 r; m9 := v |}
  end.

(** [{ m1: MISSING, ..., m9: MISSING }] *)
Definition missing_record : PerfRecord :=
  {| m1 := MISSING_Q; m2 := MISSING_Q; m3 := MISSING_Q; m4 := MISSING_Q;
     m5 := MISSING_Q; m6 := MISSING_Q; m7 := MISSING_Q; m8 := MISSING_Q;
     m9 := MISSING_Q |}.

(** [[...Object.values(PROM_INSTANCE_MAP)]] *)
Definition expectedContainers : list string := Js.values PROM_INSTANCE_MAP.

(** [data = {}] followed by
    [for (const c of expectedContainers) data[c] = { ... }]. *)
Definition init_data : object PerfRecord :=
  fold_left (fun data c => Js.set c missing_record data) expectedContainers [].

(** [getContainer(metric)]: [PROM_INSTANCE_MAP[instance] || instance]. *)
Definition getContainer (r : PromSample) : string :=
  let instance := metric_instance r in
  match Js.get instance PROM_INSTANCE_MAP with
  | Some c => or_str c instance
  | None => instance   (* fallback to raw instance if not mapped *)
  end.

(** The body of the [forEach] in [update]: one sample onto [data]. *)
Definition update_point (key : MetricKey) (data : object PerfRecord)
    (r : PromSample) : object PerfRecord :=
  let c := getContainer r in
  match Js.get c data with   (* if (data[c]) *)
  | Some rec => Js.set c (set_metric key (value1 r) rec) data
  | None => data
  end.

(** [update(res, key)] when every element of [res] carries its value,
    with [data] passed along. *)
Definition update (res : list PromSample) (key : MetricKey)
    (data : object PerfRecord) : object PerfRecord :=
  fold_left (update_point key) res data.

(** The body of the [forEach] in [update] on an element as served.  For
    an element without [value], [Number(r.value[1])] is evaluated, and
    throws, when its container has a record; the element is skipped
    otherwise. *)
Definition update_entry (key : MetricKey) (data : object PerfRecord)
    (r : PromEntry) : exn + object PerfRecord :=
  match r with
  | Sample s => inr (update_point key data s)
  | NoValue instance =>
      let c :=   (* getContainer(r.metric) *)
        match Js.get instance PROM_INSTANCE_MAP with
        | Some c => or_str c instance
        | None => instance
        end in
      match Js.get c data with   (* if (data[c]) *)
      | Some _ => inl no_value
      | None => inr data
      end
  end.

(** [update(res, key)] on the elements as served: the [forEach] ends at
    the first element that throws. *)
Fixpoint update_entries (res : list PromEntry) (key : MetricKey)
    (data : object PerfRecord) : exn + object PerfRecord :=
  match res with
  | [] => inr data
  | r :: rest =>
      match update_entry key data r with
      | inl e => inl e
      | inr data' => update_entries rest key data'
      end
  end.

(** The row-writing loop over [Object.entries(data)]. *)
Fixpoint write_rows (ts_ms : Z) (entries : list (string * PerfRecord)) : M unit :=
  match entries with
  | [] => ret tt
  | (container, metrics) :: rest =>
      (if startsWith container "prysm" then
         appendCsvRow PERF_CL_CSV
           [CInt ts_ms; CStr container; CNum (m1 metrics); CNum (m2 metrics);
            CNum (m3 metrics); CNum (m4 metrics); CNum (m5 metrics);
            CNum (m6 metrics); CNum (m7 metrics); CNum (m8 metrics);
            CNum (m9 metrics)]
       else if startsWith container "geth" then
         appendCsvRow PERF_EL_CSV
           [CInt ts_ms; CStr container; CNum (m1 metrics); CNum (m2 metrics);
            CNum (m3 metrics); CNum (m6 metrics); CNum (m8 metrics);
            CNum (m9 metrics)]
       else ret tt) ;;
      write_rows ts_ms rest
  end.

(** The nine queries, in the order of the array given to [Promise.all]. *)
Definition perf_queries : list string :=
  [ "(state_transition_processing_milliseconds_sum or txpool_pending) and on(instance) up == 1";
    "(beacon_head_slot or p2p_peers) and on(instance) up == 1";
    "(beacon_current_justified_epoch or chain_head_block) and on(instance) up == 1";
    "beacon_finalized_epoch and on(instance) up == 1";
    "p2p_peer_count{state=" ++ dquote ++ "Connected" ++ dquote
      ++ "} and on(instance) up == 1";
    "(chain_service_processing_milliseconds_sum or chain_execution{quantile="
      ++ dquote ++ "0.95" ++ dquote ++ "}) and on(instance) up == 1";
    "beacon_current_active_validators and on(instance) up == 1";
    "rate(process_cpu_seconds_total[1m]) and on(instance) up == 1";
    "process_resident_memory_bytes and on(instance) up == 1" ]%string.

(** The bindings an array destructuring declares: the pattern's names
    with the values at their positions; values past the pattern get no
    name. *)
Definition destructure {A : Type} (names : list string) (vals : list A) : object A :=
  combine names vals.

(** Reading an identifier in a scope: one that is not declared is a
    ReferenceError. *)
Definition lookup_var {A : Type} (scope : object A) (name : string) : M A :=
  match Js.get name scope with
  | Some v => ret v
  | None => throw (ReferenceError (name ++ " is not defined"))
  end.

(** [samplePerfMetrics()].  The pattern of the destructuring names
    [res1] to [res7]; the calls to [update] read [res1] to [res9]. *)
Definition samplePerfMetrics : M unit :=
  ts_ms <- unixMs ;;
  results <- Promise_all (map queryPrometheus perf_queries) ;;
  let scope :=
    destructure ["res1"; "res2"; "res3"; "res4"; "res5"; "res6"; "res7"] results in
  let data := init_data in
  res1 <- lookup_var scope "res1" ;; data <- lift_exn (update_entries res1 Km1 data) ;;
  res2 <- lookup_var scope "res2" ;; data <- lift_exn (update_entries res2 Km2 data) ;;
  res3 <- lookup_var scope "res3" ;; data <- lift_exn (update_entries res3 Km3 data) ;;
  res4 <- lookup_var scope "res4" ;; data <- lift_exn (update_entries res4 Km4 data) ;;
  res5 <- lookup_var scope "res5" ;; data <- lift_exn (update_entries res5 Km5 data) ;;
  res6 <- lookup_var scope "res6" ;; data <- lift_exn (update_entries res6 Km6 data) ;;
  res7 <- lookup_var scope "res7" ;; data <- lift_exn (update_entries res7 Km7 data) ;;
  res8 <- lookup_var scope "res8" ;; data <- lift_exn (update_entries res8 Km8 data) ;;
  res9 <- lookup_var scope "res9" ;; data <- lift_exn (update_entries res9 Km9 data) ;;
  write_rows ts_ms data.

(** *** Cadence loop *)

(** The array given to [Promise.allSettled]: one [sampleEl] per
    execution endpoint, then the three other samplers. *)
Definition tick_samplers : list (M unit) :=
  map (fun e => _ <- sampleEl e ;; ret tt) EL_ENDPOINTS
    ++ [sampleValidators; sampleNetwork; samplePerfMetrics].

(** The [await Promise.allSettled([...])] of one tick.  The script
    starts the samplers together; here they are run one after the other,
    in the order of the array.  This fixes one schedule: the order in
    which the rows of one tick are appended, and the clock each sampler
    reads when it starts, are those of this schedule, and a statement
    about a tick that is meant for the script is one that does not
    depend on them. *)
Definition run_samplers : M (list (Settled unit)) :=
  Promise_allSettled tick_samplers.

(** [!stop && Date.now() < endAt]; [None] is [Number.POSITIVE_INFINITY]. *)
Definition loop_condition (endAt : option Z) : M bool :=
  stop <- read_stop ;;
  if negb stop then
    t <- now ;;
    ret (match endAt with Some e => t <? e | None => true end)
  else ret false.

(** The body of the [while] loop; it returns the new [nextAt]. *)
Definition loop_body (nextAt : Z) : M Z :=
  run_samplers ;;
  let nextAt := nextAt + INTERVAL_MS in
  now_ <- now ;;
  let delay := Z.max 0 (nextAt - now_) in
  (if 0 <? delay then sleep delay else ret tt) ;;
  ret nextAt.

(** How a bounded run of the loop ends. *)
Inductive LoopExit : Type :=
| Done                       (* the loop condition was false *)
| OutOfFuel (nextAt : Z).    (* the allowed iterations were all run *)

(** The [while] loop, run for at most [fuel] iterations. *)
Fixpoint main_loop (fuel : nat) (endAt : option Z) (nextAt : Z) : M LoopExit :=
  match fuel with
  | O => ret (OutOfFuel nextAt)
  | S fuel' =>
      c <- loop_condition endAt ;;
      if c then
        nextAt' <- loop_body nextAt ;;
        main_loop fuel' endAt nextAt'
      else ret Done
  end.

(** [main()], with the loop bounded by [fuel]. *)
Definition main (fuel : nat) : M LoopExit :=
  initCsvFiles ;;
  t <- now ;;
  let endAt := if 0 <? DURATION_SEC then Some (t + DURATION_SEC * 1000) else None in
  nextAt <- now ;;
  main_loop fuel endAt nextAt.

End Program.

(** ** Configuration lists and CSV text

    Strings are sequences of code units below 256. *)

Module Text.

(** The characters that [\s] and [trim] take for white space. *)
Definition is_space (c : ascii) : bool :=
  let n := nat_of_ascii c in
  ((n =? 9) || (n =? 10) || (n =? 11) || (n =? 12) || (n =? 13)
   || (n =? 32) || (n =? 160))%nat.

(** The class [[\s,]]. *)
Definition is_sep (c : ascii) : bool := is_space c || Ascii.eqb c ",".

Fixpoint trimStart (s : string) : string :=
  match s with
  | EmptyString => EmptyString
  | String c rest => if is_space c then trimStart rest else s
  end.

Fixpoint trimEnd (s : string) : string :=
  match s with
  | EmptyString => EmptyString
  | String c rest =>
      match trimEnd rest with
      | EmptyString => if is_space c then EmptyString else String c EmptyString
      | rest' => String c rest'
      end
  end.

(** [s.trim()] *)
Definition trim (s : string) : string := trimEnd (trimStart s).

(** [s.split(/[\s,]+/)] for the text that follows a piece [cur] already
    read; [skipping] says that the last character was a separator. *)
Fixpoint split_seps (cur : string) (skipping : bool) (s : string) : list string :=
  match s with
  | EmptyString => [cur]
  | String c rest =>
      if is_sep c then
        if skipping then split_seps cur true rest
        else cur :: split_seps EmptyString true rest
      else split_seps (cur ++ String c EmptyString) false rest
  end.

(** [Boolean(s)] for a string. *)
Definition truthy (s : string) : bool :=
  match s with
  | EmptyString => false
  | _ => true
  end.

(** [parseList(v, def)]; [v] is [None] when the variable is not set. *)
Definition parseList (v : option string) (def : string) : list string :=
  let s := trim (nullish v def) in
  if truthy s then filter truthy (split_seps EmptyString false s) else [].

(** The double quote, the comma and the line feed. *)
Definition DQ : ascii := ascii_of_nat 34.
Definition LF : ascii := ascii_of_nat 10.
Definition CR : ascii := ascii_of_nat 13.

(** The test of [csvEsc]: whether [s] holds a double quote, a comma or a
    line feed. *)
Fixpoint needs_quoting (s : string) : bool :=
  match s with
  | EmptyString => false
  | String c rest =>
      Ascii.eqb c DQ || Ascii.eqb c "," || Ascii.eqb c LF || needs_quoting rest
  end.

(** The replacement of [csvEsc]: every double quote is doubled. *)
Fixpoint double_quotes (s : string) : string :=
  match s with
  | EmptyString => EmptyString
  | String c rest =>
      if Ascii.eqb c DQ then String DQ (String DQ (double_quotes rest))
      else String c (double_quotes rest)
  end.

(** [csvEsc(v)]; [None] is [undefined] or [null], [Some s] a value whose
    [String(v)] is [s]. *)
Definition csvEsc (v : option string) : string :=
  match v with
  | None => EmptyString
  | Some s =>
      if needs_quoting s
      then String DQ (double_quotes s ++ String DQ EmptyString)
      else s
  end.

(** The text [appendCsvRow] appends for a row:
    [columns.map(csvEsc).join(',') + '\n']. *)
Definition csv_line (columns : list (option string)) : string :=
  (String.concat "," (map csvEsc columns) ++ String LF EmptyString)%string.

End Text.

(** ** bootstrap-enr-all.mjs

    The script that waits for the beacon nodes to publish their identity
    and records it in the [.env] file.  The file system is an object from
    paths to contents. *)

Module Bootstrap.
Import Text.

(** [content.split(/\r?\n/)], for the text that follows a piece [cur]
    already read: a line feed ends a line, and so does a carriage return
    immediately followed by a line feed. *)
Fixpoint split_lines (cur : string) (s : string) : list string :=
  match s with
  | EmptyString => [cur]
  | String c rest =>
      if Ascii.eqb c LF then cur :: split_lines EmptyString rest
      else if Ascii.eqb c CR then
        match rest with
        | String c' rest' =>
            if Ascii.eqb c' LF then cur :: split_lines EmptyString rest'
            else split_lines (cur ++ String c EmptyString) rest
        | EmptyString => split_lines (cur ++ String c EmptyString) rest
        end
      else split_lines (cur ++ String c EmptyString) rest
  end.

(** [arr.findIndex(p)]; [None] is [-1]. *)
Fixpoint findIndex {A : Type} (p : A -> bool) (l : list A) : option nat :=
  match l with
  | [] => None
  | x :: rest =>
      if p x then Some 0%nat
      else match findIndex p rest with
           | Some i => Some (S i)
           | None => None
           end
  end.

(** [arr[idx] = v] for an index within the array. *)
Fixpoint set_at {A : Type} (idx : nat) (v : A) (l : list A) : list A :=
  match l, idx with
  | [], _ => []
  | _ :: rest, O => v :: rest
  | x :: rest, S i => x :: set_at i v rest
  end.

(** The lines of [upsertEnv] after the key has been set. *)
Definition upsert_lines (key value : string) (lines : list string) : list string :=
  let kv := (key ++ "=" ++ value)%string in
  match findIndex (fun l => startsWith l (key ++ "=")) lines with
  | Some idx => set_at idx kv lines
  | None => lines ++ [kv]
  end.

(** The lines [upsertEnv] reads from a content. *)
Definition env_lines (content : string) : list string :=
  filter truthy (split_lines EmptyString content).

(** [lines.join('\n') + '\n'] *)
Definition render_lines (lines : list string) : string :=
  (String.concat (String LF EmptyString) lines ++ String LF EmptyString)%string.

(** [upsertEnv(path, key, value)] on a file system. *)
Definition upsertEnv (path key value : string) (fs : object string) : object string :=
  let content := nullish (Js.get path fs) EmptyString in
  let lines := env_lines content in
  Js.set path (render_lines (upsert_lines key value lines)) fs.

(** [\d] *)
Definition is_digit (c : ascii) : bool :=
  let n := nat_of_ascii c in ((48 <=? n) && (n <=? 57))%nat.

(** What is left of [s] after [\d+], if [s] starts with a digit;
    [seen] says that a digit has been read. *)
Fixpoint after_digits (seen : bool) (s : string) : option string :=
  match s with
  | EmptyString => if seen then Some s else None
  | String c rest =>
      if is_digit c then after_digits true rest
      else if seen then Some s else None
  end.

(** What is left of [s] after the given character. *)
Definition after_char (c : ascii) (s : string) : option string :=
  match s with
  | String c' rest => if Ascii.eqb c' c then Some rest else None
  | EmptyString => None
  end.

(** What is left of [s] after the given text. *)
Fixpoint after_text (t s : string) : option string :=
  match t with
  | EmptyString => Some s
  | String c t' =>
      match after_char c s with
      | Some rest => after_text t' rest
      | None => None
      end
  end.

Definition and_then {A B : Type} (o : option A) (f : A -> option B) : option B :=
  match o with
  | Some a => f a
  | None => None
  end.

(** A match of [/(\/ip4\/)(\d+\.\d+\.\d+\.\d+)(\/)/] at the start of [s]:
    what is left of [s] after it.  A run of digits is followed by a
    character that is not a digit, so the runs are matched whole. *)
Definition match_ip4 (s : string) : option string :=
  and_then (after_text "/ip4/" s) (fun s1 =>
  and_then (after_digits false s1) (fun s2 =>
  and_then (after_char "." s2) (fun s3 =>
  and_then (after_digits false s3) (fun s4 =>
  and_then (after_char "." s4) (fun s5 =>
  and_then (after_digits false s5) (fun s6 =>
  and_then (after_char "." s6) (fun s7 =>
  and_then (after_digits false s7) (fun s8 =>
  after_char "/" s8)))))))).

(** [s.replace(/(\/ip4\/)(\d+\.\d+\.\d+\.\d+)(\/)/g, repl)] for a
    replacement text [repl] already expanded; [skip] counts the
    characters of a match still to pass over. *)
Fixpoint replace_all_ip4 (skip : nat) (repl : string) (s : string) : string :=
  match s with
  | EmptyString => EmptyString
  | String c rest =>
      match skip with
      | S k => replace_all_ip4 k repl rest
      | O =>
          match match_ip4 s with
          | Some after =>
              (repl ++ replace_all_ip4
                         (String.length s - String.length after - 1) repl rest)%string
          | None => String c (replace_all_ip4 0 repl rest)
          end
      end
  end.

(** [patchEnrIp(enr, ip)]; [ip] is [None] for [null], and is taken to
    hold no dollar sign, so that the replacement text is
    [/ip4/] followed by the ip and a slash. *)
Definition patchEnrIp (enr : string) (ip : option string) : string :=
  match ip with
  | None => enr
  | Some i =>
      if truthy i
      then replace_all_ip4 0 ("/ip4/" ++ i ++ "/") enr
      else enr
  end.

(** [serviceUrl(service)]; [None] is [undefined]. *)
Definition serviceUrl (service : string) : option string :=
  Js.get service
    [ ("prysm", "http://127.0.0.1:3500");
      ("prysm-2", "http://127.0.0.1:3502");
      ("prysm-3", "http://127.0.0.1:3503") ].

(** [json?.data] of the identity endpoint: the ENR ([None] when absent
    or null) and the p2p addresses ([None] when not an array). *)
Record IdentityData : Type := {
  enr : option string;
  p2p_addresses : option (list string)
}.

(** A response of the identity endpoint; [id_data] is what
    [(await res.json())?.data] gives. *)
Record IdentityResponse : Type := {
  id_ok : bool;
  id_status : Z;
  id_data : exn + option IdentityData
}.

(** The world of the bootstrap script. *)
Class Host : Type := {
  HWorld : Type;
  (** [fetch(url)] of an identity endpoint. *)
  fetch_identity : string -> HWorld -> (exn + IdentityResponse) * HWorld;
  (** [Date.now()]. *)
  clock : HWorld -> Z;
  (** The world once [sleep(ms)] of [node:timers/promises] has resolved. *)
  after_sleep : Z -> HWorld -> HWorld
}.

Section Wait.
Context {H : Host}.

(** A computation of the bootstrap script. *)
Definition W (A : Type) : Type := HWorld -> (exn + A) * HWorld.

(** [fetchIdentity(url)]; an [undefined] URL is printed into the
    template as the text [undefined]. *)
Definition fetchIdentity (url : option string) : W (option IdentityData) :=
  fun w =>
    match fetch_identity (nullish url "undefined" ++ "/eth/v1/node/identity") w with
    | (inl e, w') => (inl e, w')
    | (inr res, w') =>
        if negb (id_ok res)
        then (inl (Error ("HTTP " ++ String_of_Z (id_status res))), w')
        else (id_data res, w')
    end.

(** [data?.enr] is truthy. *)
Definition has_enr (data : option IdentityData) : bool :=
  match data with
  | Some d => match enr d with Some e => truthy e | None => false end
  | None => false
  end.

(** How a bounded run of [waitForEnr] ends. *)
Inductive Waited : Type :=
| Got (data : option IdentityData)    (* [return data] *)
| StillWaiting.                        (* the allowed iterations were all run *)

(** The [while] loop of [waitForEnr], run for at most [fuel]
    iterations. *)
Fixpoint waitForEnr_loop (fuel : nat) (service : string) (url : option string)
    (start timeoutMs : Z) : W Waited :=
  fun w =>
    match fuel with
    | O => (inr StillWaiting, w)
    | S fuel' =>
        if clock w - start <? timeoutMs then
          match fetchIdentity url w with
          | (inr data, w1) =>
              if has_enr data then (inr (Got data), w1)
              else waitForEnr_loop fuel' service url start timeoutMs
                     (after_sleep 2000 w1)
          | (inl _, w1) =>
              waitForEnr_loop fuel' service url start timeoutMs
                (after_sleep 2000 w1)
          end
        else (inl (Error ("timeout waiting ENR for " ++ service)), w)
    end.

(** [waitForEnr(service, timeoutMs)], with the loop bounded by [fuel]. *)
Definition waitForEnr (fuel : nat) (service : string) (timeoutMs : Z) : W Waited :=
  fun w => waitForEnr_loop fuel service (serviceUrl service) (clock w) timeoutMs w.

End Wait.

End Bootstrap.

(** ** Vocabulary of the properties *)

Section Vocabulary.
Context {E : Env}.

(** A computation that appends no row. *)
Definition keeps_written {A : Type} (m : M A) : Prop :=
  forall st, written (snd (m st)) = written st.

(** The URL [beaconGet] asks for. *)
Definition beacon_url (path endpoint : string) : string :=
  (strip_trailing_slash endpoint ++ path)%string.

(** [all_fail path es st st']: starting in [st], [beaconGet] on each
    endpoint of [es] in turn throws, and leaves the state [st']. *)
Inductive all_fail (path : string) : list string -> St -> St -> Prop :=
| all_fail_nil : forall st, all_fail path [] st st
| all_fail_cons : forall endpoint rest st e st1 st2,
    beaconGet endpoint path st = (inl e, st1) ->
    all_fail path rest st1 st2 ->
    all_fail path (endpoint :: rest) st st2.

(** Text of the error the resolver throws. *)
Definition exn_message (e : exn) : string :=
  match e with
  | Error m | TypeError m | SyntaxError m | ReferenceError m => m
  end.

(** Whether an error names every configured consensus endpoint. *)
Definition names_every_endpoint (e : exn) : bool :=
  forallb (includes (exn_message e)) CL_ENDPOINTS.

(** The sum of a list of integers. *)
Definition Zsum (l : list Z) : Z := fold_right Z.add 0 l.

(** [r] is an integer nearest to the quotient [s / n]: they differ by at
    most one half. *)
Definition nearest_integer (r s n : Z) : Prop := 2 * Z.abs (r * n - s) <= n.

Definition validators_path : string :=
  "/eth/v1/beacon/states/head/validators?status=active".

(** The average the sampler writes, read off the outcome of its one
    failover call. *)
Definition avgBal_written (o : exn + Json * Z) : Z :=
  match o with
  | inr (JValidators (Arr items), _) =>
      avgBal_of (filter (fun n => 0 <=? n) (map balance_of items))
  | _ => -1
  end.

(** What [getParticipationRate] makes of the elements served: the value
    of the first one, the sentinel when there is none, and a TypeError
    when the first one has no value. *)
Definition participation_of (res : list PromEntry) : exn + Q :=
  match res with
  | Sample r :: _ => inr (value1 r)
  | NoValue _ :: _ => inl no_value
  | [] => inr (inject_Z (-1))
  end.

Definition carries_value (r : PromEntry) : bool :=
  match r with
  | Sample _ => true
  | NoValue _ => false
  end.

(** Every element that the world serves in a Prometheus result carries
    its value. *)
Definition serves_values : Prop :=
  forall req w res status l,
    fst (fetch req w) = inr res ->
    json res = inr (JProm status (Some l)) ->
    forallb carries_value l = true.

(** The Standard Library's reference for IEEE 754 arithmetic, at the
    format of doubles: the number an integer is read as, and the value of
    a finite number, in lowest terms. *)
Definition SF_of_Z (z : Z) : SpecFloat.spec_float :=
  SpecFloat.binary_normalize 53 1024 z 0 false.

Definition SF_value (f : SpecFloat.spec_float) : option Q :=
  match f with
  | SpecFloat.S754_zero _ => Some 0%Q
  | SpecFloat.S754_finite s m e =>
      Some (Qred ((if s then -1 else 1) * inject_Z (Z.pos m) * 2 ^ e)%Q)
  | _ => None
  end.

(** The balances the sampler keeps of the validators served: for each
    entry its balance, else its effective balance, and nothing for an
    entry with neither or with a negative number. *)
Definition kept_balances (items : list ValidatorEntry) : list Z :=
  filter (fun n => 0 <=? n) (map balance_of items).

(** The buckets that were counted: the non-negative entries. *)
Definition succeeded (counts : list Z) : list Z :=
  filter (fun n => 0 <=? n) counts.

(** [settles ps st ss st']: starting in [st], the computations [ps] are
    run one after the other, each to its end; [ss] records for each, in
    order, the value it returned or the exception it threw, and [st'] is
    the state after the last one. *)
Inductive settles {A : Type} : list (M A) -> St -> list (Settled A) -> St -> Prop :=
| settles_nil : forall st, settles [] st [] st
| settles_fulfilled : forall p ps st v st1 ss st2,
    p st = (inr v, st1) ->
    settles ps st1 ss st2 ->
    settles (p :: ps) st (Fulfilled v :: ss) st2
| settles_rejected : forall p ps st e st1 ss st2,
    p st = (inl e, st1) ->
    settles ps st1 ss st2 ->
    settles (p :: ps) st (Rejected e :: ss) st2.

(** The outcome [Promise.allSettled] records for a computation that
    ended in [r]. *)
Definition settled_of {A : Type} (r : exn + A) : Settled A :=
  match r with
  | inl e => Rejected e
  | inr v => Fulfilled v
  end.

(** The delay the loop computes once a tick has settled in [st1]. *)
Definition delay_after (nextAt : Z) (st1 : St) : Z :=
  Z.max 0 (nextAt + INTERVAL_MS - Date_now (world st1)).

(** The [endAt] that [main] computes when it starts in [init]. *)
Definition endAt_of (init : St) : option Z :=
  if 0 <? DURATION_SEC
  then Some (Date_now (world init) + DURATION_SEC * 1000)
  else None.

(** The state in which the next tick begins once the samplers of a tick
    with deadline [nextAt] have settled in [st1]: after the sleep, if
    there is a delay to sleep, and [st1] itself otherwise. *)
Definition after_delay (nextAt : Z) (st1 : St) : St :=
  if 0 <? delay_after nextAt st1
  then snd (sleep (delay_after nextAt st1) st1)
  else st1.

(** The position of the last occurrence of [e] in [l]. *)
Fixpoint last_pos (e : string) (l : list string) : option nat :=
  match l with
  | [] => None
  | x :: rest =>
      match last_pos e rest with
      | Some i => Some (S i)
      | None => if String.eqb e x then Some 0%nat else None
      end
  end.

(** The number a quantity call leaves in its column. *)
Definition quantity_of (o : exn + RpcResult * Z) : Z :=
  match o with
  | inr (r, _) => nullish (hexToNum r) MISSING
  | inl _ => MISSING
  end.

(** The three numbers the block call leaves in its columns. *)
Definition block_fields_of (o : exn + RpcResult * Z) : Z * Z * Z :=
  match o with
  | inr (RBlock b, _) =>
      (nullish (baseFeePerGas b) MISSING,
       nullish (gasUsed b) MISSING,
       nullish (gasLimit b) MISSING)
  | _ => (MISSING, MISSING, MISSING)
  end.

(** The URL [queryPrometheus] asks for. *)
Definition prometheus_url (query : string) : string :=
  (PROMETHEUS_URL ++ "/api/v1/query?query=" ++ encodeURIComponent query)%string.

(** The header [initCsvFiles] writes on a stream. *)
Definition header_of (file : Sink) : Row :=
  match file with
  | EL_CSV => elHeader
  | VAL_CSV => valHeader
  | NET_CSV => netHeader
  | PERF_CL_CSV => perfClHeader
  | PERF_EL_CSV => perfElHeader
  end.

(** A written row has as many columns as the header of its stream. *)
Definition fits_header (entry : Sink * Row) : Prop :=
  List.length (snd entry) = List.length (header_of (fst entry)).

(** The container name [sampleEl] gives an endpoint. *)
Definition el_label (endpoint : string) : string :=
  elContainerName (nullish (Js.get endpoint EL_INDEX) MISSING).

Definition Sink_eqb (a b : Sink) : bool :=
  match a, b with
  | EL_CSV, EL_CSV | VAL_CSV, VAL_CSV | NET_CSV, NET_CSV
  | PERF_CL_CSV, PERF_CL_CSV | PERF_EL_CSV, PERF_EL_CSV => true
  | _, _ => false
  end.

(** The rows of a log that went to one stream, oldest first. *)
Definition rows_of (file : Sink) (log : list (Sink * Row)) : list Row :=
  map snd (filter (fun entry => Sink_eqb (fst entry) file) log).

(** The second column of a row. *)
Definition container_column (r : Row) : cell := nth 1 r (CStr "").

(** What a batch of samples makes of the record of container [c]: each
    sample of that container, in order, sets the column [key]. *)
Definition apply_samples (key : MetricKey) (res : list PromSample)
    (c : string) (rec : PerfRecord) : PerfRecord :=
  fold_left
    (fun rec r =>
       if String.eqb (getContainer r) c
       then set_metric key (value1 r) rec else rec)
    res rec.

(** Two records that agree on every column but [key]. *)
Definition agree_off (key : MetricKey) (r1 r2 : PerfRecord) : Prop :=
  forall k, k <> key -> get_metric k r1 = get_metric k r2.

(** Whether every character of a string passes a test. *)
Fixpoint all_chars (p : ascii -> bool) (s : string) : bool :=
  match s with
  | EmptyString => true
  | String c rest => p c && all_chars p rest
  end.

(** A list item as one writes it in a configuration variable: not empty,
    and free of commas and white space. *)
Definition clean_token (t : string) : bool :=
  Text.truthy t && all_chars (fun c => negb (Text.is_sep c)) t.

(** Reading back a field that [csvEsc] wrote: a field that starts with a
    double quote loses its two outer quotes, and each doubled quote
    inside becomes one. *)
Fixpoint undouble (s : string) : string :=
  match s with
  | EmptyString => EmptyString
  | String c rest =>
      if Ascii.eqb c Text.DQ then
        match rest with
        | String c' rest' =>
            if Ascii.eqb c' Text.DQ then String Text.DQ (undouble rest')
            else EmptyString
        | EmptyString => EmptyString
        end
      else String c (undouble rest)
  end.

Definition unquote (s : string) : string :=
  match s with
  | EmptyString => EmptyString
  | String c rest => if Ascii.eqb c Text.DQ then undouble rest else s
  end.

(** A reader of one CSV line (quoted fields with doubled quotes, fields
    separated by commas, the line ended by a line feed). *)
Inductive csv_state : Type := FieldStart | Unquoted | Quoted | QuoteSeen.

Fixpoint parse_csv (q : csv_state) (cur : string) (s : string) : list string :=
  match s with
  | EmptyString => [cur]
  | String c rest =>
      match q with
      | FieldStart =>
          if Ascii.eqb c Text.DQ then parse_csv Quoted EmptyString rest
          else if Ascii.eqb c "," then EmptyString :: parse_csv FieldStart EmptyString rest
          else if Ascii.eqb c Text.LF then [EmptyString]
          else parse_csv Unquoted (String c EmptyString) rest
      | Unquoted =>
          if Ascii.eqb c "," then cur :: parse_csv FieldStart EmptyString rest
          else if Ascii.eqb c Text.LF then [cur]
          else parse_csv Unquoted (cur ++ String c EmptyString) rest
      | Quoted =>
          if Ascii.eqb c Text.DQ then parse_csv QuoteSeen cur rest
          else parse_csv Quoted (cur ++ String c EmptyString) rest
      | QuoteSeen =>
          if Ascii.eqb c Text.DQ then parse_csv Quoted (cur ++ String Text.DQ EmptyString) rest
          else if Ascii.eqb c "," then cur :: parse_csv FieldStart EmptyString rest
          else if Ascii.eqb c Text.LF then [cur]
          else parse_csv Unquoted (cur ++ String c EmptyString) rest
      end
  end.

(** The first line of an [.env] file that sets [key]. *)
Definition env_find (key : string) (lines : list string) : option string :=
  find (fun l => startsWith l (key ++ "=")) lines.

(** Whether a string ends with a carriage return. *)
Fixpoint ends_with_cr (s : string) : bool :=
  match s with
  | EmptyString => false
  | String c EmptyString => Ascii.eqb c Text.CR
  | String _ rest => ends_with_cr rest
  end.

(** A line that a file keeps as it is: not empty, without a line feed,
    and not ending with a carriage return. *)
Definition clean_line (l : string) : bool :=
  Text.truthy l
  && all_chars (fun c => negb (Ascii.eqb c Text.LF)) l
  && negb (ends_with_cr l).

(** A key without an equals sign. *)
Definition plain_key (k : string) : bool :=
  all_chars (fun c => negb (Ascii.eqb c "=")) k.

End Vocabulary.

(** ** Scripted worlds

    Concrete instances of [Env] on which the script can be run.  The
    world is the clock in milliseconds; every [fetch] takes the time the
    scenario gives it and answers as the scenario says. *)

Module Scripted.

(** A successful JSON answer, an HTTP error, a refused connection. *)
Definition answer (j : Json) : exn + Response :=
  inr {| ok := true; status := 200; json := inr j |}.
Definition http_error (code : Z) : exn + Response :=
  inr {| ok := false; status := code; json := inr JNull |}.
Definition refused : exn + Response := inl (TypeError "fetch failed").

Record Scenario : Type := {
  respond : Request -> Z -> exn + Response;   (* by request and clock *)
  latency : Request -> Z -> Z;
  el_endpoints : list string;
  cl_endpoints : list string;
  interval_ms : Z;
  duration_sec : Z;
  slots_per_epoch : Z
}.

Definition env (s : Scenario) : Env := {|
  World := Z;
  fetch := fun r w => (respond s r w, w + latency s r w);
  Date_now := fun w => w;
  setTimeout := fun ms w => w + ms;
  signalled := fun _ => false;
  encodeURIComponent := fun q => q;
  EL_ENDPOINTS := el_endpoints s;
  CL_ENDPOINTS := cl_endpoints s;
  INTERVAL_MS := interval_ms s;
  DURATION_SEC := duration_sec s;
  SLOTS_PER_EPOCH := slots_per_epoch s;
  PROMETHEUS_URL := "http://localhost:19090"
|}.

(** The state a run starts from, at clock [t]. *)
Definition start (s : Scenario) (t : Z) : @St (env s) :=
  {| world := (t : @World (env s)); written := []; trace := [] |}.

Definition default_el : list string :=
  ["http://geth:8545"; "http://geth-2:8545"; "http://geth-3:8545"].
Definition default_cl : list string :=
  ["http://prysm:3500"; "http://prysm-2:3500"; "http://prysm-3:3500"].

(** Whether a request goes to the given endpoint. *)
Definition to_endpoint (endpoint : string) (r : Request) : bool :=
  String.prefix (endpoint ++ "/") (request_url r).

(** Whether the URL of a request ends with the given text. *)
Definition ends_with (suffix : string) (r : Request) : bool :=
  let u := request_url r in
  let n := String.length u in
  let k := String.length suffix in
  String.eqb (String.substring (n - k) k u) suffix.

(** The first consensus endpoint answers HTTP 500, the second one serves
    the head at slot 100 and finalized epoch 3, the third one would serve
    slot 999; everything else is unreachable. *)
Definition second_serves : Scenario := {|
  respond := fun r _ =>
    if to_endpoint "http://prysm:3500" r then http_error 500
    else if to_endpoint "http://prysm-2:3500" r then
      if ends_with "/headers/head" r then
        answer (JHeader (Some {| header_message_slot := Some 100; data_slot := None |}))
      else if ends_with "/finality_checkpoints" r then
        answer (JFinality (Some {| current_justified_epoch := Some 4;
                                   finalized_epoch := Some 3 |}))
      else if ends_with "status=active" r then
        answer (JValidators (Arr [ {| balance := Some 32; effective_balance := None |};
                                   {| balance := Some 33; effective_balance := None |} ]))
      else answer (JValidators (Arr []))
    else if to_endpoint "http://prysm-3:3500" r then
      answer (JHeader (Some {| header_message_slot := Some 999; data_slot := None |}))
    else refused;
  latency := fun _ _ => 5;
  el_endpoints := default_el;
  cl_endpoints := default_cl;
  interval_ms := 1000;
  duration_sec := 0;
  slots_per_epoch := 6
|}.

(** The consensus endpoints serve four validators whose balances add up
    to more than 2^53: 9007199254740992, 1, 1 and 1. *)
Definition large_balances : Scenario := {|
  respond := fun r _ =>
    if ends_with "status=active" r then
      answer (JValidators
                (Arr [ {| balance := Some 9007199254740992; effective_balance := None |};
                       {| balance := Some 1; effective_balance := None |};
                       {| balance := Some 1; effective_balance := None |};
                       {| balance := Some 1; effective_balance := None |} ]))
    else refused;
  latency := fun _ _ => 5;
  el_endpoints := default_el;
  cl_endpoints := default_cl;
  interval_ms := 1000;
  duration_sec := 0;
  slots_per_epoch := 6
|}.

(** Only Prometheus answers, and what it serves for a query is one
    element of the first beacon node without value. *)
Definition bare_element : Scenario := {|
  respond := fun r _ =>
    if to_endpoint "http://localhost:19090" r then
      answer (JProm "success" (Some [NoValue "host.docker.internal:8080"]))
    else refused;
  latency := fun _ _ => 5;
  el_endpoints := default_el;
  cl_endpoints := default_cl;
  interval_ms := 1000;
  duration_sec := 0;
  slots_per_epoch := 6
|}.

(** Nothing can be reached. *)
Definition all_down : Scenario := {|
  respond := fun _ _ => refused;
  latency := fun _ _ => 1;
  el_endpoints := default_el;
  cl_endpoints := default_cl;
  interval_ms := 1000;
  duration_sec := 0;
  slots_per_epoch := 6
|}.

(** The two pending buckets are served and are empty; the two active
    buckets cannot be fetched from any endpoint. *)
Definition pending_empty : Scenario := {|
  respond := fun r _ =>
    if ends_with "status=pending_initialized" r then answer (JValidators (Arr []))
    else if ends_with "status=pending_queued" r then answer (JValidators (Arr []))
    else refused;
  latency := fun _ _ => 1;
  el_endpoints := default_el;
  cl_endpoints := default_cl;
  interval_ms := 1000;
  duration_sec := 0;
  slots_per_epoch := 6
|}.

(** Every request issued while the clock is below 1300 takes 100 ms and
    is refused, later ones take no time: with one endpoint of each kind,
    thirteen requests are made before the clock reaches 1300, so the
    first tick takes 1300 ms, against a period of 1000 ms. *)
Definition slow_first_tick : Scenario := {|
  respond := fun _ _ => refused;
  latency := fun _ w => if w <? 1300 then 100 else 0;
  el_endpoints := ["http://geth:8545"];
  cl_endpoints := ["http://prysm:3500"];
  interval_ms := 1000;
  duration_sec := 0;
  slots_per_epoch := 6
|}.

Definition head_path : string := "/eth/v1/beacon/headers/head".

(** A reading of an instance that the table does not list. *)
Definition stray_sample : PromSample :=
  {| metric_instance := "host.docker.internal:9100"; value1 := inject_Z 5 |}.

(** A reading whose instance label is itself a container name. *)
Definition named_sample : PromSample :=
  {| metric_instance := "geth-2"; value1 := inject_Z 7 |}.

(** One execution endpoint is listed twice. *)
Definition duplicate_endpoint : Scenario := {|
  respond := fun _ _ => refused;
  latency := fun _ _ => 1;
  el_endpoints := ["http://geth:8545"; "http://geth-2:8545"; "http://geth:8545"];
  cl_endpoints := default_cl;
  interval_ms := 1000;
  duration_sec := 0;
  slots_per_epoch := 6
|}.

(** Nothing can be reached, and the run is given two seconds. *)
Definition two_second_budget : Scenario := {|
  respond := fun _ _ => refused;
  latency := fun _ _ => 1;
  el_endpoints := default_el;
  cl_endpoints := default_cl;
  interval_ms := 1000;
  duration_sec := 2;
  slots_per_epoch := 6
|}.

(** A reading of the second beacon node. *)
Definition mapped_sample : PromSample :=
  {| metric_instance := "host.docker.internal:8081"; value1 := inject_Z 42 |}.

(** A host on which no identity endpoint can be reached; a request takes
    ten milliseconds. *)
Definition unreachable_host : Bootstrap.Host := {|
  Bootstrap.HWorld := Z;
  Bootstrap.fetch_identity := fun _ w => (inl (TypeError "fetch failed"), w + 10);
  Bootstrap.clock := fun w => w;
  Bootstrap.after_sleep := fun ms w => w + ms
|}.

(** Texts with a line feed and with a double quote in them. *)
Definition two_lines : string :=
  ("first" ++ String Text.LF "second")%string.
Definition quoted_word : string :=
  ("say " ++ String Text.DQ ("hi" ++ String Text.DQ ""))%string.

(** An [.env] file of two lines, the first one ended by a carriage
    return and a line feed. *)
Definition env_file : object string :=
  [ (".env",
     ("A=1" ++ String Text.CR (String Text.LF ("PRYSM_PEERS_1=old" ++ String Text.LF "")))%string) ].

End Scripted.

(** ** Properties *)

(** *** The helpers on strings *)

Example strip_trailing_slash_examples :
  strip_trailing_slash "http://prysm:3500/" = "http://prysm:3500" /\
  strip_trailing_slash "http://prysm:3500" = "http://prysm:3500" /\
  strip_trailing_slash "http://prysm:3500//" = "http://prysm:3500/".
Proof. repeat split. Qed.

Example includes_examples :
  includes "All CL endpoints failed for /x" "failed" = true /\
  includes "All CL endpoints failed for /x" "http://prysm:3500" = false.
Proof. repeat split. Qed.

Example String_of_Z_examples :
  String_of_Z 500 = "500" /\ elContainerName 0 = "geth-1".
Proof. repeat split. Qed.

(** *** Computations that append no row *)

Section Frame.
Context {E : Env}.

Lemma keeps_ret {A : Type} (a : A) : keeps_written (ret a : M A).
Proof. intro st. reflexivity. Qed.

Lemma keeps_throw {A : Type} (e : exn) : keeps_written (throw e : M A).
Proof. intro st. reflexivity. Qed.

Lemma keeps_bind {A B : Type} (m : M A) (k : A -> M B) :
  keeps_written m -> (forall a, keeps_written (k a)) ->
  keeps_written (bind m k).
Proof.
  intros Hm Hk st. cbn. unfold M_bind.
  specialize (Hm st). destruct (m st) as [[e | a] st1]; cbn in *.
  - exact Hm.
  - rewrite Hk. exact Hm.
Qed.

Lemma keeps_try_catch {A : Type} (m : M A) (h : exn -> M A) :
  keeps_written m -> (forall e, keeps_written (h e)) ->
  keeps_written (try_catch m h).
Proof.
  intros Hm Hh st. unfold try_catch.
  specialize (Hm st). destruct (m st) as [[e | a] st1]; cbn in *.
  - rewrite Hh. exact Hm.
  - exact Hm.
Qed.

Lemma keeps_lift_exn {A : Type} (r : exn + A) : keeps_written (lift_exn r).
Proof. destruct r; intro st; reflexivity. Qed.

Lemma keeps_now : keeps_written now.
Proof. intro st. reflexivity. Qed.

Lemma keeps_do_fetch (r : Request) : keeps_written (do_fetch r).
Proof. intro st. unfold do_fetch. destruct (fetch r (world st)). reflexivity. Qed.

Lemma keeps_sleep (ms : Z) : keeps_written (sleep ms).
Proof. intro st. reflexivity. Qed.

Lemma keeps_if {A : Type} (b : bool) (m1 m2 : M A) :
  keeps_written m1 -> keeps_written m2 ->
  keeps_written (if b then m1 else m2).
Proof. destruct b; auto. Qed.

End Frame.

Create HintDb frame.
#[export] Hint Resolve keeps_ret keeps_throw keeps_lift_exn keeps_now
  keeps_do_fetch keeps_sleep : frame.
#[export] Hint Extern 2 (keeps_written (bind _ _)) =>
  apply keeps_bind; [ | intro ] : frame.
#[export] Hint Extern 2 (keeps_written (try_catch _ _)) =>
  apply keeps_try_catch; [ | intro ] : frame.
#[export] Hint Extern 2 (keeps_written (if _ then _ else _)) =>
  apply keeps_if : frame.
#[export] Hint Extern 3 (keeps_written (match ?x with _ => _ end)) =>
  destruct x : frame.

Section FrameLemmas.
Context {E : Env}.

Lemma keeps_beaconGet (url path : string) : keeps_written (beaconGet url path).
Proof. unfold beaconGet. auto 20 with frame. Qed.

Lemma keeps_failover_loop (es : list string) (path : string) :
  keeps_written (failover_loop es path).
Proof.
  induction es as [| e es IH]; cbn [failover_loop].
  - auto with frame.
  - apply keeps_try_catch; [apply keeps_beaconGet | intro; exact IH].
Qed.

Lemma keeps_beaconGetWithFailover (path : string) :
  keeps_written (beaconGetWithFailover path).
Proof. apply keeps_failover_loop. Qed.

Lemma keeps_queryPrometheus (q : string) : keeps_written (queryPrometheus q).
Proof. unfold queryPrometheus. auto 20 with frame. Qed.

End FrameLemmas.

(** *** Failover resolver *)

Section Failover.
Context {E : Env}.

Lemma beaconGet_trace (url path : string) (st : St) :
  trace (snd (beaconGet url path st)) = trace st ++ [beacon_url path url].
Proof.
  unfold beaconGet, beacon_url. cbn. unfold M_bind, now, do_fetch. cbn.
  destruct (fetch _ (world st)) as [[e | res] w]; cbn; [reflexivity |].
  destruct (ok res); cbn; [| reflexivity].
  destruct (json res); reflexivity.
Qed.

Lemma all_fail_trace (path : string) (es : list string) (st st' : St) :
  all_fail path es st st' ->
  trace st' = trace st ++ map (beacon_url path) es.
Proof.
  induction 1 as [st | endpoint rest st e st1 st2 Hget _ IH]; cbn.
  - now rewrite app_nil_r.
  - rewrite IH. pose proof (beaconGet_trace endpoint path st) as Ht.
    rewrite Hget in Ht. cbn in Ht. rewrite Ht, <- app_assoc. reflexivity.
Qed.

(** Endpoints that fail are passed over: the loop goes on with the rest
    from the state they left. *)
Lemma failover_loop_skip (path : string) (pre rest : list string) (st st1 : St) :
  all_fail path pre st st1 ->
  failover_loop (pre ++ rest) path st = failover_loop rest path st1.
Proof.
  induction 1 as [st | endpoint pre' st e st1 st2 Hget _ IH].
  - reflexivity.
  - cbn [app failover_loop]. unfold try_catch at 1. rewrite Hget. exact IH.
Qed.

(** C4. The failover resolver tries the consensus endpoints in
    configuration order and returns what the first endpoint that succeeds
    returns: when the endpoints before [e] in [CL_ENDPOINTS] fail one
    after the other and [e] then succeeds with [r], the resolver returns
    [r] in the state that call left, and the requests made are those to
    the failed endpoints and to [e], in order; no endpoint after [e] is
    asked. *)
Theorem failover_first_success
    (pre : list string) (e : string) (post : list string)
    (path : string) (st st1 st2 : St) (r : Json * Z) :
  CL_ENDPOINTS = pre ++ e :: post ->
  all_fail path pre st st1 ->
  beaconGet e path st1 = (inr r, st2) ->
  beaconGetWithFailover path st = (inr r, st2) /\
  trace st2 = trace st ++ map (beacon_url path) (pre ++ [e]).
Proof.
  intros Hcfg Hpre Hget. split.
  - unfold beaconGetWithFailover. rewrite Hcfg.
    rewrite (failover_loop_skip path pre (e :: post) st st1 Hpre).
    cbn [failover_loop]. unfold try_catch. rewrite Hget. reflexivity.
  - pose proof (beaconGet_trace e path st1) as Ht. rewrite Hget in Ht.
    cbn in Ht. rewrite Ht, (all_fail_trace path pre st st1 Hpre).
    rewrite map_app, app_assoc. reflexivity.
Qed.

(** C5, as the code has it.  When every endpoint of [CL_ENDPOINTS] fails,
    the resolver throws one [Error] whose message is
    ["All CL endpoints failed for "] followed by the path: the message is
    fixed by the operation alone and names no endpoint.  Every endpoint
    has been asked once, in configuration order. *)
Theorem failover_all_failed (path : string) (st st' : St) :
  all_fail path CL_ENDPOINTS st st' ->
  beaconGetWithFailover path st
    = (inl (Error ("All CL endpoints failed for " ++ path)), st') /\
  trace st' = trace st ++ map (beacon_url path) CL_ENDPOINTS.
Proof.
  intro Hall. split.
  - unfold beaconGetWithFailover.
    rewrite <- (app_nil_r CL_ENDPOINTS).
    rewrite (failover_loop_skip path CL_ENDPOINTS [] st st' Hall).
    reflexivity.
  - exact (all_fail_trace path CL_ENDPOINTS st st' Hall).
Qed.

(** Conversely, a value the resolver returns is the value of the first
    endpoint that succeeds, and an error it throws means that every
    endpoint failed. *)
Lemma failover_loop_success_inv (es : list string) (path : string)
    (st st2 : St) (r : Json * Z) :
  failover_loop es path st = (inr r, st2) ->
  exists pre e post st1,
    es = pre ++ e :: post /\
    all_fail path pre st st1 /\
    beaconGet e path st1 = (inr r, st2).
Proof.
  revert st. induction es as [| e es IH]; intro st; cbn [failover_loop].
  - discriminate.
  - unfold try_catch. destruct (beaconGet e path st) as [[err | r0] st1] eqn:Hget.
    + intro H. destruct (IH st1 H) as (pre & e' & post & st1' & Hes & Hpre & He').
      exists (e :: pre), e', post, st1'. split; [now rewrite Hes |].
      split; [eapply all_fail_cons; eassumption | exact He'].
    + intro H. injection H as -> ->.
      exists [], e, es, st. split; [reflexivity |].
      split; [apply all_fail_nil | exact Hget].
Qed.

Lemma failover_loop_failure_inv (es : list string) (path : string)
    (st st' : St) (err : exn) :
  failover_loop es path st = (inl err, st') ->
  all_fail path es st st'.
Proof.
  revert st. induction es as [| e es IH]; intro st; cbn [failover_loop].
  - intro H. injection H as _ ->. apply all_fail_nil.
  - unfold try_catch. destruct (beaconGet e path st) as [[err0 | r0] st1] eqn:Hget.
    + intro H. eapply all_fail_cons; [exact Hget | exact (IH st1 H)].
    + discriminate.
Qed.

(** The resolver always returns: with a value, or with the one error
    above. *)
Lemma failover_loop_outcome (es : list string) (path : string) (st : St) :
  (exists r, fst (failover_loop es path st) = inr r) \/
  fst (failover_loop es path st)
    = inl (Error ("All CL endpoints failed for " ++ path)).
Proof.
  revert st. induction es as [| e es IH]; intro st; cbn [failover_loop].
  - right. reflexivity.
  - unfold try_catch. destruct (beaconGet e path st) as [[err | r] st1].
    + apply IH.
    + left. exists r. reflexivity.
Qed.

End Failover.

(** *** Double-precision arithmetic *)

Section Doubles.
Local Open Scope Q_scope.

Lemma pow2_pos (k : Z) : 0 < 2 ^ k.
Proof. apply Qpower_0_lt. reflexivity. Qed.

Lemma pow2_succ (k : Z) : 2 ^ (k + 1) == 2 * 2 ^ k.
Proof. rewrite Qpower_plus by discriminate. change (2 ^ 1) with 2. ring. Qed.

Lemma pow2_Z (k : Z) : (0 <= k)%Z -> 2 ^ k == inject_Z (2 ^ k).
Proof. intro H. symmetry. apply (Zpower_Qpower 2 k H). Qed.

Lemma log2_bounds (a : Z) :
  (0 < a)%Z -> 2 ^ Z.log2 a <= inject_Z a /\ inject_Z a < 2 * 2 ^ Z.log2 a.
Proof.
  intro H. destruct (Z.log2_spec a H) as [Hlo Hhi].
  pose proof (Z.log2_nonneg a) as Hn.
  rewrite (pow2_Z _ Hn). split.
  - rewrite <- Zle_Qle. exact Hlo.
  - change 2 with (inject_Z 2) at 1. rewrite <- inject_Z_mult, <- Zlt_Qlt.
    rewrite Z.pow_succ_r in Hhi by exact Hn. exact Hhi.
Qed.

Lemma ilog2_spec (x : Q) :
  0 < x -> 2 ^ ilog2 x <= x /\ x < 2 ^ (ilog2 x + 1).
Proof.
  intro Hx. destruct x as [a b]. unfold ilog2. cbn [Qnum Qden].
  assert (Ha : (0 < a)%Z) by (unfold Qlt in Hx; cbn in Hx; lia).
  destruct (log2_bounds a Ha) as [Ha1 Ha2].
  destruct (log2_bounds (Z.pos b) eq_refl) as [Hb1 Hb2].
  set (la := Z.log2 a) in *. set (lb := Z.log2 (Z.pos b)) in *.
  pose proof (pow2_pos la) as Hp. pose proof (pow2_pos lb) as Hr.
  assert (Hd : 2 ^ (la - lb) == 2 ^ la / 2 ^ lb).
  { apply Qpower_minus. discriminate. }
  assert (Hxq : a # b == inject_Z a / inject_Z (Z.pos b)) by apply Qmake_Qdiv.
  assert (HB : 0 < inject_Z (Z.pos b)) by reflexivity.
  set (A := inject_Z a) in *. set (B := inject_Z (Z.pos b)) in *.
  set (P := 2 ^ la) in *. set (R := 2 ^ lb) in *.
  assert (Hup : A / B < 2 * (P / R)).
  { apply Qlt_shift_div_r; [exact HB |].
    setoid_replace (2 * (P / R) * B) with (2 * P * B / R) by (field; lra).
    apply Qlt_shift_div_l; [exact Hr |]. nra. }
  assert (Hlow : P / R < 2 * (A / B)).
  { apply Qlt_shift_div_r; [exact Hr |].
    setoid_replace (2 * (A / B) * R) with (2 * A * R / B) by (field; lra).
    apply Qlt_shift_div_l; [exact HB |]. nra. }
  destruct (Qle_bool (2 ^ (la - lb)) (a # b)) eqn:Hc.
  - apply Qle_bool_iff in Hc. split; [exact Hc |].
    rewrite pow2_succ, Hd, Hxq. exact Hup.
  - assert (Hlt : a # b < 2 ^ (la - lb)).
    { apply Qnot_le_lt. intro H. apply Qle_bool_iff in H. congruence. }
    replace (la - lb - 1 + 1)%Z with (la - lb)%Z by lia.
    split; [| exact Hlt].
    assert (H2 : 2 ^ (la - lb) == 2 * 2 ^ (la - lb - 1)).
    { rewrite <- pow2_succ. now replace (la - lb - 1 + 1)%Z with (la - lb)%Z by lia. }
    rewrite Hd in H2. rewrite Hxq. lra.
Qed.

Lemma Qfloor_eq (x : Q) (k : Z) :
  inject_Z k <= x -> x < inject_Z (k + 1) -> Qfloor x = k.
Proof.
  intros Hlo Hhi.
  pose proof (Qfloor_le x) as H1. pose proof (Qlt_floor x) as H2.
  assert (Ha : (k < Qfloor x + 1)%Z)
    by (rewrite Zlt_Qlt; apply (Qle_lt_trans _ x); assumption).
  assert (Hb : (Qfloor x < k + 1)%Z)
    by (rewrite Zlt_Qlt; apply (Qle_lt_trans _ x); assumption).
  lia.
Qed.

Lemma round_half_even_int (t : Q) (m : Z) :
  t == inject_Z m -> round_half_even t = m.
Proof.
  intro H. unfold round_half_even.
  assert (Hf : Qfloor t = m) by (rewrite H; apply Qfloor_Z).
  rewrite Hf.
  assert (Hc : (t - inject_Z m ?= 1 # 2) = Lt).
  { apply Qlt_alt. rewrite H. unfold Qminus. rewrite Qplus_opp_r. reflexivity. }
  now rewrite Hc.
Qed.

Lemma round_half_even_bounds (t : Q) :
  (Qfloor t <= round_half_even t <= Qfloor t + 1)%Z.
Proof.
  unfold round_half_even.
  destruct (t - inject_Z (Qfloor t) ?= 1 # 2); [destruct (Z.even (Qfloor t)) | |]; lia.
Qed.

Lemma round_half_even_down (t : Q) :
  t - inject_Z (Qfloor t) < 1 # 2 -> round_half_even t = Qfloor t.
Proof.
  intro H. unfold round_half_even.
  assert (Hc : Qcompare (t - inject_Z (Qfloor t)) (1 # 2) = Lt)
    by (apply -> Qlt_alt; exact H).
  now rewrite Hc.
Qed.

(** The shape of [binary64] away from zero. *)
Lemma binary64_pos (x : Q) :
  0 < x ->
  let e := Z.max (ilog2 (Qabs x)) (-1022) in
  binary64 x == inject_Z (round_half_even (x / 2 ^ (e - 52))) * 2 ^ (e - 52).
Proof.
  intro Hx. unfold binary64.
  destruct (Qeq_bool x 0) eqn:H0.
  - apply Qeq_bool_iff in H0. lra.
  - cbv zeta. apply Qred_correct.
Qed.

Lemma Qabs_pos_eq (x : Q) : 0 < x -> Qabs x == x.
Proof. intro H. apply Qabs_pos. lra. Qed.

Lemma pow2_neg (j : Z) : (0 <= j)%Z -> 2 ^ (- j) == 1 / inject_Z (2 ^ j).
Proof.
  intro H. rewrite Qpower_opp, (pow2_Z j H). field.
  assert (0 < inject_Z (2 ^ j)) by (rewrite <- (pow2_Z j H); apply pow2_pos).
  lra.
Qed.

Lemma ilog2_lt (x : Q) (k : Z) : 0 < x -> x < 2 ^ k -> (ilog2 (Qabs x) < k)%Z.
Proof.
  intros Hx Hk.
  pose proof (Qabs_pos_eq x Hx) as Hab.
  assert (Ha : 0 < Qabs x) by (rewrite Hab; exact Hx).
  destruct (ilog2_spec (Qabs x) Ha) as [Hlo _].
  set (e0 := ilog2 (Qabs x)) in *. rewrite Hab in Hlo.
  apply (Qpower_lt_compat_l_inv 2); [lra | reflexivity].
Qed.

Lemma Qred_inject_Z (z : Z) : Qred (inject_Z z) = inject_Z z.
Proof.
  unfold Qred, inject_Z.
  pose proof (Z.ggcd_gcd z 1) as Hg.
  pose proof (Z.ggcd_correct_divisors z 1) as Hd.
  destruct (Z.ggcd z 1) as [g [aa bb]]. cbn [fst snd] in *.
  rewrite Z.gcd_1_r in Hg. subst g. destruct Hd as [Ha Hb].
  rewrite Z.mul_1_l in Ha, Hb. subst aa bb. reflexivity.
Qed.

(** Integers below 2^53 are doubles. *)
Lemma binary64_int (x : Q) (z : Z) :
  x == inject_Z z -> (0 <= z < 2 ^ 53)%Z -> binary64 x = inject_Z z.
Proof.
  intros Hxz [Hz0 Hz].
  destruct (Z.eq_dec z 0) as [-> | Hne].
  - unfold binary64. assert (H0 : Qeq_bool x 0 = true) by (apply Qeq_bool_iff; exact Hxz).
    now rewrite H0.
  - assert (Hx : 0 < x) by (rewrite Hxz; change 0 with (inject_Z 0); rewrite <- Zlt_Qlt; lia).
    assert (Hlt : x < 2 ^ 53).
    { rewrite Hxz, (pow2_Z 53) by lia. rewrite <- Zlt_Qlt. exact Hz. }
    pose proof (ilog2_lt x 53 Hx Hlt) as He0.
    unfold binary64.
    destruct (Qeq_bool x 0) eqn:H0; [apply Qeq_bool_iff in H0; lra |].
    cbv zeta.
    set (e := Z.max (ilog2 (Qabs x)) (-1022)).
    assert (He : (e <= 52)%Z) by (unfold e; lia).
    set (j := (52 - e)%Z).
    replace (e - 52)%Z with (- j)%Z by (unfold j; lia).
    assert (Hj : (0 <= j)%Z) by (unfold j; lia).
    pose proof (pow2_neg j Hj) as Hu.
    assert (HJ : 0 < inject_Z (2 ^ j)) by (rewrite <- (pow2_Z j Hj); apply pow2_pos).
    assert (Ht : x / 2 ^ (- j) == inject_Z (z * 2 ^ j)).
    { rewrite Hu, Hxz, inject_Z_mult. field. lra. }
    rewrite (round_half_even_int _ _ Ht).
    assert (Hr : inject_Z (z * 2 ^ j) * 2 ^ (- j) == inject_Z z).
    { rewrite Hu, inject_Z_mult. field. lra. }
    rewrite (Qred_complete _ _ Hr). apply Qred_inject_Z.
Qed.

Lemma round_half_even_above (t : Q) (L : Z) :
  inject_Z L <= t -> (L <= round_half_even t)%Z.
Proof.
  intro H. pose proof (round_half_even_bounds t) as [Hb _].
  apply Qfloor_resp_le in H. rewrite Qfloor_Z in H. lia.
Qed.

Lemma round_half_even_le (t : Q) (U : Z) :
  t <= inject_Z U -> (round_half_even t <= U)%Z.
Proof.
  intro H. pose proof (round_half_even_bounds t) as [_ Hb].
  pose proof (Qfloor_resp_le _ _ H) as Hf. rewrite Qfloor_Z in Hf.
  destruct (Z.eq_dec (Qfloor t) U) as [He | Hne]; [| lia].
  rewrite round_half_even_down; [lia |].
  rewrite He. set (u := inject_Z U) in *. lra.
Qed.

Lemma round_half_even_below (t : Q) (U : Z) :
  t < inject_Z U - (1 # 2) -> (round_half_even t <= U - 1)%Z.
Proof.
  intro H. pose proof (round_half_even_bounds t) as [_ Hb].
  assert (Hf : (Qfloor t <= U - 1)%Z).
  { assert (Hlt : (Qfloor t < U)%Z).
    { rewrite Zlt_Qlt. apply (Qle_lt_trans _ t); [apply Qfloor_le |].
      set (u := inject_Z U) in *. lra. }
    lia. }
  destruct (Z.eq_dec (Qfloor t) (U - 1)) as [He | Hne]; [| lia].
  rewrite round_half_even_down; [lia |].
  rewrite He. unfold Z.sub. rewrite inject_Z_plus. change (inject_Z (- (1))) with (-1).
  set (u := inject_Z U) in *. lra.
Qed.

Ltac push_inject :=
  unfold Z.sub;
  repeat (rewrite inject_Z_mult || rewrite inject_Z_plus);
  change (inject_Z (- (1))) with (-1);
  change (inject_Z 2) with 2; change (inject_Z 1) with 1.
Ltac push_inject_in H :=
  unfold Z.sub in H;
  repeat (rewrite inject_Z_mult in H || rewrite inject_Z_plus in H);
  change (inject_Z (- (1))) with (-1) in H;
  change (inject_Z 2) with 2 in H; change (inject_Z 1) with 1 in H.

Lemma pow2_split (e j : Z) : 2 ^ e * 2 ^ j == 2 ^ (e + j).
Proof. symmetry. apply Qpower_plus. discriminate. Qed.

Lemma Math_round_binary64_div (s n : Z) (x : Q) :
  (0 <= s < 2 ^ 52)%Z -> (0 < n)%Z ->
  x == inject_Z s / inject_Z n ->
  Math_round (binary64 x) = ((2 * s + n) / (2 * n))%Z.
Proof.
  intros [Hs0 Hs] Hn Hx.
  set (k := ((2 * s + n) / (2 * n))%Z).
  pose proof (Z.mul_div_le (2 * s + n) (2 * n) ltac:(lia)) as Hk1.
  pose proof (Z.mul_succ_div_gt (2 * s + n) (2 * n) ltac:(lia)) as Hk2.
  fold k in Hk1, Hk2.
  assert (Hk0 : (0 <= k)%Z) by (apply Z.div_pos; lia).
  assert (HN : 0 < inject_Z n) by (change 0 with (inject_Z 0); rewrite <- Zlt_Qlt; lia).
  unfold Math_round.
  destruct (Z.eq_dec s 0) as [-> | Hne].
  - assert (H0 : Qeq_bool x 0 = true).
    { apply Qeq_bool_iff. rewrite Hx. unfold Qdiv. apply Qmult_0_l. }
    unfold binary64. rewrite H0.
    assert (k = 0)%Z by nia. subst k. rewrite H. reflexivity.
  - (* the inequalities of the quotient, over Q *)
    assert (HS : inject_Z s < 2 ^ 52).
    { rewrite (pow2_Z 52) by lia. rewrite <- Zlt_Qlt. exact Hs. }
    assert (HS1 : 1 <= inject_Z s)
      by (change 1 with (inject_Z 1); rewrite <- Zle_Qle; lia).
    assert (HN1 : 1 <= inject_Z n)
      by (change 1 with (inject_Z 1); rewrite <- Zle_Qle; lia).
    assert (Hq1 : 2 * inject_Z n * inject_Z k <= 2 * inject_Z s + inject_Z n).
    { change 2 with (inject_Z 2). rewrite <- !inject_Z_mult, <- inject_Z_plus.
      rewrite <- Zle_Qle. lia. }
    assert (Hq2 : 2 * inject_Z s + inject_Z n + 1
                    <= 2 * inject_Z n * (inject_Z k + 1)).
    { change 2 with (inject_Z 2). change 1 with (inject_Z 1).
      rewrite <- !inject_Z_plus, <- !inject_Z_mult, <- !inject_Z_plus.
      rewrite <- Zle_Qle. lia. }
    assert (HK0 : 0 <= inject_Z k)
      by (change 0 with (inject_Z 0); rewrite <- Zle_Qle; lia).
    assert (HxN : x * inject_Z n == inject_Z s) by (rewrite Hx; field; lra).
    set (S := inject_Z s) in *. set (N := inject_Z n) in *. set (K := inject_Z k) in *.
    assert (Hx0 : 0 < x) by nra.
    assert (HxS : x < 2 ^ 52) by nra.
    pose proof (ilog2_lt x 52 Hx0 HxS) as He0.
    pose proof (binary64_pos x Hx0) as HB. cbv zeta in HB.
    pose proof (Qabs_pos_eq x Hx0) as Hab.
    assert (Ha : 0 < Qabs x) by (rewrite Hab; exact Hx0).
    destruct (ilog2_spec (Qabs x) Ha) as [Hlo Hhi].
    set (e0 := ilog2 (Qabs x)) in *. rewrite Hab in Hlo, Hhi.
    set (e := Z.max e0 (-1022)) in *.
    set (j := (52 - e)%Z).
    assert (Hj : (1 <= j)%Z) by (unfold j, e; lia).
    replace (e - 52)%Z with (- j)%Z in HB by (unfold j; lia).
    pose proof (pow2_neg j ltac:(lia)) as Hu.
    replace j with (j - 1 + 1)%Z in Hu at 2 by lia.
    rewrite Z.pow_add_r, Z.pow_1_r in Hu by lia.
    set (Jz := (2 ^ (j - 1))%Z) in *.
    assert (HJz : (1 <= Jz)%Z) by (unfold Jz; apply (Z.pow_le_mono_r 2 0); lia).
    assert (HJ1 : 1 <= inject_Z Jz)
      by (change 1 with (inject_Z 1); rewrite <- Zle_Qle; lia).
    rewrite inject_Z_mult in Hu. change (inject_Z 2) with 2 in Hu.
    set (J := inject_Z Jz) in *.
    set (u := 2 ^ (- j)) in *.
    assert (Ht : x / u == 2 * J * x) by (rewrite Hu; field; lra).
    set (t := x / u) in *.
    set (r := round_half_even t) in *.
    (* the two half-integers around the quotient, on the grid of doubles *)
    assert (Hlow : ((2 * k - 1) * Jz <= r)%Z).
    { apply round_half_even_above.
      push_inject. fold K J. rewrite Ht. nra. }
    assert (Hupp : (r <= (2 * k + 1) * Jz - 1)%Z).
    { destruct (Z.le_gt_cases (-1022) e0) as [Hnorm | Hsub].
      - (* a normal double: the spacing [u] is below [1 / n] *)
        assert (Hee : e = e0) by (unfold e; lia).
        assert (Hp : 2 ^ e0 * (2 * J) == 2 ^ 52).
        { assert (H2J : 2 * J == 2 ^ j).
          { rewrite (pow2_Z j) by lia. replace j with (j - 1 + 1)%Z at 1 by lia.
            rewrite Z.pow_add_r, Z.pow_1_r by lia.
            rewrite inject_Z_mult. fold Jz J. change (inject_Z 2) with 2. ring. }
          rewrite H2J, pow2_split. now replace (e0 + j)%Z with 52%Z by (unfold j; lia). }
        pose proof (pow2_pos e0) as He0pos.
        set (E := 2 ^ e0) in *.
        assert (HNJ : N < 2 * J).
        { assert (HNE : N * E <= S) by nra.
          assert (HSE : S < E * (2 * J)) by lra.
          apply Qnot_le_lt. intro Hc. nra. }
        apply round_half_even_below.
        push_inject. fold K J. rewrite Ht.
        (* 2 J x N <= ((2K+1) N - 1) J  and  J / N > 1/2 *)
        assert (H1 : 2 * (x * N) + N + 1 <= 2 * N * (K + 1)) by (rewrite HxN; lra).
        apply Qnot_le_lt. intro Hc.
        assert (A1 : ((2 * K + 1) * J - (1 # 2)) * N <= 2 * J * x * N)
          by (apply Qmult_le_compat_r; lra).
        assert (A2 : (2 * (x * N) + N + 1) * J <= 2 * N * (K + 1) * J)
          by (apply Qmult_le_compat_r; lra).
        lra.
      - (* below the normal range the result is far from any half-integer *)
        assert (He : e = (-1022)%Z) by (unfold e; lia).
        assert (Hjv : j = 1074%Z) by (unfold j; lia).
        assert (Hx1 : x < 2 ^ (-1022)).
        { apply (Qlt_le_trans _ (2 ^ (e0 + 1))); [exact Hhi |].
          apply Qpower_le_compat_l; [lia | discriminate]. }
        assert (Ht52 : t <= inject_Z (2 ^ 52)).
        { rewrite <- (pow2_Z 52) by lia.
          assert (Hm : 2 ^ (-1022) * (2 * J) == 2 ^ 52).
          { assert (H2J : 2 * J == 2 ^ j).
            { rewrite (pow2_Z j) by lia. replace j with (j - 1 + 1)%Z at 1 by lia.
              rewrite Z.pow_add_r, Z.pow_1_r by lia.
              rewrite inject_Z_mult. fold Jz J. change (inject_Z 2) with 2. ring. }
            rewrite H2J, pow2_split. now rewrite Hjv. }
          rewrite Ht. set (P := 2 ^ (-1022)) in *. set (Q52 := 2 ^ 52) in *. nra. }
        pose proof (round_half_even_le t _ Ht52) as Hr. fold r in Hr.
        assert (Hbig : (2 ^ 52 + 1 <= Jz)%Z).
        { unfold Jz. rewrite Hjv.
          apply (Z.le_trans _ (2 ^ 53)); [apply Z.leb_le; reflexivity |].
          apply Z.pow_le_mono_r; lia. }
        nia. }
    (* back to the value *)
    assert (Hlo' : K - (1 # 2) <= inject_Z r * u).
    { rewrite Zle_Qle in Hlow. push_inject_in Hlow.
      fold K J in Hlow. rewrite Hu. set (R := inject_Z r) in *.
      setoid_replace (R * (1 / (J * 2))) with (R / (J * 2)) by (field; lra).
      apply Qle_shift_div_l; [lra |]. lra. }
    assert (Hhi' : inject_Z r * u < K + (1 # 2)).
    { rewrite Zle_Qle in Hupp. push_inject_in Hupp.
      fold K J in Hupp. rewrite Hu. set (R := inject_Z r) in *.
      setoid_replace (R * (1 / (J * 2))) with (R / (J * 2)) by (field; lra).
      apply Qlt_shift_div_r; [lra |]. lra. }
    apply Qfloor_eq.
    + fold K. rewrite HB. lra.
    + rewrite inject_Z_plus. fold K. change (inject_Z 1) with 1. rewrite HB. lra.
Qed.

(** [binary64] against the reference at some inputs: an integer above
    2^53, a sum that is a tie, a quotient that is not a double, and a
    quotient below the normal range. *)
Example binary64_reference :
  SF_value (SF_of_Z 9007199254740993) = Some (binary64 (inject_Z 9007199254740993)) /\
  SF_value (SpecFloat.SFadd 53 1024 (SF_of_Z 9007199254740992) (SF_of_Z 1))
    = Some (Number_add (inject_Z 9007199254740992) 1) /\
  SF_value (SpecFloat.SFadd 53 1024 (SF_of_Z 9007199254740994) (SF_of_Z 1))
    = Some (Number_add (inject_Z 9007199254740994) 1) /\
  SF_value (SpecFloat.SFdiv 53 1024 (SF_of_Z 9007199254740991) (SF_of_Z 7))
    = Some (Number_div (inject_Z 9007199254740991) 7) /\
  SF_value (SpecFloat.SFdiv 53 1024 (SF_of_Z 1) (SF_of_Z 3)) = Some (Number_div 1 3) /\
  SF_value (SpecFloat.SFdiv 53 1024
              (SpecFloat.SFdiv 53 1024 (SF_of_Z 3) (SF_of_Z (2 ^ 1000)))
              (SF_of_Z (2 ^ 75)))
    = Some (Number_div (Number_div 3 (inject_Z (2 ^ 1000))) (inject_Z (2 ^ 75))).
Proof. repeat split; vm_compute; reflexivity. Qed.

(** Adding non-negative integers as doubles is exact as long as the sum
    stays below 2^53. *)
Lemma Number_add_sum (arr : list Z) (acc : Z) :
  Forall (fun b => (0 <= b)%Z) arr ->
  (0 <= acc)%Z ->
  (acc + Zsum arr < 2 ^ 53)%Z ->
  fold_left (fun sum b => Number_add sum (inject_Z b)) arr (inject_Z acc)
    = inject_Z (acc + Zsum arr).
Proof.
  intro Hpos. revert acc.
  induction Hpos as [| b arr Hb Hpos IH]; intros acc Hacc Hsum; cbn [fold_left].
  - unfold Zsum. cbn. now rewrite Z.add_0_r.
  - unfold Zsum in *. cbn [fold_right] in *.
    assert (Hnn : (0 <= fold_right Z.add 0 arr)%Z).
    { clear - Hpos. induction Hpos; cbn; lia. }
    assert (Hstep : Number_add (inject_Z acc) (inject_Z b) = inject_Z (acc + b)).
    { unfold Number_add. apply binary64_int; [| lia].
      rewrite inject_Z_plus. reflexivity. }
    rewrite Hstep, IH by lia. f_equal. lia.
Qed.

End Doubles.

(** *** Validator-balance sampler *)

Section Validators.
Context {E : Env}.

Lemma fold_left_add_Zsum (l : list Z) (a : Z) :
  fold_left Z.add l a = a + Zsum l.
Proof.
  unfold Zsum. revert a. induction l as [| x l IH]; intro a; cbn.
  - lia.
  - rewrite IH. lia.
Qed.

Lemma round_div_nearest (s n : Z) :
  0 < n -> nearest_integer ((2 * s + n) / (2 * n)) s n.
Proof.
  intro Hn. unfold nearest_integer.
  pose proof (Z.mul_div_le (2 * s + n) (2 * n) ltac:(lia)) as Hlo.
  pose proof (Z.mul_succ_div_gt (2 * s + n) (2 * n) ltac:(lia)) as Hhi.
  set (q := (2 * s + n) / (2 * n)) in *.
  nia.
Qed.

Lemma balances_all_present (items : list ValidatorEntry) (bs : list Z) :
  Forall (fun b => 0 <= b) bs ->
  map balance items = map Some bs ->
  filter (fun n => 0 <=? n) (map balance_of items) = bs.
Proof.
  revert bs. induction items as [| v items IH]; intros [| b bs] Hpos Hmap;
    cbn in Hmap; try discriminate; [reflexivity |].
  injection Hmap as Hb Hrest. inversion Hpos as [| ? ? Hb0 Hpos']; subst.
  assert (Hv : balance_of v = b) by (unfold balance_of; now rewrite Hb).
  cbn [map filter]. rewrite Hv.
  destruct (Z.leb_spec 0 b); [| lia].
  f_equal. apply IH; assumption.
Qed.

(** What one call of the sampler does: it never throws, and appends the
    single row [ts_ms, 'any', avgBal] to the validator stream. *)
Lemma sampleValidators_run (st : St) :
  exists st',
    sampleValidators st = (inr tt, st') /\
    written st' = written st ++
      [(VAL_CSV, [CInt (Date_now (world st)); CStr "any";
                  CInt (avgBal_written (fst (beaconGetWithFailover validators_path st)))])].
Proof.
  unfold sampleValidators, validators_path. cbn.
  unfold M_bind, unixMs, now, try_catch. cbn.
  pose proof (keeps_beaconGetWithFailover
                "/eth/v1/beacon/states/head/validators?status=active" st) as Hw.
  destruct (beaconGetWithFailover _ st) as [[e | [j lat]] st1]; cbn in *.
  - eexists. split; [reflexivity |]. cbn. now rewrite Hw.
  - destruct j as [[d |] | [d |] | [| | items] | s [l |] | err res |]; cbn;
      (eexists; split; [reflexivity |]; cbn; now rewrite Hw).
Qed.

Lemma kept_balances_nonneg (items : list ValidatorEntry) :
  Forall (fun b => 0 <= b) (kept_balances items).
Proof.
  unfold kept_balances. apply Forall_forall. intros b Hb.
  apply filter_In in Hb as [_ Hb]. lia.
Qed.

(** The mean as the sampler computes it, in double precision, is the
    integer nearest to the exact mean when the sum of the balances is
    below 2^52. *)
Lemma avgBal_of_nearest (arr : list Z) :
  arr <> [] ->
  Forall (fun b => 0 <= b) arr ->
  Zsum arr < 2 ^ 52 ->
  nearest_integer (avgBal_of arr) (Zsum arr) (Z.of_nat (List.length arr)).
Proof.
  intros Hne Hpos Hsum.
  destruct arr as [| b arr']; [congruence |].
  assert (Hn : 0 < Z.of_nat (List.length (b :: arr'))) by (cbn; lia).
  assert (Hs0 : 0 <= Zsum (b :: arr')).
  { clear - Hpos. unfold Zsum. induction Hpos; cbn; lia. }
  unfold avgBal_of.
  change 0%Q with (inject_Z 0).
  rewrite (Number_add_sum (b :: arr') 0 Hpos) by lia.
  rewrite Z.add_0_l.
  unfold Number_div.
  rewrite (Math_round_binary64_div (Zsum (b :: arr')) _ _ (conj Hs0 Hsum) Hn)
    by reflexivity.
  apply round_div_nearest. exact Hn.
Qed.

(** C8, as the code has it.  The validator-balance sampler writes one
    row whose average is: the sentinel when the failover call fails; the
    sentinel when no balance is kept of the fetched validator set, in
    particular when the set is empty; and otherwise the mean of the kept
    balances as double-precision arithmetic computes it, which is the
    integer nearest to the arithmetic mean whenever the sum of the
    balances is below 2^52.  When every fetched validator carries a
    non-negative balance, the kept balances are these. *)
Theorem sampleValidators_mean (st : St) :
  exists avg st',
    sampleValidators st = (inr tt, st') /\
    written st' = written st ++
      [(VAL_CSV, [CInt (Date_now (world st)); CStr "any"; CInt avg])] /\
    match fst (beaconGetWithFailover validators_path st) with
    | inl _ => avg = MISSING
    | inr (JValidators (Arr items), _) =>
        (items = [] -> avg = MISSING) /\
        (kept_balances items = [] -> avg = MISSING) /\
        (kept_balances items <> [] ->
         Zsum (kept_balances items) < 2 ^ 52 ->
         nearest_integer avg (Zsum (kept_balances items))
           (Z.of_nat (List.length (kept_balances items)))) /\
        (forall bs,
            bs <> [] ->
            Forall (fun b => 0 <= b) bs ->
            map balance items = map Some bs ->
            Zsum bs < 2 ^ 52 ->
            nearest_integer avg (Zsum bs) (Z.of_nat (List.length bs)))
    | inr _ => avg = MISSING
    end.
Proof.
  destruct (sampleValidators_run st) as [st' [Hrun Hw]].
  exists (avgBal_written (fst (beaconGetWithFailover validators_path st))), st'.
  split; [exact Hrun |]. split; [exact Hw |].
  destruct (fst (beaconGetWithFailover validators_path st)) as [e | [j lat]];
    [reflexivity |].
  destruct j as [d | d | [| | items] | s d | err res |]; try reflexivity.
  cbn [avgBal_written]. fold (kept_balances items).
  split; [| split; [| split]].
  - intros ->. reflexivity.
  - intros ->. reflexivity.
  - intros Hne Hsum.
    exact (avgBal_of_nearest _ Hne (kept_balances_nonneg items) Hsum).
  - intros bs Hne Hpos Hmap Hsum.
    unfold kept_balances. rewrite (balances_all_present items bs Hpos Hmap).
    exact (avgBal_of_nearest bs Hne Hpos Hsum).
Qed.

(** C10. In the row the validator-balance sampler emits, whatever
    the world answers and whichever endpoint served the data, the
    [source_container] column is the constant ['any']. *)
Theorem sampleValidators_source_any (st : St) :
  exists ts avg,
    written (snd (sampleValidators st))
      = written st ++ [(VAL_CSV, [CInt ts; CStr "any"; CInt avg])].
Proof.
  destruct (sampleValidators_run st) as [st' [Hrun Hw]].
  rewrite Hrun. cbn. eauto.
Qed.

End Validators.

(** *** Running a sampler step by step *)

Section Steps.
Context {E : Env}.

Lemma bind_inr {A B : Type} (m : M A) (k : A -> M B) (st : St) (a : A) (st1 : St) :
  m st = (inr a, st1) -> bind m k st = k a st1.
Proof. intro H. cbn. unfold M_bind. now rewrite H. Qed.

Lemma bind_run {A B : Type} (m : M A) (k : A -> M B) (st : St)
    (r : exn + A) (st1 : St) :
  m st = (r, st1) ->
  bind m k st = match r with
                | inl e => (inl e, st1)
                | inr a => k a st1
                end.
Proof. intro H. cbn. unfold M_bind. now rewrite H. Qed.

(** A [try] block whose [catch] only supplies a default never throws and
    appends nothing if its body appends nothing. *)
Lemma try_catch_default_run {A : Type} (m : M A) (d : A) (st : St) :
  keeps_written m ->
  exists v st',
    try_catch m (fun _ => ret d) st = (inr v, st') /\
    written st' = written st.
Proof.
  intro Hm. unfold try_catch. specialize (Hm st).
  destruct (m st) as [[e | a] st1]; cbn in *.
  - exists d, st1. split; [reflexivity | exact Hm].
  - exists a, st1. split; [reflexivity | exact Hm].
Qed.

Lemma keeps_headSlot_of (j : Json) : keeps_written (headSlot_of j).
Proof. destruct j as [[d |] | | | | |]; intro st; reflexivity. Qed.

Lemma keeps_checkpoints_of (j : Json) : keeps_written (checkpoints_of j).
Proof. destruct j as [| [d |] | | | |]; intro st; reflexivity. Qed.

Lemma keeps_balances_of (j : Json) : keeps_written (balances_of j).
Proof.
  destruct j as [[d |] | [d |] | [| | items] | s [l |] | err res |];
    intro st; reflexivity.
Qed.

Lemma queryPrometheus_run (q : string) (st : St) :
  exists l st',
    queryPrometheus q st = (inr l, st') /\ written st' = written st.
Proof.
  unfold queryPrometheus. apply try_catch_default_run. auto 20 with frame.
Qed.

(** In a world that serves only elements with their value, so are the
    elements a query returns. *)
Lemma queryPrometheus_valued (q : string) (st : St) (l : list PromEntry) (st' : St) :
  serves_values ->
  queryPrometheus q st = (inr l, st') ->
  forallb carries_value l = true.
Proof.
  intros Hserved. unfold queryPrometheus, try_catch. cbn. unfold M_bind, do_fetch.
  pose proof (Hserved (GET (PROMETHEUS_URL ++ "/api/v1/query?query="
                              ++ encodeURIComponent q)%string) (world st)) as Hs.
  destruct (fetch _ (world st)) as [[e | res] w]; cbn in *.
  - intro H. injection H as <- _. reflexivity.
  - specialize (Hs res). destruct (ok res); cbn.
    + destruct (json res) as [e | j]; cbn.
      * intro H. injection H as <- _. reflexivity.
      * destruct j as [d | d | d | status [l0 |] | err r |]; cbn;
          try (intro H; injection H as <- _; reflexivity);
          destruct (String.eqb status "success"); cbn;
          intro H; injection H as <- _; try reflexivity.
        exact (Hs status l0 eq_refl eq_refl).
    + intro H. injection H as <- _. reflexivity.
Qed.

Lemma countStatus_run (statuses : string) (st : St) :
  exists n st',
    countStatus statuses st = (inr n, st') /\ written st' = written st.
Proof.
  unfold countStatus. apply try_catch_default_run.
  apply keeps_bind; [apply keeps_beaconGetWithFailover | intro; apply keeps_ret].
Qed.

(** The participation rate is read off the one query it makes; the
    read throws when the first element served has no value. *)
Lemma getParticipationRate_run (st : St) :
  exists res st',
    queryPrometheus "beacon_head_participation" st = (inr res, st') /\
    getParticipationRate st = (participation_of res, st') /\
    written st' = written st.
Proof.
  unfold getParticipationRate.
  destruct (queryPrometheus_run "beacon_head_participation" st)
    as (l & st1 & Hq & Hw).
  rewrite (bind_inr _ _ _ _ _ Hq).
  exists l, st1. split; [exact Hq |]. split; [| exact Hw].
  destruct l as [| [r | i] l]; reflexivity.
Qed.

End Steps.

#[export] Hint Resolve keeps_beaconGet keeps_failover_loop
  keeps_beaconGetWithFailover keeps_queryPrometheus keeps_headSlot_of
  keeps_checkpoints_of keeps_balances_of : frame.

(** One step of a run: a [try] block with a default, then the rest. *)
Ltac step_try :=
  match goal with
  | |- context [bind (try_catch ?m (fun _ => ret ?d)) ?k ?s] =>
      let v := fresh "v" in
      let s' := fresh "st" in
      let H := fresh "Hrun" in
      let W := fresh "Hw" in
      destruct (try_catch_default_run m d s ltac:(auto 20 with frame))
        as (v & s' & H & W);
      rewrite (bind_inr _ k s v s' H)
  end.

(** One step of a run: a call known to return, then the rest. *)
Ltac step_with lem :=
  match goal with
  | |- context [bind ?m ?k ?s] =>
      let v := fresh "v" in
      let s' := fresh "st" in
      let H := fresh "Hrun" in
      let W := fresh "Hw" in
      destruct (lem s) as (v & s' & H & W);
      rewrite (bind_inr m k s v s' H)
  end.

(** *** Network sampler *)

Section Network.
Context {E : Env}.

(** What one call of the network sampler does.  It makes its six
    failover calls, none of which can make it throw, and then asks for the
    participation rate in some state [st_q]; if that read throws, the
    sampler throws and appends nothing; otherwise it appends one row,
    whose derived columns are computed from its head slot, finalized
    epoch and bucket counts. *)
Lemma sampleNetwork_run (st : St) :
  exists headSlot justEpoch finEpoch cPendInit cPendQueue cActOngo cActExit
         st_q res st_r,
    written st_q = written st /\
    queryPrometheus "beacon_head_participation" st_q = (inr res, st_r) /\
    written st_r = written st /\
    match participation_of res with
    | inl e => sampleNetwork st = (inl e, st_r)
    | inr rate =>
        exists st',
          sampleNetwork st = (inr tt, st') /\
          written st' = written st ++
            [(NET_CSV,
              [CInt (Date_now (world st));
               CInt headSlot; CInt (curEpoch_of headSlot); CInt justEpoch;
               CInt finEpoch;
               CInt (finGapSlots_of headSlot (finSlot_of finEpoch));
               CInt (finGapEpochs_of (curEpoch_of headSlot) finEpoch);
               CInt (total_of [cPendInit; cPendQueue; cActOngo; cActExit]);
               CInt (activationQueueLen_of cPendInit cPendQueue);
               CInt cActExit; CInt cActOngo; CNum rate])]
    end.
Proof.
  unfold sampleNetwork, unixMs.
  rewrite (bind_inr now _ st (Date_now (world st)) st eq_refl).
  step_try. rename v into headSlot.
  step_try. destruct v as [justEpoch finEpoch].
  step_with (countStatus_run "pending_initialized").
  step_with (countStatus_run "pending_queued").
  step_with (countStatus_run "active_ongoing").
  step_with (countStatus_run "active_exiting").
  match goal with
  | |- context [bind getParticipationRate ?k ?s] =>
      destruct (getParticipationRate_run s) as (res & st_r & Hq & Hrate & Hwr);
      rewrite (bind_run getParticipationRate k s _ _ Hrate);
      assert (Hwq : written s = written st) by congruence;
      exists headSlot, justEpoch, finEpoch, v, v0, v1, v2, s, res, st_r
  end.
  split; [exact Hwq |]. split; [exact Hq |]. split; [congruence |].
  destruct (participation_of res) as [e | rate]; [reflexivity |].
  eexists. split; [reflexivity |]. cbn. rewrite Hwr, Hwq. reflexivity.
Qed.

End Network.

Section Finality.
Context {E : Env}.





End Finality.

Section Buckets.
Context {E : Env}.

(** The total is the sum of the buckets that were counted, except that a
    sum of zero is replaced by the sentinel. *)
Lemma total_of_sum (counts : list Z) :
  total_of counts =
    if Zsum (succeeded counts) =? 0 then MISSING else Zsum (succeeded counts).
Proof.
  unfold total_of, or_num, succeeded.
  rewrite fold_left_add_Zsum, Z.add_0_l. reflexivity.
Qed.

(** A positive sum of counted buckets is written as it is. *)
Lemma total_of_positive (counts : list Z) :
  0 < Zsum (succeeded counts) -> total_of counts = Zsum (succeeded counts).
Proof.
  intro H. rewrite total_of_sum.
  destruct (Z.eqb_spec (Zsum (succeeded counts)) 0); [lia | reflexivity].
Qed.

(** The activation queue is the sum of the two pending buckets when both
    were counted, and the sentinel otherwise. *)
Lemma activationQueueLen_of_spec (cPendInit cPendQueue : Z) :
  (0 <= cPendInit -> 0 <= cPendQueue ->
     activationQueueLen_of cPendInit cPendQueue = cPendInit + cPendQueue) /\
  (cPendInit < 0 \/ cPendQueue < 0 ->
     activationQueueLen_of cPendInit cPendQueue = MISSING).
Proof.
  unfold activationQueueLen_of.
  destruct (Z.leb_spec 0 cPendInit), (Z.leb_spec 0 cPendQueue);
    split; intros; cbn; try reflexivity; lia.
Qed.

(** The spec's totaling example: buckets 5, failed, 10 and 2 give the
    total 17 and no activation-queue length. *)
Example bucket_totaling_example :
  total_of [5; MISSING; 10; 2] = 17 /\
  activationQueueLen_of 5 MISSING = MISSING.
Proof. split; reflexivity. Qed.

End Buckets.

(** *** Instance reconciler and performance sampler *)

Section Reconciler.
Context {E : Env}.

Lemma get_set_same {V : Type} (k : string) (v : V) (o : object V) :
  Js.get k (Js.set k v o) = Some v.
Proof.
  induction o as [| [k' v'] o IH]; cbn.
  - now rewrite String.eqb_refl.
  - destruct (String.eqb k k') eqn:Hk; cbn; rewrite Hk; [reflexivity | exact IH].
Qed.

Lemma set_keys_present {V : Type} (k : string) (v v' : V) (o : object V) :
  Js.get k o = Some v -> Js.keys (Js.set k v' o) = Js.keys o.
Proof.
  unfold Js.keys. induction o as [| [k0 v0] o IH]; cbn; [discriminate |].
  destruct (String.eqb k k0); cbn; intro H; [reflexivity |].
  f_equal. apply IH. exact H.
Qed.

Lemma update_point_keys (key : MetricKey) (data : object PerfRecord) (r : PromSample) :
  Js.keys (update_point key data r) = Js.keys data.
Proof.
  unfold update_point.
  destruct (Js.get (getContainer r) data) as [rec |] eqn:Hget; [| reflexivity].
  exact (set_keys_present _ _ _ _ Hget).
Qed.

(** [update] never adds or removes a record: the identities of the
    output are those [data] had. *)
Lemma update_keys (res : list PromSample) (key : MetricKey) (data : object PerfRecord) :
  Js.keys (update res key data) = Js.keys data.
Proof.
  unfold update. revert data.
  induction res as [| r res IH]; intro data; cbn [fold_left]; [reflexivity |].
  rewrite IH. apply update_point_keys.
Qed.

(** The records the sampler starts from are those of the six expected
    containers, all columns missing. *)
Lemma init_data_expected :
  init_data = map (fun c => (c, missing_record)) expectedContainers.
Proof. reflexivity. Qed.

(** C3, as the code has it.  A sample whose instance label has no entry
    in [PROM_INSTANCE_MAP] is given its raw label as identity.  It is
    merged only when [data] already holds a record under that identity
    (the column is then overwritten with the sample's value); otherwise
    [update] leaves [data] as it was, and the sample is dropped.  In no
    case does [update] add an identity to the output. *)
Theorem update_unmapped_sample
    (key : MetricKey) (data : object PerfRecord) (r : PromSample) :
  Js.get (metric_instance r) PROM_INSTANCE_MAP = None ->
  getContainer r = metric_instance r /\
  (forall rec,
      Js.get (metric_instance r) data = Some rec ->
      Js.get (metric_instance r) (update [r] key data)
        = Some (set_metric key (value1 r) rec)) /\
  (Js.get (metric_instance r) data = None -> update [r] key data = data) /\
  (forall res, Js.keys (update res key data) = Js.keys data).
Proof.
  intro Hmap.
  assert (Hc : getContainer r = metric_instance r).
  { unfold getContainer. now rewrite Hmap. }
  split; [exact Hc |]. split; [| split].
  - intros rec Hget. cbn. unfold update_point. rewrite Hc, Hget.
    apply get_set_same.
  - intro Hget. cbn. unfold update_point. rewrite Hc, Hget. reflexivity.
  - intro res. apply update_keys.
Qed.

(** The row-writing loop, were it reached with the initial records: one
    row per expected container, every metric column the sentinel. *)
Lemma write_rows_init_data (ts_ms : Z) (st : St) :
  written (snd (write_rows ts_ms init_data st)) = written st ++
    map (fun c => (PERF_CL_CSV,
                   CInt ts_ms :: CStr c :: repeat (CNum MISSING_Q) 9))
        ["prysm-1"; "prysm-2"; "prysm-3"]
    ++ map (fun c => (PERF_EL_CSV,
                      CInt ts_ms :: CStr c :: repeat (CNum MISSING_Q) 6))
           ["geth-1"; "geth-2"; "geth-3"].
Proof. cbn. rewrite <- !app_assoc. reflexivity. Qed.

(** On elements that all carry their value, the [forEach] is the merge
    of the samples. *)
Lemma update_entries_samples (l : list PromSample) (key : MetricKey)
    (data : object PerfRecord) :
  update_entries (map Sample l) key data = inr (update l key data).
Proof.
  unfold update. revert data.
  induction l as [| r l IH]; intro data; cbn [map update_entries fold_left];
    [reflexivity |].
  cbn [update_entry]. apply IH.
Qed.

Lemma update_entries_valued (res : list PromEntry) (key : MetricKey)
    (data : object PerfRecord) :
  forallb carries_value res = true ->
  exists data', update_entries res key data = inr data'.
Proof.
  revert data. induction res as [| [r | i] res IH]; intros data H; cbn in H |- *.
  - eexists. reflexivity.
  - apply IH. exact H.
  - discriminate H.
Qed.

(** The only error of a merge is the read of a value that is not there. *)
Lemma update_entries_error (res : list PromEntry) (key : MetricKey)
    (data : object PerfRecord) (e : exn) :
  update_entries res key data = inl e -> e = no_value.
Proof.
  revert data. induction res as [| [r | i] res IH]; intros data; cbn.
  - discriminate.
  - apply IH.
  - destruct (Js.get _ data); [| apply IH].
    intro H. now injection H as <-.
Qed.

Lemma Promise_all_queries (qs : list string) (st : St) :
  exists vs st',
    Promise_all (map queryPrometheus qs) st = (inr vs, st') /\
    written st' = written st /\
    List.length vs = List.length qs /\
    (serves_values -> Forall (fun l => forallb carries_value l = true) vs).
Proof.
  revert st. induction qs as [| q qs IH]; intro st; cbn [map Promise_all].
  - exists [], st. repeat split. intros _. constructor.
  - destruct (queryPrometheus_run q st) as (v & st1 & Hq & Hw1).
    rewrite (bind_inr _ _ _ _ _ Hq).
    destruct (IH st1) as (vs & st2 & Hall & Hw2 & Hlen & Hval).
    rewrite (bind_inr _ _ _ _ _ Hall).
    exists (v :: vs), st2. cbn.
    split; [reflexivity |]. split; [congruence |]. split; [now rewrite Hlen |].
    intro Hserved. constructor; [| exact (Hval Hserved)].
    exact (queryPrometheus_valued _ _ _ _ Hserved Hq).
Qed.

(** One merge of the performance sampler: it throws, or goes on. *)
Ltac merge_step :=
  match goal with
  | |- context [update_entries ?r ?k ?d] =>
      let e := fresh "e" in
      let d' := fresh "d" in
      let H := fresh "Hm" in
      destruct (update_entries r k d) as [e | d'] eqn:H;
      [ exists e; split; [reflexivity |]; split;
        [ right; exact (update_entries_error _ _ _ _ H)
        | intro Hv; exfalso;
          repeat match goal with
                 | Hf : Forall _ (_ :: _) |- _ =>
                     apply Forall_cons_iff in Hf; destruct Hf as [? Hf]
                 end;
          cbv beta in *;
          match goal with
          | Hl : forallb carries_value r = true |- _ =>
              destruct (update_entries_valued r k d Hl) as [? Hok];
              rewrite Hok in H; discriminate H
          end ]
      | cbn -[update_entries init_data] ]
  end.

(** Once the nine queries have returned, the sampler throws in the state
    they left: in one of the seven merges that come first, on an element
    without value, or else on reading [res8], which the destructuring
    pattern does not declare. *)
Lemma samplePerfMetrics_after_queries (st : St) (vs : list (list PromEntry))
    (st1 : St) :
  Promise_all (map queryPrometheus perf_queries) st = (inr vs, st1) ->
  List.length vs = List.length perf_queries ->
  exists e,
    samplePerfMetrics st = (inl e, st1) /\
    (e = ReferenceError "res8 is not defined" \/ e = no_value) /\
    (Forall (fun l => forallb carries_value l = true) vs ->
     e = ReferenceError "res8 is not defined").
Proof.
  intros Hall Hlen. unfold samplePerfMetrics, unixMs.
  rewrite (bind_inr now _ st (Date_now (world st)) st eq_refl).
  rewrite (bind_inr _ _ _ _ _ Hall).
  do 9 (destruct vs as [| ? vs]; [discriminate Hlen |]).
  destruct vs; [| discriminate Hlen].
  cbn -[update_entries init_data]. unfold M_bind.
  cbn -[update_entries init_data].
  do 7 merge_step.
  eexists. split; [reflexivity |]. split; [left; reflexivity |].
  intros _. reflexivity.
Qed.

(** C1, on the code.  Whatever the backend answers, a call of
    [samplePerfMetrics] throws before the row-writing loop, so that it
    appends no row to any stream.  What it throws is the ReferenceError
    raised by reading [res8], which the destructuring pattern does not
    declare, unless one of the seven merges before that read meets an
    element without value and throws a TypeError; in a world that serves
    only elements with their value it is always the ReferenceError. *)
Theorem samplePerfMetrics_throws (st : St) :
  exists e st',
    samplePerfMetrics st = (inl e, st') /\
    written st' = written st /\
    (e = ReferenceError "res8 is not defined" \/ e = no_value) /\
    (serves_values -> e = ReferenceError "res8 is not defined").
Proof.
  destruct (Promise_all_queries perf_queries st)
    as (vs & st1 & Hall & Hw & Hlen & Hval).
  destruct (samplePerfMetrics_after_queries st vs st1 Hall Hlen)
    as (e & Hrun & Hkind & Hwell).
  exists e, st1. split; [exact Hrun |]. split; [exact Hw |].
  split; [exact Hkind |].
  intro Hserved. exact (Hwell (Hval Hserved)).
Qed.

End Reconciler.

(** *** Cadence loop *)

Section Cadence.
Context {E : Env}.

Lemma Promise_allSettled_settles {A : Type} (ps : list (M A)) (st : St) :
  exists ss st',
    Promise_allSettled ps st = (inr ss, st') /\ settles ps st ss st'.
Proof.
  revert st. induction ps as [| p ps IH]; intro st; cbn [Promise_allSettled].
  - exists [], st. split; [reflexivity | constructor].
  - destruct (p st) as [[e | v] st1] eqn:Hp.
    + destruct (IH st1) as (ss & st2 & Hrest & Hs).
      exists (Rejected e :: ss), st2. split.
      * cbn. unfold M_bind, try_catch. cbn. unfold M_bind. rewrite Hp. cbn.
        rewrite Hrest. reflexivity.
      * eapply settles_rejected; eassumption.
    + destruct (IH st1) as (ss & st2 & Hrest & Hs).
      exists (Fulfilled v :: ss), st2. split.
      * cbn. unfold M_bind, try_catch. cbn. unfold M_bind. rewrite Hp. cbn.
        rewrite Hrest. reflexivity.
      * eapply settles_fulfilled; eassumption.
Qed.

Lemma run_samplers_run (st : St) :
  exists ss st',
    run_samplers st = (inr ss, st') /\ settles tick_samplers st ss st'.
Proof. apply Promise_allSettled_settles. Qed.

Lemma loop_condition_run (endAt : option Z) (st : St) :
  exists c, loop_condition endAt st = (inr c, st).
Proof.
  unfold loop_condition. cbn. unfold M_bind, read_stop, now. cbn.
  destruct (signalled (world st)); cbn; eexists; reflexivity.
Qed.

(** One iteration: it never throws, moves the deadline by one period, and
    sleeps only for a positive delay. *)
Lemma loop_body_run (nextAt : Z) (st : St) :
  exists ss st1,
    run_samplers st = (inr ss, st1) /\
    loop_body nextAt st
      = (inr (nextAt + INTERVAL_MS),
         if 0 <? delay_after nextAt st1
         then snd (sleep (delay_after nextAt st1) st1)
         else st1).
Proof.
  destruct (run_samplers_run st) as (ss & st1 & Hrun & _).
  exists ss, st1. split; [exact Hrun |].
  unfold loop_body. rewrite (bind_inr _ _ _ _ _ Hrun).
  rewrite (bind_inr now _ st1 (Date_now (world st1)) st1 eq_refl).
  fold (delay_after nextAt st1).
  destruct (0 <? delay_after nextAt st1); reflexivity.
Qed.

Lemma main_loop_run (fuel : nat) (endAt : option Z) (nextAt : Z) (st : St) :
  exists r st', main_loop fuel endAt nextAt st = (inr r, st').
Proof.
  revert nextAt st. induction fuel as [| fuel IH]; intros nextAt st;
    cbn [main_loop].
  - eexists _, _. reflexivity.
  - destruct (loop_condition_run endAt st) as [c Hc].
    rewrite (bind_inr _ _ _ _ _ Hc). destruct c.
    + destruct (loop_body_run nextAt st) as (ss & st1 & _ & Hbody).
      rewrite (bind_inr _ _ _ _ _ Hbody). apply IH.
    + eexists _, _. reflexivity.
Qed.

Lemma main_loop_deadline (fuel : nat) (endAt : option Z) (nextAt : Z)
    (st : St) (n : Z) (st' : St) :
  main_loop fuel endAt nextAt st = (inr (OutOfFuel n), st') ->
  n = nextAt + Z.of_nat fuel * INTERVAL_MS.
Proof.
  revert nextAt st. induction fuel as [| fuel IH]; intros nextAt st;
    cbn [main_loop].
  - intro H. injection H as H _. subst. cbn. lia.
  - destruct (loop_condition_run endAt st) as [c Hc].
    rewrite (bind_inr _ _ _ _ _ Hc). destruct c.
    + destruct (loop_body_run nextAt st) as (ss & st1 & _ & Hbody).
      rewrite (bind_inr _ _ _ _ _ Hbody). intro H.
      apply IH in H. lia.
    + intro H. discriminate H.
Qed.

(** Without a signal and without a duration budget the loop runs every
    iteration it is given. *)
Lemma main_loop_keeps_running (fuel : nat) (nextAt : Z) (st : St) :
  (forall w, signalled w = false) ->
  exists st',
    main_loop fuel None nextAt st
      = (inr (OutOfFuel (nextAt + Z.of_nat fuel * INTERVAL_MS)), st').
Proof.
  intro Hsig. revert nextAt st.
  induction fuel as [| fuel IH]; intros nextAt st; cbn [main_loop].
  - exists st. cbn. rewrite Z.add_0_r. reflexivity.
  - assert (Hc : loop_condition None st = (inr true, st)).
    { unfold loop_condition. cbn. unfold M_bind, read_stop, now. cbn.
      now rewrite Hsig. }
    rewrite (bind_inr _ _ _ _ _ Hc).
    destruct (loop_body_run nextAt st) as (ss & st1 & _ & Hbody).
    rewrite (bind_inr _ _ _ _ _ Hbody).
    destruct (IH (nextAt + INTERVAL_MS)
                 (if 0 <? delay_after nextAt st1
                  then snd (sleep (delay_after nextAt st1) st1) else st1))
      as [st' H].
    exists st'. rewrite H. do 3 f_equal. lia.
Qed.

End Cadence.

Section Schedule.
Context {E : Env}.

(** A run that has used up its [k] iterations is at the head of the
    loop: with more iterations allowed it goes on from there. *)
Lemma main_loop_resume (k fuel : nat) (endAt : option Z) (n0 : Z) (st0 : St)
    (nextAt : Z) (st : St) :
  main_loop k endAt n0 st0 = (inr (OutOfFuel nextAt), st) ->
  main_loop (k + fuel) endAt n0 st0 = main_loop fuel endAt nextAt st.
Proof.
  revert n0 st0. induction k as [| k IH]; intros n0 st0; cbn [main_loop Nat.add].
  - intro H. injection H as -> ->. reflexivity.
  - destruct (loop_condition_run endAt st0) as [c Hc].
    rewrite !(bind_inr _ _ _ _ _ Hc). destruct c; [| discriminate].
    destruct (loop_body_run n0 st0) as (ss & st1 & _ & Hbody).
    rewrite !(bind_inr _ _ _ _ _ Hbody). apply IH.
Qed.

(** [main] writes the five headers and enters the loop with
    [nextAt = Date.now()]. *)
Lemma main_enters_loop (fuel : nat) (st : St) :
  main fuel st =
    main_loop fuel
      (if 0 <? DURATION_SEC
       then Some (Date_now (world st) + DURATION_SEC * 1000) else None)
      (Date_now (world (snd (initCsvFiles st))))
      (snd (initCsvFiles st)).
Proof. reflexivity. Qed.

(** After an iteration the clock has reached the new deadline, provided a
    timer does not fire early. *)
Lemma loop_body_on_time (nextAt : Z) (st : St) :
  (forall ms w, Date_now w + ms <= Date_now (setTimeout ms w)) ->
  nextAt + INTERVAL_MS <= Date_now (world (snd (loop_body nextAt st))).
Proof.
  intro Htimer.
  destruct (loop_body_run nextAt st) as (ss & st1 & _ & Hbody).
  rewrite Hbody. cbn [snd].
  destruct (Z.ltb_spec 0 (delay_after nextAt st1)) as [Hd | Hd].
  - cbn. specialize (Htimer (delay_after nextAt st1) (world st1)).
    unfold delay_after in *. lia.
  - unfold delay_after in Hd. lia.
Qed.

(** Every head of the loop is reached at or after its deadline, provided
    a timer does not fire early. *)
Lemma main_loop_on_time (k : nat) (endAt : option Z) (n0 : Z) (st0 : St)
    (nextAt : Z) (st : St) :
  (forall ms w, Date_now w + ms <= Date_now (setTimeout ms w)) ->
  n0 <= Date_now (world st0) ->
  main_loop k endAt n0 st0 = (inr (OutOfFuel nextAt), st) ->
  nextAt <= Date_now (world st).
Proof.
  intro Htimer. revert n0 st0.
  induction k as [| k IH]; intros n0 st0 Hon; cbn [main_loop].
  - intro H. injection H as <- <-. exact Hon.
  - destruct (loop_condition_run endAt st0) as [c Hc].
    rewrite (bind_inr _ _ _ _ _ Hc). destruct c; [| discriminate].
    pose proof (loop_body_on_time n0 st0 Htimer) as Hnext.
    destruct (loop_body_run n0 st0) as (ss & st1 & _ & Hbody).
    rewrite Hbody in Hnext. cbn [snd] in Hnext.
    rewrite (bind_inr _ _ _ _ _ Hbody). apply IH. exact Hnext.
Qed.

(** C7. Let [main], started in [init], be back at the head of its loop
    after [k] complete iterations, with deadline [nextAt] in state [st],
    and let timers not fire early.  Then the deadline is the time of the
    start plus [k] periods, whatever the ticks took, and the tick begins
    at or after it; a longer run goes on from this head; and if the loop
    goes on, the next head is reached with the deadline moved by exactly
    one period, after a sleep of [max(0, deadline - now)]: when the
    tick's processing took longer than one period the delay is zero,
    nothing is slept, and the next tick begins in the state in which the
    samplers settled. *)
Theorem deadline_anchored (init : St) (k : nat) (nextAt : Z) (st : St) :
  (forall ms w, Date_now w + ms <= Date_now (setTimeout ms w)) ->
  main k init = (inr (OutOfFuel nextAt), st) ->
  nextAt = Date_now (world init) + Z.of_nat k * INTERVAL_MS /\
  nextAt <= Date_now (world st) /\
  (forall fuel,
      main (k + fuel) init = main_loop fuel (endAt_of init) nextAt st) /\
  exists ss st1,
    run_samplers st = (inr ss, st1) /\
    (loop_condition (endAt_of init) st = (inr true, st) ->
     main (S k) init
       = (inr (OutOfFuel (nextAt + INTERVAL_MS)), after_delay nextAt st1)) /\
    (INTERVAL_MS < Date_now (world st1) - Date_now (world st) ->
     delay_after nextAt st1 = 0 /\ after_delay nextAt st1 = st1).
Proof.
  intros Htimer Hrun. rewrite main_enters_loop in Hrun. fold (endAt_of init) in Hrun.
  assert (Hstart : Date_now (world (snd (initCsvFiles init))) = Date_now (world init))
    by reflexivity.
  pose proof (main_loop_deadline _ _ _ _ _ _ Hrun) as Hn. rewrite Hstart in Hn.
  pose proof (main_loop_on_time _ _ _ _ _ _ Htimer (Z.le_refl _) Hrun) as Hon.
  assert (Hgo : forall fuel,
             main (k + fuel) init = main_loop fuel (endAt_of init) nextAt st).
  { intro fuel. rewrite main_enters_loop. fold (endAt_of init).
    apply main_loop_resume. exact Hrun. }
  split; [exact Hn |]. split; [exact Hon |]. split; [exact Hgo |].
  destruct (loop_body_run nextAt st) as (ss & st1 & Hticks & Hbody).
  fold (after_delay nextAt st1) in Hbody.
  exists ss, st1. split; [exact Hticks |]. split.
  - intro Hc. replace (S k) with (k + 1)%nat by lia. rewrite Hgo.
    cbn [main_loop].
    rewrite (bind_inr _ _ _ _ _ Hc), (bind_inr _ _ _ _ _ Hbody). reflexivity.
  - intro Hover.
    assert (Hd : delay_after nextAt st1 = 0) by (unfold delay_after; lia).
    split; [exact Hd |]. unfold after_delay. now rewrite Hd.
Qed.

(** C9. The samplers of a tick are all run to their end, each
    outcome recorded, whether it returned or threw; neither an iteration
    nor the loop nor [main] ever throws, whatever the world answers; and
    as long as no signal arrives and no duration budget is set, the loop
    runs every iteration it is given. *)
Theorem sampler_failures_never_fatal :
  (forall st, exists ss st',
      run_samplers st = (inr ss, st') /\ settles tick_samplers st ss st') /\
  (forall nextAt st, exists st',
      loop_body nextAt st = (inr (nextAt + INTERVAL_MS), st')) /\
  (forall fuel endAt nextAt st, exists r st',
      main_loop fuel endAt nextAt st = (inr r, st')) /\
  (forall fuel st, exists r st', main fuel st = (inr r, st')) /\
  (forall fuel nextAt st,
      (forall w, signalled w = false) ->
      exists st',
        main_loop fuel None nextAt st
          = (inr (OutOfFuel (nextAt + Z.of_nat fuel * INTERVAL_MS)), st')).
Proof.
  split; [exact run_samplers_run |].
  split.
  { intros nextAt st.
    destruct (loop_body_run nextAt st) as (ss & st1 & _ & Hbody).
    eexists. exact Hbody. }
  split; [exact main_loop_run |].
  split; [| exact main_loop_keeps_running].
  intros fuel st. unfold main, initCsvFiles.
  cbn. unfold M_bind, appendCsvRow, now. cbn.
  apply main_loop_run.
Qed.

End Schedule.

(** ** Scenarios

    The theorems above, applied to scripted worlds. *)

Section Scenarios.
Import Scripted.

(** With every endpoint refusing connections, the three consensus
    endpoints fail one after the other. *)
Lemma all_down_all_fail :
  @all_fail (env all_down) head_path default_cl (start all_down 0)
    {| world := (3 : @World (env all_down)); written := [];
       trace := map (beacon_url head_path) default_cl |}.
Proof.
  eapply all_fail_cons; [vm_compute; reflexivity |].
  eapply all_fail_cons; [vm_compute; reflexivity |].
  eapply all_fail_cons; [vm_compute; reflexivity |].
  apply all_fail_nil.
Qed.

(** C4, on endpoints [A, B, C] where [A] answers HTTP 500 and [B]
    serves the head: the resolver returns what [B] served, and only [A]
    and [B] were asked. *)
Lemma failover_first_success_witness :
  @beaconGetWithFailover (env second_serves) head_path (start second_serves 0)
    = (inr (JHeader (Some {| header_message_slot := Some 100; data_slot := None |}), 5),
       {| world := (10 : @World (env second_serves)); written := [];
          trace := ["http://prysm:3500/eth/v1/beacon/headers/head";
                    "http://prysm-2:3500/eth/v1/beacon/headers/head"] |}) /\
  trace {| world := (10 : @World (env second_serves)); written := [];
           trace := ["http://prysm:3500/eth/v1/beacon/headers/head";
                     "http://prysm-2:3500/eth/v1/beacon/headers/head"] |}
    = ["http://prysm:3500/eth/v1/beacon/headers/head";
       "http://prysm-2:3500/eth/v1/beacon/headers/head"].
Proof.
  apply (@failover_first_success (env second_serves)
           ["http://prysm:3500"] "http://prysm-2:3500" ["http://prysm-3:3500"]
           head_path (start second_serves 0)
           {| world := (5 : @World (env second_serves)); written := [];
              trace := ["http://prysm:3500/eth/v1/beacon/headers/head"] |}).
  - reflexivity.
  - eapply all_fail_cons; [vm_compute; reflexivity | apply all_fail_nil].
  - vm_compute. reflexivity.
Defined.

(** C5 as stated fails: with the three default endpoints all
    refusing, the error thrown is the fixed text for the path, and it
    does not name every endpoint tried. *)
Lemma failover_error_names_no_endpoint :
  exists st',
    @all_fail (env all_down) head_path (@CL_ENDPOINTS (env all_down))
      (start all_down 0) st' /\
    @beaconGetWithFailover (env all_down) head_path (start all_down 0)
      = (inl (Error "All CL endpoints failed for /eth/v1/beacon/headers/head"), st') /\
    @names_every_endpoint (env all_down)
      (Error "All CL endpoints failed for /eth/v1/beacon/headers/head") = false.
Proof.
  eexists. split; [exact all_down_all_fail |].
  split; vm_compute; reflexivity.
Qed.

Lemma failover_all_failed_witness :
  @beaconGetWithFailover (env all_down) head_path (start all_down 0)
    = (inl (Error "All CL endpoints failed for /eth/v1/beacon/headers/head"),
       {| world := (3 : @World (env all_down)); written := [];
          trace := map (beacon_url head_path) default_cl |}) /\
  trace {| world := (3 : @World (env all_down)); written := [];
           trace := map (beacon_url head_path) default_cl |}
    = ["http://prysm:3500/eth/v1/beacon/headers/head";
       "http://prysm-2:3500/eth/v1/beacon/headers/head";
       "http://prysm-3:3500/eth/v1/beacon/headers/head"].
Proof.
  exact (@failover_all_failed (env all_down) head_path
           (start all_down 0) _ all_down_all_fail).
Defined.

(** C3 as stated fails: the reading of an instance without a table
    entry is not in the output; [update] leaves the records as they
    were. *)
Lemma unmapped_sample_dropped :
  Js.get (metric_instance stray_sample) PROM_INSTANCE_MAP = None /\
  Js.get (metric_instance stray_sample) (update [stray_sample] Km1 init_data) = None /\
  update [stray_sample] Km1 init_data = init_data.
Proof. repeat split. Qed.

Lemma update_unmapped_sample_witness :
  Js.get (metric_instance named_sample) PROM_INSTANCE_MAP = None /\
  getContainer named_sample = "geth-2" /\
  Js.get "geth-2" (update [named_sample] Km2 init_data)
    = Some (set_metric Km2 (inject_Z 7) missing_record) /\
  Js.keys (update [stray_sample; named_sample] Km2 init_data) = Js.keys init_data.
Proof.
  destruct (update_unmapped_sample Km2 init_data named_sample eq_refl)
    as (Hc & Hmerged & _ & Hkeys).
  split; [reflexivity |]. split; [exact Hc |].
  split; [exact (Hmerged missing_record eq_refl) | apply Hkeys].
Defined.


(** When the first element served for the participation query has no
    value, the network sampler throws and appends no row. *)
Example sampleNetwork_without_value :
  fst (@sampleNetwork (env bare_element) (start bare_element 0)) = inl no_value /\
  written (snd (@sampleNetwork (env bare_element) (start bare_element 0))) = [].
Proof. split; vm_compute; reflexivity. Qed.

(** In the same world the performance sampler throws in its first
    merge, before it reads [res8]. *)
Example samplePerfMetrics_without_value :
  fst (@samplePerfMetrics (env bare_element) (start bare_element 0)) = inl no_value /\
  written (snd (@samplePerfMetrics (env bare_element) (start bare_element 0))) = [].
Proof. split; vm_compute; reflexivity. Qed.

(** C2 fails on the code: with the two pending buckets counted and
    empty and the two active buckets failing, the sum of the counted
    buckets is zero, and the row carries the sentinel as
    [validators_total] (next to an activation queue of length zero). *)
Theorem zero_total_written_as_sentinel :
  total_of [0; 0; MISSING; MISSING] = MISSING /\
  activationQueueLen_of 0 0 = 0 /\
  written (snd (@sampleNetwork (env pending_empty) (start pending_empty 0)))
    = [(NET_CSV,
        [CInt 0; CInt MISSING; CInt MISSING; CInt MISSING; CInt MISSING;
         CInt MISSING; CInt MISSING;
         CInt MISSING; CInt 0; CInt MISSING; CInt MISSING; CNum MISSING_Q])].
Proof. repeat split. Qed.

(** C8 as the spec states it fails on the code: with balances
    9007199254740992, 1, 1 and 1 the double-precision sum stays at
    9007199254740992 and the row carries 2251799813685248, while the
    arithmetic mean is 2251799813685248.75, whose nearest integer is
    2251799813685249. *)
Theorem mean_beyond_double_precision :
  written (snd (@sampleValidators (env large_balances) (start large_balances 0)))
    = [(VAL_CSV, [CInt 0; CStr "any"; CInt 2251799813685248])] /\
  Zsum [9007199254740992; 1; 1; 1] = 4 * 2251799813685248 + 3 /\
  nearest_integer 2251799813685249 (Zsum [9007199254740992; 1; 1; 1]) 4 /\
  ~ nearest_integer 2251799813685248 (Zsum [9007199254740992; 1; 1; 1]) 4.
Proof.
  split; [vm_compute; reflexivity |]. split; [reflexivity |].
  split; [vm_compute; discriminate |].
  vm_compute. intro H. apply H. reflexivity.
Qed.

(** C8, on two validators with balances 32 and 33: the mean is 32.5 and
    the row carries 33. *)
Lemma sampleValidators_mean_witness :
  exists st',
    @sampleValidators (env second_serves) (start second_serves 0) = (inr tt, st') /\
    written st' = [(VAL_CSV, [CInt 0; CStr "any"; CInt 33])] /\
    nearest_integer 33 (Zsum [32; 33]) 2.
Proof.
  destruct (@sampleValidators_mean (env second_serves) (start second_serves 0))
    as (avg & st' & Hrun & Hw & Hmean).
  assert (Hst : st' = snd (@sampleValidators (env second_serves) (start second_serves 0)))
    by (rewrite Hrun; reflexivity).
  assert (Hserved : exists lat,
             fst (@beaconGetWithFailover (env second_serves) validators_path
                    (start second_serves 0))
             = inr (JValidators
                      (Arr [ {| balance := Some 32; effective_balance := None |};
                             {| balance := Some 33; effective_balance := None |} ]),
                    lat))
    by (eexists; vm_compute; reflexivity).
  destruct Hserved as [lat Hserved]. rewrite Hserved in Hmean.
  destruct Hmean as (_ & _ & _ & Hmean).
  specialize (Hmean [32; 33] ltac:(discriminate)
                ltac:(repeat constructor; discriminate) eq_refl eq_refl).
  exists st'. split; [exact Hrun |].
  rewrite Hw. rewrite Hst in Hw. vm_compute in Hw.
  injection Hw as Havg. subst avg.
  split; [reflexivity | exact Hmean].
Defined.

(** C7, on a first tick that takes 1300 ms against a period of 1000 ms:
    the second tick begins at 1300 with deadline 1000, without a sleep,
    and the third one at 2000 with deadline 2000. *)
Lemma deadline_anchored_witness :
  exists st0 st1 st2,
    @main (env slow_first_tick) 0 (start slow_first_tick 0)
      = (inr (OutOfFuel 0), st0) /\
    @main (env slow_first_tick) 1 (start slow_first_tick 0)
      = (inr (OutOfFuel 1000), st1) /\
    @Date_now (env slow_first_tick) (world st1) = 1300 /\
    snd (@run_samplers (env slow_first_tick) st0) = st1 /\
    @main (env slow_first_tick) 2 (start slow_first_tick 0)
      = (inr (OutOfFuel 2000), st2) /\
    @Date_now (env slow_first_tick) (world st2) = 2000.
Proof.
  assert (Htimer : forall ms w,
             @Date_now (env slow_first_tick) w + ms
             <= @Date_now (env slow_first_tick) (@setTimeout (env slow_first_tick) ms w))
    by (intros ms w; apply Z.le_refl).
  set (init := start slow_first_tick 0).
  set (st0 := snd (@main (env slow_first_tick) 0 init)).
  assert (H0 : @main (env slow_first_tick) 0 init = (inr (OutOfFuel 0), st0))
    by reflexivity.
  destruct (@deadline_anchored (env slow_first_tick) init 0 0 st0 Htimer H0)
    as (_ & _ & _ & ss & st1 & Hticks & Hnext & Hover).
  assert (Hst1 : st1 = snd (@run_samplers (env slow_first_tick) st0))
    by (rewrite Hticks; reflexivity).
  assert (Hclock : @Date_now (env slow_first_tick) (world st1) = 1300)
    by (rewrite Hst1; vm_compute; reflexivity).
  destruct Hover as [_ Hsame]; [rewrite Hclock; reflexivity |].
  specialize (Hnext eq_refl). rewrite Hsame in Hnext.
  destruct (@deadline_anchored (env slow_first_tick) init 1 1000 st1 Htimer Hnext)
    as (_ & _ & _ & ss2 & st1' & _ & Hnext2 & _).
  assert (Hc : @loop_condition (env slow_first_tick) (@endAt_of (env slow_first_tick) init) st1
               = (inr true, st1)) by reflexivity.
  specialize (Hnext2 Hc).
  exists st0, st1, (@after_delay (env slow_first_tick) 1000 st1').
  split; [exact H0 |]. split; [exact Hnext |]. split; [exact Hclock |].
  split; [now rewrite Hst1 |]. split; [exact Hnext2 |].
  assert (Hst2 : @after_delay (env slow_first_tick) 1000 st1'
                 = snd (@main (env slow_first_tick) 2 init))
    by (rewrite Hnext2; reflexivity).
  rewrite Hst2. vm_compute. reflexivity.
Defined.

(** With every upstream source refusing connections, the tick records an
    outcome for each of its six samplers: five return, and the
    performance sampler is rejected. *)
Example tick_outcomes_all_down :
  fst (@run_samplers (env all_down) (start all_down 0))
    = inr [Fulfilled tt; Fulfilled tt; Fulfilled tt; Fulfilled tt; Fulfilled tt;
           Rejected (ReferenceError "res8 is not defined")].
Proof. vm_compute. reflexivity. Qed.

(** C9, with every upstream source refusing connections: three ticks
    are run, and the loop is still going. *)
Lemma sampler_failures_never_fatal_witness :
  (forall w, @signalled (env all_down) w = false) /\
  exists st',
    @main_loop (env all_down) 3 None 0 (start all_down 0)
      = (inr (OutOfFuel 3000), st').
Proof.
  split; [reflexivity |].
  destruct (@sampler_failures_never_fatal (env all_down))
    as (_ & _ & _ & _ & Hruns).
  exact (Hruns 3%nat 0 (start all_down 0) (fun _ => eq_refl)).
Defined.

End Scenarios.

(** ** Further properties of the sampling script *)

(** *** Endpoint index and container names *)

Section EndpointIndex.
Context {E : Env}.

Lemma get_set_other {V : Type} (k k' : string) (v : V) (o : object V) :
  k <> k' -> Js.get k (Js.set k' v o) = Js.get k o.
Proof.
  intro Hne. induction o as [| [k0 v0] o IH]; cbn.
  - destruct (String.eqb_spec k k'); [contradiction | reflexivity].
  - destruct (String.eqb_spec k' k0) as [-> | Hk0]; cbn.
    + destruct (String.eqb_spec k k0); [contradiction | reflexivity].
    + destruct (String.eqb_spec k k0); [reflexivity | exact IH].
Qed.

Lemma fromEntries_indexed (e : string) (l : list string) (b : Z) (o : object Z) :
  Js.get e (fold_left (fun o kv => Js.set (fst kv) (snd kv) o) (indexed b l) o)
    = match last_pos e l with
      | Some i => Some (b + Z.of_nat i)
      | None => Js.get e o
      end.
Proof.
  revert b o. induction l as [| x l IH]; intros b o; cbn [indexed fold_left last_pos].
  - reflexivity.
  - rewrite IH. cbn [fst snd]. destruct (last_pos e l) as [i |].
    + f_equal. lia.
    + destruct (String.eqb_spec e x) as [-> | Hne].
      * rewrite get_set_same. f_equal. lia.
      * apply get_set_other. exact Hne.
Qed.

Lemma last_pos_spec (e : string) (l : list string) (i : nat) :
  last_pos e l = Some i ->
  nth_error l i = Some e /\
  forall j, nth_error l j = Some e -> (j <= i)%nat.
Proof.
  revert i. induction l as [| x l IH]; intros i; cbn [last_pos]; [discriminate |].
  destruct (last_pos e l) as [i' |] eqn:Hl.
  - intro H. injection H as <-. destruct (IH i' eq_refl) as [Hn Hmax].
    split; [exact Hn |]. intros [| j] Hj; [lia |].
    specialize (Hmax j Hj). lia.
  - destruct (String.eqb_spec e x) as [-> | Hne]; [| discriminate].
    intro H. injection H as <-. split; [reflexivity |].
    intros [| j] Hj; [lia |]. cbn in Hj. exfalso.
    clear IH. revert j Hj. induction l as [| y l IHl]; intros j Hj.
    + destruct j; discriminate.
    + cbn [last_pos] in Hl. destruct (last_pos x l) eqn:Hl'; [discriminate |].
      destruct (String.eqb_spec x y) as [-> | Hxy]; [discriminate |].
      destruct j as [| j]; cbn in Hj.
      * injection Hj as ->. contradiction.
      * exact (IHl eq_refl j Hj).
Qed.

Lemma last_pos_In (e : string) (l : list string) :
  In e l -> exists i, last_pos e l = Some i.
Proof.
  induction l as [| x l IH]; cbn [In last_pos]; [contradiction |].
  intros [-> | Hin].
  - destruct (last_pos e l); [eauto |]. rewrite String.eqb_refl. eauto.
  - destruct (IH Hin) as [i ->]. eauto.
Qed.

(** The label of a sampled execution endpoint is [geth-] followed by one
    plus the position of its last occurrence in [EL_ENDPOINTS]: positions
    count from one, and of a duplicated endpoint only the last position
    is ever used. *)
Theorem el_label_last_occurrence (endpoint : string) :
  In endpoint EL_ENDPOINTS ->
  exists i,
    nth_error EL_ENDPOINTS i = Some endpoint /\
    (forall j, nth_error EL_ENDPOINTS j = Some endpoint -> (j <= i)%nat) /\
    Js.get endpoint EL_INDEX = Some (Z.of_nat i) /\
    el_label endpoint = ("geth-" ++ String_of_Z (Z.of_nat i + 1))%string.
Proof.
  intro Hin. destruct (last_pos_In endpoint EL_ENDPOINTS Hin) as [i Hi].
  destruct (last_pos_spec endpoint EL_ENDPOINTS i Hi) as [Hn Hmax].
  assert (Hget : Js.get endpoint EL_INDEX = Some (Z.of_nat i)).
  { unfold EL_INDEX, fromEntries. rewrite fromEntries_indexed, Hi. reflexivity. }
  exists i. repeat split; try assumption.
  unfold el_label. rewrite Hget. reflexivity.
Qed.

End EndpointIndex.

(** *** Execution-layer sampler *)

Section ExecutionSampler.
Context {E : Env}.

(** A JSON-RPC call appends no row and makes one request, to the URL it
    is given. *)
Lemma jsonRpc_frame (url method : string) (st : St) :
  written (snd (jsonRpc url method st)) = written st /\
  trace (snd (jsonRpc url method st)) = trace st ++ [url].
Proof.
  unfold jsonRpc. cbn. unfold M_bind, now, do_fetch. cbn.
  destruct (fetch _ (world st)) as [[e | res] w]; cbn; [split; reflexivity |].
  destruct (ok res); cbn; [| split; reflexivity].
  destruct (json res) as [e | j]; cbn; [split; reflexivity |].
  destruct j as [d | d | d | s d | [msg |] r |]; cbn; split; reflexivity.
Qed.

(** [sampleEl] never throws.  It makes its four calls in a fixed order,
    all to the endpoint, and appends exactly one row; each column is read
    off the outcome of its own call, so that a call that fails leaves the
    sentinel in its own columns and nothing else. *)
Theorem sampleEl_fields (endpoint : string) (st : St) :
  let c1 := jsonRpc endpoint "eth_gasPrice" st in
  let c2 := jsonRpc endpoint "eth_blockNumber" (snd c1) in
  let c3 := jsonRpc endpoint "eth_getBlockByNumber" (snd c2) in
  let c4 := jsonRpc endpoint "eth_getBlockTransactionCountByNumber" (snd c3) in
  let row :=
    [CInt (Date_now (world st)); CStr (el_label endpoint);
     CInt (fst (fst (block_fields_of (fst c3))));
     CInt (quantity_of (fst c1));
     CInt (snd (fst (block_fields_of (fst c3))));
     CInt (snd (block_fields_of (fst c3)));
     CInt (quantity_of (fst c4))] in
  sampleEl endpoint st
    = (inr row,
       {| world := world (snd c4);
          written := written st ++ [(EL_CSV, row)];
          trace := trace st ++ [endpoint; endpoint; endpoint; endpoint] |}).
Proof.
  cbv zeta.
  pose proof (jsonRpc_frame endpoint "eth_gasPrice" st) as [W1 T1].
  destruct (jsonRpc endpoint "eth_gasPrice" st) as [o1 st1] eqn:H1.
  cbn [fst snd] in *.
  pose proof (jsonRpc_frame endpoint "eth_blockNumber" st1) as [W2 T2].
  destruct (jsonRpc endpoint "eth_blockNumber" st1) as [o2 st2] eqn:H2.
  cbn [fst snd] in *.
  pose proof (jsonRpc_frame endpoint "eth_getBlockByNumber" st2) as [W3 T3].
  destruct (jsonRpc endpoint "eth_getBlockByNumber" st2) as [o3 st3] eqn:H3.
  cbn [fst snd] in *.
  pose proof (jsonRpc_frame endpoint "eth_getBlockTransactionCountByNumber" st3)
    as [W4 T4].
  destruct (jsonRpc endpoint "eth_getBlockTransactionCountByNumber" st3)
    as [o4 st4] eqn:H4.
  cbn [fst snd] in *.
  assert (Hw : written st4 = written st) by congruence.
  assert (Ht : trace st4 = trace st ++ [endpoint; endpoint; endpoint; endpoint]).
  { rewrite T4, T3, T2, T1, <- !app_assoc. reflexivity. }
  unfold sampleEl, unixMs, el_label.
  rewrite (bind_inr now _ st (Date_now (world st)) st eq_refl).
  cbn -[jsonRpc]. unfold M_bind, try_catch. cbn -[jsonRpc]. unfold M_bind.
  rewrite H1.
  destruct o1 as [e1 | [r1 l1]]; cbn -[jsonRpc]; rewrite H2;
    destruct o2 as [e2 | [r2 l2]]; cbn -[jsonRpc]; rewrite H3;
    destruct o3 as [e3 | [[| q3 | b3] l3]]; cbn -[jsonRpc]; rewrite H4;
    destruct o4 as [e4 | [r4 l4]]; cbn -[jsonRpc]; unfold appendCsvRow;
    cbn -[jsonRpc]; rewrite Hw, Ht; reflexivity.
Qed.

End ExecutionSampler.

(** *** Source adapters and bucket counts *)

Section Adapters.
Context {E : Env}.

Lemma strip_trailing_slash_app (url : string) :
  strip_trailing_slash (url ++ "/") = url.
Proof.
  induction url as [| c url IH]; [reflexivity |].
  cbn [append]. destruct url as [| c' url'].
  - reflexivity.
  - cbn [append] in *. cbn [strip_trailing_slash]. f_equal. exact IH.
Qed.

(** An endpoint configured with one trailing slash is asked exactly as
    the same endpoint configured without it. *)
Theorem beaconGet_trailing_slash (url path : string) (st : St) :
  strip_trailing_slash url = url ->
  beaconGet (url ++ "/") path st = beaconGet url path st.
Proof.
  intro H. unfold beaconGet. rewrite strip_trailing_slash_app, H. reflexivity.
Qed.

(** [queryPrometheus] never throws, appends no row and makes exactly one
    request.  It returns a non-empty list only when that request was
    answered with an ok status and a body of status ['success'] carrying
    that list; in every other case it returns the empty list. *)
Theorem queryPrometheus_safe (query : string) (st : St) :
  exists l st',
    queryPrometheus query st = (inr l, st') /\
    written st' = written st /\
    trace st' = trace st ++ [prometheus_url query] /\
    (l <> [] ->
     exists res,
       fst (fetch (GET (prometheus_url query)) (world st)) = inr res /\
       ok res = true /\
       json res = inr (JProm "success" (Some l))).
Proof.
  unfold queryPrometheus, prometheus_url, try_catch. cbn.
  unfold M_bind, do_fetch. cbn.
  destruct (fetch _ (world st)) as [[e | res] w]; cbn.
  - eexists _, _. repeat split. intro H. now contradiction H.
  - destruct (ok res) eqn:Hok; cbn.
    + destruct (json res) as [e | j] eqn:Hj; cbn.
      * eexists _, _. repeat split. intro H. now contradiction H.
      * destruct j as [d | d | d | s d | err r |]; cbn;
          try (eexists _, _; repeat split; intro H; now contradiction H).
        destruct (String.eqb_spec s "success") as [-> | Hs]; cbn.
        -- destruct d as [l |]; cbn.
           ++ eexists _, _. repeat split. intros _. exists res. auto.
           ++ eexists _, _. repeat split. intro H. now contradiction H.
        -- eexists _, _. repeat split. intro H. now contradiction H.
    + eexists _, _. repeat split. intro H. now contradiction H.
Qed.

(** A bucket count never throws and appends no row.  It is the sentinel
    when the failover call fails or serves something other than an array,
    and otherwise the length of the served array: a count is never below
    the sentinel, and a non-negative count is always the size of a served
    array. *)
Theorem countStatus_count (statuses : string) (st : St) :
  exists n st',
    countStatus statuses st = (inr n, st') /\
    written st' = written st /\
    MISSING <= n /\
    n = match fst (beaconGetWithFailover
                     ("/eth/v1/beacon/states/head/validators?status=" ++ statuses) st) with
        | inr (j, _) => data_length j
        | inl _ => MISSING
        end /\
    (0 <= n ->
     exists items lat,
       fst (beaconGetWithFailover
              ("/eth/v1/beacon/states/head/validators?status=" ++ statuses) st)
         = inr (JValidators (Arr items), lat) /\
       n = Z.of_nat (List.length items)).
Proof.
  unfold countStatus, try_catch. cbn. unfold M_bind.
  pose proof (keeps_beaconGetWithFailover
                ("/eth/v1/beacon/states/head/validators?status=" ++ statuses) st) as Hw.
  destruct (beaconGetWithFailover _ st) as [[e | [j lat]] st1]; cbn in *.
  - eexists _, _. repeat split; try assumption; unfold MISSING; lia.
  - exists (data_length j), st1. repeat split; try assumption.
    + destruct j as [d | d | [| | items] | s d | err r |]; cbn; unfold MISSING; lia.
    + intro Hn. destruct j as [d | d | [| | items] | s d | err r |]; cbn in Hn;
        try lia. exists items, lat. split; reflexivity.
Qed.

Lemma Zsum_succeeded_nonneg (counts : list Z) : 0 <= Zsum (succeeded counts).
Proof.
  unfold Zsum, succeeded. induction counts as [| n counts IH]; cbn; [lia |].
  destruct (Z.leb_spec 0 n); cbn; lia.
Qed.

(** [validators_total] is never zero: it is the sum of the counted
    buckets when that sum is positive, and the sentinel when it is zero,
    be it because no bucket was counted or because every counted bucket
    is empty. *)
Theorem total_of_never_zero (counts : list Z) :
  (0 < Zsum (succeeded counts) /\ total_of counts = Zsum (succeeded counts)) \/
  (Zsum (succeeded counts) = 0 /\ total_of counts = MISSING).
Proof.
  pose proof (Zsum_succeeded_nonneg counts) as Hs.
  unfold total_of, or_num. fold (succeeded counts).
  rewrite fold_left_add_Zsum, Z.add_0_l.
  destruct (Z.eqb_spec (Zsum (succeeded counts)) 0) as [H0 | Hne].
  - right. split; [exact H0 | reflexivity].
  - left. split; [lia | reflexivity].
Qed.

End Adapters.

(** *** Rows of a tick and of a run *)

Section TickRows.
Context {E : Env}.

Lemma keeps_jsonRpc (url method : string) : keeps_written (jsonRpc url method).
Proof. intro st. apply jsonRpc_frame. Qed.

#[local] Hint Resolve keeps_jsonRpc : frame.

Lemma sampleEl_appends (endpoint : string) (st : St) :
  exists row st',
    sampleEl endpoint st = (inr row, st') /\
    written st' = written st ++ [(EL_CSV, row)] /\
    List.length row = 7%nat /\
    container_column row = CStr (el_label endpoint).
Proof.
  unfold sampleEl, unixMs, el_label.
  rewrite (bind_inr now _ st (Date_now (world st)) st eq_refl).
  step_try. step_try. step_try. destruct v1 as [[basefee gasUsed] gasLimit].
  step_try. eexists _, _. split; [reflexivity |]. cbn.
  rewrite Hw2, Hw1, Hw0, Hw. repeat split.
Qed.

Lemma samplePerfMetrics_silent (st : St) :
  exists e st',
    samplePerfMetrics st = (inl e, st') /\ written st' = written st.
Proof.
  destruct (Promise_all_queries perf_queries st)
    as (vs & st1 & Hall & Hw & Hlen & _).
  destruct (samplePerfMetrics_after_queries st vs st1 Hall Hlen) as (e & Hrun & _).
  exists e, st1. split; [exact Hrun | exact Hw].
Qed.

(** The network sampler appends its one row, of twelve columns, when it
    returns, and nothing when it throws; it returns in a world that
    serves only elements with their value. *)
Lemma sampleNetwork_appends (st : St) :
  exists r st' net_rows,
    sampleNetwork st = (r, st') /\
    written st' = written st ++ map (pair NET_CSV) net_rows /\
    Forall (fun row => List.length row = 12%nat) net_rows /\
    ((r = inr tt /\ List.length net_rows = 1%nat) \/
     (r = inl no_value /\ net_rows = [])) /\
    (serves_values -> r = inr tt).
Proof.
  destruct (sampleNetwork_run st)
    as (h & j & f & c1 & c2 & c3 & c4 & st_q & res & st_r & Hwq & Hq & Hwr & Hrun).
  pose proof (fun Hs => queryPrometheus_valued _ _ _ _ Hs Hq) as Hval.
  destruct res as [| [r0 | i] res]; cbn [participation_of] in Hrun.
  - destruct Hrun as (st' & Hrun & Hw). eexists _, st', [_].
    split; [exact Hrun |]. split; [exact Hw |].
    split; [repeat constructor |]. split; [left; split; reflexivity |].
    intros _. reflexivity.
  - destruct Hrun as (st' & Hrun & Hw). eexists _, st', [_].
    split; [exact Hrun |]. split; [exact Hw |].
    split; [repeat constructor |]. split; [left; split; reflexivity |].
    intros _. reflexivity.
  - exists (inl no_value), st_r, [].
    split; [exact Hrun |]. split; [cbn; now rewrite app_nil_r |].
    split; [constructor |]. split; [right; split; reflexivity |].
    intro Hs. specialize (Hval Hs). discriminate Hval.
Qed.

Lemma Promise_allSettled_cons {A : Type} (p : M A) (ps : list (M A)) (st : St) :
  Promise_allSettled (p :: ps) st =
    match Promise_allSettled ps (snd (p st)) with
    | (inr ss, st2) =>
        (inr (match fst (p st) with
              | inl e => Rejected e
              | inr v => Fulfilled v
              end :: ss), st2)
    | (inl e, st2) => (inl e, st2)
    end.
Proof.
  cbn. unfold M_bind, try_catch. cbn. unfold M_bind.
  destruct (p st) as [[e | v] st1]; cbn;
    destruct (Promise_allSettled ps st1) as [[e' | ss] st2]; reflexivity.
Qed.

Lemma Promise_allSettled_app {A : Type} (ps qs : list (M A)) (st st1 st2 : St)
    (ss1 ss2 : list (Settled A)) :
  Promise_allSettled ps st = (inr ss1, st1) ->
  Promise_allSettled qs st1 = (inr ss2, st2) ->
  Promise_allSettled (ps ++ qs) st = (inr (ss1 ++ ss2), st2).
Proof.
  revert st ss1. induction ps as [| p ps IH]; intros st ss1 H1 H2.
  - cbn in H1. injection H1 as <- <-. exact H2.
  - cbn [app]. rewrite Promise_allSettled_cons in *.
    destruct (Promise_allSettled ps (snd (p st))) as [[e | ss] st'] eqn:Hps;
      [discriminate |].
    injection H1 as <- <-. rewrite (IH _ ss Hps H2). reflexivity.
Qed.

Lemma els_settle (es : list string) (st : St) :
  exists ss st1 rows,
    Promise_allSettled (map (fun e => _ <- sampleEl e ;; ret tt) es) st
      = (inr ss, st1) /\
    written st1 = written st ++ map (pair EL_CSV) rows /\
    map container_column rows = map (fun e => CStr (el_label e)) es /\
    Forall (fun r => List.length r = 7%nat) rows /\
    List.length ss = List.length es.
Proof.
  revert st. induction es as [| e es IH]; intro st; cbn [map].
  - exists [], st, []. cbn. rewrite app_nil_r. repeat split. constructor.
  - destruct (sampleEl_appends e st) as (row & st1 & Hrun & Hw & Hlen & Hlab).
    destruct (IH st1) as (ss & st2 & rows & Hrest & Hw2 & Hlabs & Hlens & Hss).
    assert (Hunit : (_ <- sampleEl e ;; ret tt) st = (inr tt, st1))
      by (rewrite (bind_inr _ _ _ _ _ Hrun); reflexivity).
    rewrite Promise_allSettled_cons, Hunit. cbn [fst snd].
    rewrite Hrest. exists (Fulfilled tt :: ss), st2, (row :: rows).
    split; [reflexivity |]. split.
    { rewrite Hw2, Hw, <- app_assoc. reflexivity. }
    split; [cbn [map]; now rewrite Hlab, Hlabs |].
    split; [constructor; assumption |].
    cbn. now rewrite Hss.
Qed.

(** What the samplers of one tick append, in the order in which the
    samplers are run here. *)
Lemma run_samplers_appends (st : St) :
  exists ss st' el_rows val_row net net_rows,
    run_samplers st = (inr ss, st') /\
    written st' = written st ++ map (pair EL_CSV) el_rows
                    ++ (VAL_CSV, val_row) :: map (pair NET_CSV) net_rows /\
    map container_column el_rows = map (fun e => CStr (el_label e)) EL_ENDPOINTS /\
    Forall (fun r => List.length r = 7%nat) el_rows /\
    List.length val_row = 3%nat /\
    Forall (fun row => List.length row = 12%nat) net_rows /\
    nth_error ss (S (List.length EL_ENDPOINTS)) = Some (settled_of net) /\
    ((net = inr tt /\ List.length net_rows = 1%nat) \/
     (net = inl no_value /\ net_rows = [])) /\
    (serves_values -> net = inr tt).
Proof.
  destruct (els_settle EL_ENDPOINTS st)
    as (ss1 & st1 & rows & Hels & Hw1 & Hlabs & Hlens & Hss).
  destruct (sampleValidators_run st1) as (st2 & Hv & Hw2).
  destruct (sampleNetwork_appends st2)
    as (net & st3 & net_rows & Hn & Hw3 & Hnlen & Hnet & Hserved).
  destruct (samplePerfMetrics_silent st3) as (e & st4 & Hp & Hw4).
  assert (Hrest : Promise_allSettled [sampleValidators; sampleNetwork; samplePerfMetrics] st1
                  = (inr [Fulfilled tt; settled_of net; Rejected e], st4)).
  { rewrite !Promise_allSettled_cons. rewrite Hv. cbn [fst snd].
    rewrite Hn. cbn [fst snd]. rewrite Hp. reflexivity. }
  unfold run_samplers, tick_samplers.
  rewrite (Promise_allSettled_app _ _ _ _ _ _ _ Hels Hrest).
  eexists _, st4, rows, _, net, net_rows. split; [reflexivity |].
  split.
  { rewrite Hw4, Hw3, Hw2, Hw1, <- !app_assoc. reflexivity. }
  split; [exact Hlabs |]. split; [exact Hlens |]. split; [reflexivity |].
  split; [exact Hnlen |]. split.
  { rewrite nth_error_app2 by lia. rewrite Hss.
    replace (S (List.length EL_ENDPOINTS) - List.length EL_ENDPOINTS)%nat
      with 1%nat by lia.
    reflexivity. }
  split; [exact Hnet | exact Hserved].
Qed.

Lemma rows_of_app (file : Sink) (l1 l2 : list (Sink * Row)) :
  rows_of file (l1 ++ l2) = rows_of file l1 ++ rows_of file l2.
Proof. unfold rows_of. now rewrite filter_app, map_app. Qed.

Lemma rows_of_pairs (file file' : Sink) (rows : list Row) :
  rows_of file (map (pair file') rows) = if Sink_eqb file' file then rows else [].
Proof.
  unfold rows_of. induction rows as [| r rows IH]; cbn.
  - now destruct (Sink_eqb file' file).
  - destruct (Sink_eqb file' file); cbn; [now f_equal | exact IH].
Qed.

Lemma rows_of_tick (file : Sink) (el_rows : list Row) (val_row : Row)
    (net_rows : list Row) :
  rows_of file
    (map (pair EL_CSV) el_rows ++ (VAL_CSV, val_row) :: map (pair NET_CSV) net_rows)
  = (if Sink_eqb EL_CSV file then el_rows else [])
      ++ (if Sink_eqb VAL_CSV file then [val_row] else [])
      ++ (if Sink_eqb NET_CSV file then net_rows else []).
Proof.
  change ((VAL_CSV, val_row) :: map (pair NET_CSV) net_rows)
    with (map (pair VAL_CSV) [val_row] ++ map (pair NET_CSV) net_rows).
  now rewrite !rows_of_app, !rows_of_pairs.
Qed.

Lemma fits_tick_rows (el_rows : list Row) (val_row : Row) (net_rows : list Row) :
  Forall (fun r => List.length r = 7%nat) el_rows ->
  List.length val_row = 3%nat ->
  Forall (fun row => List.length row = 12%nat) net_rows ->
  Forall fits_header
    (map (pair EL_CSV) el_rows ++ (VAL_CSV, val_row) :: map (pair NET_CSV) net_rows).
Proof.
  intros Hel Hv Hn. apply Forall_app. split.
  - clear - Hel. induction Hel; cbn; constructor; assumption.
  - constructor; [exact Hv |].
    clear - Hn. induction Hn; cbn; constructor; assumption.
Qed.

(** Each tick appends one row per execution endpoint, each labelled by
    its endpoint (the theorem leaves their order open, since the script
    starts the samplers together), one validator row, at most one
    network row, and no row to the two performance streams, whatever the
    world answers.  The network row is there exactly when the outcome
    recorded for the network sampler is a fulfilment, which it is in a
    world that serves only elements with their value.  Each of these
    rows has as many columns as the header of its stream. *)
Theorem tick_rows (st : St) :
  exists ss st' rows,
    run_samplers st = (inr ss, st') /\
    written st' = written st ++ rows /\
    Permutation (map container_column (rows_of EL_CSV rows))
                (map (fun e => CStr (el_label e)) EL_ENDPOINTS) /\
    List.length (rows_of VAL_CSV rows) = 1%nat /\
    (List.length (rows_of NET_CSV rows) <= 1)%nat /\
    (nth_error ss (S (List.length EL_ENDPOINTS)) = Some (Fulfilled tt)
       <-> List.length (rows_of NET_CSV rows) = 1%nat) /\
    (serves_values -> List.length (rows_of NET_CSV rows) = 1%nat) /\
    rows_of PERF_CL_CSV rows = [] /\
    rows_of PERF_EL_CSV rows = [] /\
    Forall fits_header rows.
Proof.
  destruct (run_samplers_appends st)
    as (ss & st' & el_rows & val_row & net & net_rows & Hrun & Hw & Hlabs & Hlens
        & Hv & Hnlen & Hnth & Hnet & Hserved).
  exists ss, st',
    (map (pair EL_CSV) el_rows ++ (VAL_CSV, val_row) :: map (pair NET_CSV) net_rows).
  split; [exact Hrun |]. split; [exact Hw |].
  rewrite !rows_of_tick. cbn [Sink_eqb app]. rewrite !app_nil_r.
  split; [rewrite Hlabs; apply Permutation_refl |].
  split; [reflexivity |].
  split; [destruct Hnet as [[_ Hl] | [_ ->]]; [rewrite Hl | cbn]; lia |].
  split.
  { rewrite Hnth. destruct Hnet as [[-> Hl] | [-> ->]]; cbn.
    - split; [intros _; exact Hl | reflexivity].
    - split; [discriminate | discriminate]. }
  split.
  { intro Hs. destruct Hnet as [[_ Hl] | [Hn _]]; [exact Hl |].
    rewrite (Hserved Hs) in Hn. discriminate Hn. }
  split; [reflexivity |]. split; [reflexivity |].
  apply fits_tick_rows; assumption.
Qed.

Lemma loop_body_appends (nextAt : Z) (st : St) :
  exists rows,
    written (snd (loop_body nextAt st)) = written st ++ rows /\
    Forall fits_header rows.
Proof.
  destruct (run_samplers_appends st)
    as (ss & st1 & el_rows & val_row & net & net_rows & Hrun & Hw & _ & Hlens
        & Hv & Hnlen & _).
  destruct (loop_body_run nextAt st) as (ss' & st1' & Hrun' & Hbody).
  rewrite Hrun in Hrun'. injection Hrun' as <- <-.
  rewrite Hbody. cbn [snd].
  exists (map (pair EL_CSV) el_rows ++ (VAL_CSV, val_row) :: map (pair NET_CSV) net_rows).
  split.
  - destruct (0 <? delay_after nextAt st1); exact Hw.
  - apply fits_tick_rows; assumption.
Qed.

Lemma main_loop_appends (fuel : nat) (endAt : option Z) (nextAt : Z) (st : St) :
  exists rows,
    written (snd (main_loop fuel endAt nextAt st)) = written st ++ rows /\
    Forall fits_header rows.
Proof.
  revert nextAt st. induction fuel as [| fuel IH]; intros nextAt st;
    cbn [main_loop].
  - exists []. cbn. rewrite app_nil_r. split; constructor.
  - destruct (loop_condition_run endAt st) as [c Hc].
    rewrite (bind_inr _ _ _ _ _ Hc). destruct c.
    + destruct (loop_body_run nextAt st) as (ss & st1 & _ & Hbody).
      destruct (loop_body_appends nextAt st) as (rows1 & Hw1 & Hf1).
      rewrite Hbody in Hw1. rewrite (bind_inr _ _ _ _ _ Hbody).
      destruct (IH (nextAt + INTERVAL_MS)
                  (if 0 <? delay_after nextAt st1
                   then snd (sleep (delay_after nextAt st1) st1) else st1))
        as (rows2 & Hw2 & Hf2).
      exists (rows1 ++ rows2). split.
      * rewrite Hw2. cbn [snd] in Hw1. rewrite Hw1, <- app_assoc. reflexivity.
      * apply Forall_app. split; assumption.
    + exists []. cbn. rewrite app_nil_r. split; constructor.
Qed.

(** Whatever the world answers and however long the run, [main] first
    writes the five headers, and every row it appends after them has as
    many columns as the header of its stream. *)
Theorem rows_fit_headers (fuel : nat) (st : St) :
  exists rows,
    written (snd (main fuel st))
      = written st
          ++ [(EL_CSV, elHeader); (VAL_CSV, valHeader); (NET_CSV, netHeader);
              (PERF_CL_CSV, perfClHeader); (PERF_EL_CSV, perfElHeader)]
          ++ rows /\
    Forall fits_header rows.
Proof.
  rewrite main_enters_loop.
  destruct (main_loop_appends fuel
              (if 0 <? DURATION_SEC
               then Some (Date_now (world st) + DURATION_SEC * 1000) else None)
              (Date_now (world (snd (initCsvFiles st))))
              (snd (initCsvFiles st))) as (rows & Hw & Hf).
  exists rows. split; [| exact Hf].
  rewrite Hw. cbn. rewrite <- !app_assoc. reflexivity.
Qed.

End TickRows.

(** *** End of a run *)

Section RunEnds.
Context {E : Env}.

Lemma loop_condition_value (endAt : option Z) (st : St) :
  loop_condition endAt st
    = (inr (negb (signalled (world st))
            && match endAt with
               | Some e => Date_now (world st) <? e
               | None => true
               end), st).
Proof.
  unfold loop_condition. cbn. unfold M_bind, read_stop, now. cbn.
  destruct (signalled (world st)); reflexivity.
Qed.

Lemma main_loop_ends (n : nat) (e nextAt : Z) (st : St) :
  (forall ms w, Date_now w + ms <= Date_now (setTimeout ms w)) ->
  nextAt <= Date_now (world st) ->
  e <= nextAt + Z.of_nat n * INTERVAL_MS ->
  exists st', main_loop (S n) (Some e) nextAt st = (inr Done, st').
Proof.
  intro Htimer. revert nextAt st.
  induction n as [| n IH]; intros nextAt st Hon Hend.
  - cbn [main_loop]. rewrite (bind_inr _ _ _ _ _ (loop_condition_value (Some e) st)).
    destruct (Z.ltb_spec (Date_now (world st)) e); [lia |].
    rewrite andb_false_r. eexists. reflexivity.
  - remember (S n) as m eqn:Hm. cbn [main_loop].
    rewrite (bind_inr _ _ _ _ _ (loop_condition_value (Some e) st)).
    destruct (negb (signalled (world st)) && (Date_now (world st) <? e));
      [| eexists; reflexivity].
    destruct (loop_body_run nextAt st) as (ss & st1 & _ & Hbody).
    pose proof (loop_body_on_time nextAt st Htimer) as Hnext.
    rewrite Hbody in Hnext. cbn [snd] in Hnext.
    rewrite (bind_inr _ _ _ _ _ Hbody). subst m.
    apply IH; [exact Hnext | lia].
Qed.

(** With a duration budget the run ends: if timers do not fire early and
    [n] periods cover the budget of [DURATION_SEC] seconds, [main] leaves
    its loop after at most [n] ticks. *)
Theorem duration_budget_ends (n : nat) (st : St) :
  (forall ms w, Date_now w + ms <= Date_now (setTimeout ms w)) ->
  0 < DURATION_SEC ->
  DURATION_SEC * 1000 <= Z.of_nat n * INTERVAL_MS ->
  exists st', main (S n) st = (inr Done, st').
Proof.
  intros Htimer Hd Hn. rewrite main_enters_loop.
  destruct (Z.ltb_spec 0 DURATION_SEC); [| lia].
  apply main_loop_ends; [exact Htimer | cbn; lia | cbn; lia].
Qed.

(** A signal seen at the head of the loop ends the run there: no further
    tick is started and nothing more is written or fetched. *)
Lemma signal_stops_loop (fuel : nat) (endAt : option Z) (nextAt : Z) (st : St) :
  signalled (world st) = true ->
  main_loop (S fuel) endAt nextAt st = (inr Done, st).
Proof.
  intro Hsig. cbn [main_loop].
  rewrite (bind_inr _ _ _ _ _ (loop_condition_value endAt st)), Hsig.
  reflexivity.
Qed.

End RunEnds.

(** *** Merging samples into records *)

Section Merge.
Context {E : Env}.

Lemma get_In {V : Type} (k : string) (v : V) (o : object V) :
  Js.get k o = Some v -> In (k, v) o.
Proof.
  induction o as [| [k0 v0] o IH]; cbn; [discriminate |].
  destruct (String.eqb_spec k k0) as [-> | Hne].
  - intro H. injection H as ->. now left.
  - intro H. right. exact (IH H).
Qed.

Lemma get_None_keys {V : Type} (k : string) (o : object V) :
  ~ In k (Js.keys o) -> Js.get k o = None.
Proof.
  unfold Js.keys. induction o as [| [k0 v0] o IH]; cbn; [reflexivity |].
  intro H. destruct (String.eqb_spec k k0) as [-> | Hne].
  - exfalso. apply H. now left.
  - apply IH. intro Hin. apply H. now right.
Qed.

(** Every container name of the table is a non-empty string. *)
Lemma getContainer_mapped (r : PromSample) (c : string) :
  Js.get (metric_instance r) PROM_INSTANCE_MAP = Some c ->
  getContainer r = c.
Proof.
  intro H. unfold getContainer. rewrite H.
  apply get_In in H. cbn in H.
  repeat (destruct H as [H | H]; [injection H as _ <-; reflexivity |]).
  contradiction.
Qed.

Lemma get_set_metric_same (key : MetricKey) (v : Q) (rec : PerfRecord) :
  get_metric key (set_metric key v rec) = v.
Proof. destruct key; reflexivity. Qed.

Lemma get_set_metric_other (key k : MetricKey) (v : Q) (rec : PerfRecord) :
  k <> key -> get_metric k (set_metric key v rec) = get_metric k rec.
Proof. destruct key, k; intro H; try reflexivity; now contradiction H. Qed.

(** A sample of an instance that the table lists, whose container has a
    record: the sample sets the column [key] of that record to its value,
    leaves the other columns of the record alone, and leaves every other
    record as it was. *)
Theorem update_mapped_sample
    (key : MetricKey) (data : object PerfRecord) (r : PromSample)
    (c : string) (rec : PerfRecord) :
  Js.get (metric_instance r) PROM_INSTANCE_MAP = Some c ->
  Js.get c data = Some rec ->
  exists rec',
    Js.get c (update [r] key data) = Some rec' /\
    get_metric key rec' = value1 r /\
    (forall k, k <> key -> get_metric k rec' = get_metric k rec) /\
    (forall c', c' <> c -> Js.get c' (update [r] key data) = Js.get c' data).
Proof.
  intros Hmap Hget. exists (set_metric key (value1 r) rec).
  pose proof (getContainer_mapped r c Hmap) as Hc.
  cbn. unfold update_point. rewrite Hc, Hget.
  split; [apply get_set_same |].
  split; [apply get_set_metric_same |].
  split; [intros k Hk; now apply get_set_metric_other |].
  intros c' Hne. now apply get_set_other.
Qed.

Lemma map_id_off_key (key : MetricKey) (r : PromSample) (d : object PerfRecord) :
  ~ In (getContainer r) (Js.keys d) ->
  map (fun kv => (fst kv,
                  if String.eqb (getContainer r) (fst kv)
                  then set_metric key (value1 r) (snd kv) else snd kv)) d = d.
Proof.
  unfold Js.keys. induction d as [| [k v] d IH]; cbn; [reflexivity |].
  intro H. destruct (String.eqb_spec (getContainer r) k) as [Heq | Hne].
  - exfalso. apply H. left. now symmetry.
  - f_equal. apply IH. intro Hin. apply H. now right.
Qed.

(** On an object, whose keys are distinct, [update_point] acts record by
    record. *)
Lemma update_point_map (key : MetricKey) (r : PromSample) (d : object PerfRecord) :
  NoDup (Js.keys d) ->
  update_point key d r
    = map (fun kv => (fst kv,
                      if String.eqb (getContainer r) (fst kv)
                      then set_metric key (value1 r) (snd kv) else snd kv)) d.
Proof.
  unfold update_point, Js.keys.
  induction d as [| [k v] d IH]; intro Hnd; cbn; [reflexivity |].
  inversion Hnd as [| ? ? Hnotin Hnd']; subst.
  destruct (String.eqb_spec (getContainer r) k) as [Heq | Hne].
  - cbn. f_equal. symmetry. rewrite <- Heq in Hnotin.
    apply map_id_off_key. exact Hnotin.
  - specialize (IH Hnd').
    destruct (Js.get (getContainer r) d) as [rec |] eqn:Hget; cbn.
    + destruct (String.eqb_spec (getContainer r) k); [contradiction |].
      f_equal. exact IH.
    + f_equal. exact IH.
Qed.

Lemma update_map (key : MetricKey) (res : list PromSample) (d : object PerfRecord) :
  NoDup (Js.keys d) ->
  update res key d
    = map (fun kv => (fst kv, apply_samples key res (fst kv) (snd kv))) d.
Proof.
  unfold update, apply_samples. revert d.
  induction res as [| r res IH]; intros d Hnd; cbn [fold_left].
  - induction d as [| [k v] d IHd]; cbn; [reflexivity |]. f_equal.
    apply IHd. now inversion Hnd.
  - rewrite IH.
    + rewrite (update_point_map key r d Hnd), map_map. reflexivity.
    + rewrite update_point_keys. exact Hnd.
Qed.

Lemma set_metric_agree (key : MetricKey) (v : Q) (r1 r2 : PerfRecord) :
  agree_off key r1 r2 -> set_metric key v r1 = set_metric key v r2.
Proof.
  intro H.
  pose proof (H Km1) as H1. pose proof (H Km2) as H2. pose proof (H Km3) as H3.
  pose proof (H Km4) as H4. pose proof (H Km5) as H5. pose proof (H Km6) as H6.
  pose proof (H Km7) as H7. pose proof (H Km8) as H8. pose proof (H Km9) as H9.
  clear H. destruct r1, r2, key; cbn in *;
    repeat match goal with
           | Hk : ?a <> ?a -> _ |- _ => clear Hk
           | Hk : ?a <> ?b -> _ |- _ => specialize (Hk ltac:(discriminate))
           end; congruence.
Qed.

Lemma apply_samples_agree (key : MetricKey) (res : list PromSample)
    (c : string) (rec : PerfRecord) :
  agree_off key (apply_samples key res c rec) rec.
Proof.
  unfold apply_samples. revert rec.
  induction res as [| r res IH]; intro rec; cbn [fold_left].
  - intros k _. reflexivity.
  - intros k Hk. rewrite (IH _ k Hk).
    destruct (String.eqb (getContainer r) c); [| reflexivity].
    now apply get_set_metric_other.
Qed.

Lemma apply_samples_absorb (key : MetricKey) (res : list PromSample)
    (c : string) (r1 r2 : PerfRecord) :
  agree_off key r1 r2 ->
  apply_samples key res c r1 = apply_samples key res c r2 \/
  (apply_samples key res c r1 = r1 /\ apply_samples key res c r2 = r2).
Proof.
  unfold apply_samples. revert r1 r2.
  induction res as [| r res IH]; intros r1 r2 Hag; cbn [fold_left].
  - right. split; reflexivity.
  - destruct (String.eqb (getContainer r) c).
    + left. now rewrite (set_metric_agree key (value1 r) r1 r2 Hag).
    + exact (IH r1 r2 Hag).
Qed.

Lemma apply_samples_idem (key : MetricKey) (res : list PromSample)
    (c : string) (rec : PerfRecord) :
  apply_samples key res c (apply_samples key res c rec)
    = apply_samples key res c rec.
Proof.
  destruct (apply_samples_absorb key res c (apply_samples key res c rec) rec
              (apply_samples_agree key res c rec)) as [H | [H _]]; exact H.
Qed.

(** Merging the same batch of samples a second time changes nothing. *)
Theorem update_idempotent
    (res : list PromSample) (key : MetricKey) (data : object PerfRecord) :
  NoDup (Js.keys data) ->
  update res key (update res key data) = update res key data.
Proof.
  intro Hnd.
  rewrite (update_map key res (update res key data)).
  - rewrite (update_map key res data Hnd), map_map. cbn [fst snd].
    apply map_ext. intros [k v]. cbn [fst snd]. f_equal. apply apply_samples_idem.
  - rewrite update_keys. exact Hnd.
Qed.

Lemma set_metric_comm (k1 k2 : MetricKey) (v1 v2 : Q) (rec : PerfRecord) :
  k1 <> k2 ->
  set_metric k1 v1 (set_metric k2 v2 rec) = set_metric k2 v2 (set_metric k1 v1 rec).
Proof. destruct k1, k2; intro Hne; try reflexivity; now contradiction Hne. Qed.

Lemma apply_samples_set (k1 k2 : MetricKey) (v : Q) (res : list PromSample)
    (c : string) (rec : PerfRecord) :
  k1 <> k2 ->
  apply_samples k2 res c (set_metric k1 v rec)
    = set_metric k1 v (apply_samples k2 res c rec).
Proof.
  intro Hne. unfold apply_samples. revert rec.
  induction res as [| r res IH]; intro rec; cbn [fold_left]; [reflexivity |].
  destruct (String.eqb (getContainer r) c); [| apply IH].
  rewrite <- IH. f_equal. symmetry. now apply set_metric_comm.
Qed.

Lemma apply_samples_comm (k1 k2 : MetricKey) (res1 res2 : list PromSample)
    (c : string) (rec : PerfRecord) :
  k1 <> k2 ->
  apply_samples k1 res1 c (apply_samples k2 res2 c rec)
    = apply_samples k2 res2 c (apply_samples k1 res1 c rec).
Proof.
  intro Hne. revert rec.
  induction res1 as [| r res1 IH]; intro rec; [reflexivity |].
  unfold apply_samples at 1 4. cbn [fold_left].
  fold (apply_samples k1 res1 c).
  destruct (String.eqb (getContainer r) c).
  - rewrite <- (apply_samples_set k1 k2 (value1 r) res2 c rec Hne). apply IH.
  - apply IH.
Qed.

(** The batches of two different metrics can be merged in either order:
    the records are the same. *)
Theorem update_commute
    (res1 res2 : list PromSample) (k1 k2 : MetricKey) (data : object PerfRecord) :
  NoDup (Js.keys data) ->
  k1 <> k2 ->
  update res1 k1 (update res2 k2 data) = update res2 k2 (update res1 k1 data).
Proof.
  intros Hnd Hne.
  rewrite (update_map k1 res1 (update res2 k2 data))
    by (rewrite update_keys; exact Hnd).
  rewrite (update_map k2 res2 (update res1 k1 data))
    by (rewrite update_keys; exact Hnd).
  rewrite (update_map k2 res2 data Hnd), (update_map k1 res1 data Hnd), !map_map.
  cbn [fst snd]. apply map_ext. intros [k v]. cbn [fst snd]. f_equal.
  now apply apply_samples_comm.
Qed.

End Merge.

(** *** Configuration lists *)

Section ConfigLists.
Import Text.

Lemma append_nil_r (s : string) : (s ++ "")%string = s.
Proof. induction s as [| c s IH]; cbn; [reflexivity | now rewrite IH]. Qed.

Lemma append_assoc (a b c : string) :
  ((a ++ b) ++ c)%string = (a ++ (b ++ c))%string.
Proof. induction a as [| x a IH]; cbn; [reflexivity | now rewrite IH]. Qed.

Lemma all_chars_app (p : ascii -> bool) (a b : string) :
  all_chars p (a ++ b) = all_chars p a && all_chars p b.
Proof.
  induction a as [| c a IH]; cbn; [reflexivity |].
  now rewrite IH, andb_assoc.
Qed.

Lemma all_chars_weaken (p q : ascii -> bool) (s : string) :
  (forall c, p c = true -> q c = true) ->
  all_chars p s = true -> all_chars q s = true.
Proof.
  intro Hpq. induction s as [| c s IH]; cbn; [reflexivity |].
  intro H. apply andb_prop in H as [Hc Hs].
  now rewrite (Hpq c Hc), (IH Hs).
Qed.

Lemma all_chars_trimStart (p : ascii -> bool) (s : string) :
  all_chars p s = true -> all_chars p (trimStart s) = true.
Proof.
  induction s as [| c s IH]; cbn; [reflexivity |].
  intro H. destruct (is_space c); [| exact H].
  apply IH. now apply andb_prop in H.
Qed.

Lemma all_chars_trimEnd (p : ascii -> bool) (s : string) :
  all_chars p s = true -> all_chars p (trimEnd s) = true.
Proof.
  induction s as [| c s IH]; cbn; [reflexivity |].
  intro H. apply andb_prop in H as [Hc Hs]. specialize (IH Hs).
  destruct (trimEnd s) as [| c' s'].
  - destruct (is_space c); cbn; [reflexivity | now rewrite Hc].
  - cbn in *. now rewrite Hc, IH.
Qed.

Lemma trim_no_space (s : string) :
  all_chars (fun c => negb (is_space c)) s = true -> trim s = s.
Proof.
  intro H. unfold trim.
  assert (Hs : trimStart s = s).
  { destruct s as [| c s]; [reflexivity |]. cbn in *.
    apply andb_prop in H as [Hc _]. apply negb_true_iff in Hc. now rewrite Hc. }
  rewrite Hs. clear Hs.
  induction s as [| c s IH]; [reflexivity |]. cbn in *.
  apply andb_prop in H as [Hc Hs]. apply negb_true_iff in Hc.
  rewrite (IH Hs). destruct s; [now rewrite Hc | reflexivity].
Qed.

Lemma split_seps_sep_free (s cur : string) (skipping : bool) :
  all_chars (fun c => negb (is_sep c)) cur = true ->
  Forall (fun t => all_chars (fun c => negb (is_sep c)) t = true)
         (split_seps cur skipping s).
Proof.
  revert cur skipping. induction s as [| c s IH]; intros cur skipping Hcur; cbn.
  - constructor; [exact Hcur | constructor].
  - destruct (is_sep c) eqn:Hc.
    + destruct skipping.
      * apply IH. exact Hcur.
      * constructor; [exact Hcur |]. apply IH. reflexivity.
    + apply IH. rewrite all_chars_app, Hcur. cbn. now rewrite Hc.
Qed.

(** Every item [parseList] returns is non-empty and free of commas and
    white space. *)
Theorem parseList_tokens (v : option string) (def : string) :
  Forall (fun t => clean_token t = true) (parseList v def).
Proof.
  unfold parseList. destruct (truthy (trim (nullish v def))); [| constructor].
  pose proof (split_seps_sep_free (trim (nullish v def)) "" false eq_refl) as H.
  induction H as [| t ts Ht _ IH]; cbn; [constructor |].
  destruct (truthy t) eqn:Htr; [| exact IH].
  constructor; [| exact IH]. unfold clean_token. now rewrite Htr, Ht.
Qed.

Lemma split_seps_token (t rest cur : string) (skipping : bool) :
  all_chars (fun c => negb (is_sep c)) t = true ->
  split_seps cur skipping (t ++ rest)
    = split_seps (cur ++ t) (if truthy t then false else skipping) rest.
Proof.
  revert cur skipping. induction t as [| c t IH]; intros cur skipping H; cbn.
  - now rewrite append_nil_r.
  - cbn in H. apply andb_prop in H as [Hc Ht]. apply negb_true_iff in Hc.
    rewrite Hc, (IH _ _ Ht), append_assoc. cbn. now destruct (truthy t).
Qed.

Lemma split_seps_join (tokens : list string) (t : string) (skipping : bool) :
  clean_token t = true ->
  Forall (fun t => clean_token t = true) tokens ->
  split_seps "" skipping (String.concat "," (t :: tokens)) = t :: tokens.
Proof.
  revert t skipping. induction tokens as [| t' ts IH]; intros t skipping Ht Hts.
  - cbn [String.concat]. unfold clean_token in Ht.
    apply andb_prop in Ht as [Htr Hsf].
    rewrite <- (append_nil_r t) at 1.
    rewrite (split_seps_token t "" "" skipping Hsf), Htr. reflexivity.
  - inversion Hts as [| ? ? Ht' Hts']; subst.
    change (String.concat "," (t :: t' :: ts))
      with (t ++ "," ++ String.concat "," (t' :: ts))%string.
    unfold clean_token in Ht. apply andb_prop in Ht as [Htr Hsf].
    rewrite (split_seps_token t _ "" skipping Hsf), Htr. cbn [append split_seps].
    change (is_sep ",") with true. cbn iota.
    rewrite (IH t' true Ht' Hts'). reflexivity.
Qed.

Lemma concat_no_space (tokens : list string) :
  Forall (fun t => clean_token t = true) tokens ->
  all_chars (fun c => negb (is_space c)) (String.concat "," tokens) = true.
Proof.
  assert (Hweak : forall t, clean_token t = true ->
                            all_chars (fun c => negb (is_space c)) t = true).
  { intros t Ht. unfold clean_token in Ht. apply andb_prop in Ht as [_ Hsf].
    revert Hsf. apply all_chars_weaken. intros c Hc. unfold is_sep in Hc.
    apply negb_true_iff in Hc. apply orb_false_elim in Hc as [Hc _].
    now rewrite Hc. }
  induction 1 as [| t ts Ht Hts IH]; [reflexivity |].
  destruct ts as [| t' ts'].
  - cbn. now apply Hweak.
  - change (String.concat "," (t :: t' :: ts'))
      with (t ++ "," ++ String.concat "," (t' :: ts'))%string.
    rewrite !all_chars_app, (Hweak t Ht), IH. reflexivity.
Qed.

Lemma filter_truthy_clean (tokens : list string) :
  Forall (fun t => clean_token t = true) tokens ->
  filter truthy tokens = tokens.
Proof.
  induction 1 as [| t ts Ht _ IH]; [reflexivity |].
  cbn. unfold clean_token in Ht. apply andb_prop in Ht as [-> _].
  now rewrite IH.
Qed.

(** Items written with commas between them are read back as they are:
    [parseList] of the comma-joined text of clean items gives the same
    items, in the same order. *)
Theorem parseList_join (tokens : list string) (def : string) :
  Forall (fun t => clean_token t = true) tokens ->
  parseList (Some (String.concat "," tokens)) def = tokens.
Proof.
  intro H. unfold parseList. cbn [nullish].
  rewrite (trim_no_space _ (concat_no_space tokens H)).
  destruct tokens as [| t ts]; [reflexivity |].
  inversion H as [| ? ? Ht Hts]; subst.
  assert (Htr : truthy (String.concat "," (t :: ts)) = true).
  { unfold clean_token in Ht. apply andb_prop in Ht as [Htr _].
    destruct t; [discriminate |]. now destruct ts. }
  rewrite Htr, (split_seps_join ts t false Ht Hts).
  apply filter_truthy_clean. exact H.
Qed.

Lemma split_seps_all_seps (s : string) (skipping : bool) :
  all_chars is_sep s = true ->
  filter truthy (split_seps "" skipping s) = [].
Proof.
  revert skipping. induction s as [| c s IH]; intros skipping H; cbn; [reflexivity |].
  cbn in H. apply andb_prop in H as [Hc Hs]. rewrite Hc.
  destruct skipping; cbn; apply IH; exact Hs.
Qed.

(** A variable that is set but holds nothing besides commas and white
    space gives the empty list; the default is not used for it. *)
Theorem parseList_blank (s def : string) :
  all_chars is_sep s = true -> parseList (Some s) def = [].
Proof.
  intro H. unfold parseList, trim. cbn [nullish].
  destruct (truthy (trimEnd (trimStart s))); [| reflexivity].
  apply split_seps_all_seps.
  apply all_chars_trimEnd, all_chars_trimStart. exact H.
Qed.

End ConfigLists.

(** *** CSV text *)

Section CsvText.
Import Text.

Lemma undouble_double_quotes (s : string) :
  undouble (double_quotes s ++ String DQ "") = s.
Proof.
  induction s as [| c s IH]; [reflexivity |].
  cbn [double_quotes]. destruct (Ascii.eqb c DQ) eqn:Hc.
  - apply Ascii.eqb_eq in Hc. subst c. cbn [append undouble].
    rewrite Ascii.eqb_refl. now rewrite IH.
  - cbn [append undouble]. now rewrite Hc, IH.
Qed.

Lemma unquote_csvEsc (s : string) : unquote (csvEsc (Some s)) = s.
Proof.
  unfold csvEsc. destruct (needs_quoting s) eqn:Hq.
  - cbn [unquote]. rewrite Ascii.eqb_refl. apply undouble_double_quotes.
  - destruct s as [| c s]; [reflexivity |]. cbn in Hq |- *.
    apply orb_false_elim in Hq as [Hq _]. apply orb_false_elim in Hq as [Hq _].
    apply orb_false_elim in Hq as [Hq _]. now rewrite Hq.
Qed.

(** Two different strings never give the same CSV field. *)
Theorem csvEsc_injective (a b : string) :
  csvEsc (Some a) = csvEsc (Some b) -> a = b.
Proof.
  intro H. rewrite <- (unquote_csvEsc a), <- (unquote_csvEsc b), H. reflexivity.
Qed.

Lemma parse_unquoted (f rest cur : string) (d : ascii) :
  needs_quoting f = false ->
  d = ","%char \/ d = LF ->
  parse_csv Unquoted cur (f ++ String d rest)
    = (cur ++ f)%string
        :: if Ascii.eqb d "," then parse_csv FieldStart "" rest else [].
Proof.
  revert cur. induction f as [| c f IH]; intros cur Hq Hd.
  - rewrite append_nil_r. cbn. destruct Hd as [-> | ->]; reflexivity.
  - cbn [needs_quoting] in Hq. apply orb_false_elim in Hq as [Hq Hf].
    apply orb_false_elim in Hq as [Hq Hlf]. apply orb_false_elim in Hq as [_ Hco].
    cbn [append parse_csv]. rewrite Hco, Hlf, (IH _ Hf Hd), append_assoc.
    reflexivity.
Qed.

Lemma parse_quoted (f rest cur : string) (d : ascii) :
  d = ","%char \/ d = LF ->
  parse_csv Quoted cur (double_quotes f ++ String DQ (String d rest))
    = (cur ++ f)%string
        :: if Ascii.eqb d "," then parse_csv FieldStart "" rest else [].
Proof.
  intro Hd. revert cur. induction f as [| c f IH]; intro cur.
  - rewrite append_nil_r. cbn. destruct Hd as [-> | ->]; reflexivity.
  - cbn [double_quotes]. destruct (Ascii.eqb c DQ) eqn:Hc.
    + apply Ascii.eqb_eq in Hc. subst c. cbn [append parse_csv].
      rewrite Ascii.eqb_refl, IH, append_assoc. reflexivity.
    + cbn [append parse_csv]. rewrite Hc, IH, append_assoc. reflexivity.
Qed.

Lemma parse_field (f rest : string) (d : ascii) :
  d = ","%char \/ d = LF ->
  parse_csv FieldStart "" (csvEsc (Some f) ++ String d rest)
    = f :: if Ascii.eqb d "," then parse_csv FieldStart "" rest else [].
Proof.
  intro Hd. unfold csvEsc. destruct (needs_quoting f) eqn:Hq.
  - cbn [append parse_csv]. rewrite Ascii.eqb_refl, append_assoc.
    cbn [append]. apply (parse_quoted f rest "" d Hd).
  - destruct f as [| c f].
    + cbn. destruct Hd as [-> | ->]; reflexivity.
    + pose proof Hq as Hq'. cbn [needs_quoting] in Hq'.
      apply orb_false_elim in Hq' as [Hq' Hf].
      apply orb_false_elim in Hq' as [Hq' Hlf].
      apply orb_false_elim in Hq' as [Hdq Hco].
      cbn [append parse_csv]. rewrite Hdq, Hco, Hlf.
      apply (parse_unquoted f rest (String c "") d Hf Hd).
Qed.

(** The line written for a row can be read back: a reader of CSV finds
    in it the columns of the row, whatever commas, quotes and line feeds
    they hold. *)
Theorem csv_line_round_trip (columns : list string) :
  columns <> [] ->
  parse_csv FieldStart "" (csv_line (map Some columns)) = columns.
Proof.
  unfold csv_line. induction columns as [| f cols IH]; [congruence |].
  intros _. destruct cols as [| g cols].
  - cbn [map String.concat]. rewrite (parse_field f "" LF); [reflexivity | now right].
  - change (String.concat "," (map csvEsc (map Some (f :: g :: cols))))
      with (csvEsc (Some f) ++ "," ++ String.concat "," (map csvEsc (map Some (g :: cols))))%string.
    rewrite append_assoc. cbn [append].
    rewrite (parse_field f _ ","%char); [| now left].
    cbn. f_equal. apply IH. discriminate.
Qed.

End CsvText.

(** ** Properties of the bootstrap script *)

(** *** The [.env] file *)

Section EnvFile.
Import Text Bootstrap.

Lemma prefix_app (a b : string) : String.prefix a (a ++ b) = true.
Proof.
  induction a as [| c a IH]; cbn; [now destruct b |].
  destruct (ascii_dec c c); [exact IH | contradiction].
Qed.

Lemma startsWith_kv (key value : string) :
  startsWith (key ++ "=" ++ value) (key ++ "=") = true.
Proof. unfold startsWith. rewrite <- append_assoc. apply prefix_app. Qed.

Lemma upsert_lines_nil (key value : string) :
  upsert_lines key value [] = [(key ++ "=" ++ value)%string].
Proof. reflexivity. Qed.

Lemma upsert_lines_cons (key value l : string) (rest : list string) :
  upsert_lines key value (l :: rest)
    = if startsWith l (key ++ "=")
      then (key ++ "=" ++ value)%string :: rest
      else l :: upsert_lines key value rest.
Proof.
  unfold upsert_lines. cbn [findIndex].
  destruct (startsWith l (key ++ "=")); [reflexivity |].
  destruct (findIndex _ rest); reflexivity.
Qed.

(** After a key has been set, the first line that sets it is the new
    one. *)
Lemma upsert_lines_lookup (key value : string) (lines : list string) :
  env_find key (upsert_lines key value lines) = Some (key ++ "=" ++ value)%string.
Proof.
  unfold env_find. induction lines as [| l rest IH].
  - rewrite upsert_lines_nil. cbn [find]. now rewrite startsWith_kv.
  - rewrite upsert_lines_cons.
    destruct (startsWith l (key ++ "=")) eqn:Hl; cbn [find].
    + now rewrite startsWith_kv.
    + rewrite Hl. exact IH.
Qed.

(** Setting a key replaces one line or adds one: the lines that do not
    set the key stay as they are and in their order, and any further
    line that sets the same key stays too. *)
Theorem upsert_lines_others (key value : string) (lines : list string) :
  filter (fun l => negb (startsWith l (key ++ "="))) (upsert_lines key value lines)
    = filter (fun l => negb (startsWith l (key ++ "="))) lines /\
  (List.length (upsert_lines key value lines)
     = match env_find key lines with
       | Some _ => List.length lines
       | None => S (List.length lines)
       end) /\
  (forall pre old rest,
      lines = pre ++ old :: rest ->
      forallb (fun l => negb (startsWith l (key ++ "="))) pre = true ->
      startsWith old (key ++ "=") = true ->
      upsert_lines key value lines = pre ++ (key ++ "=" ++ value)%string :: rest).
Proof.
  unfold env_find. split; [| split].
  - induction lines as [| l rest IH].
    + rewrite upsert_lines_nil. cbn [filter]. now rewrite startsWith_kv.
    + rewrite upsert_lines_cons.
      destruct (startsWith l (key ++ "=")) eqn:Hl; cbn [filter].
      * now rewrite startsWith_kv, Hl.
      * now rewrite Hl, IH.
  - induction lines as [| l rest IH].
    + reflexivity.
    + rewrite upsert_lines_cons. cbn [find].
      destruct (startsWith l (key ++ "=")) eqn:Hl; cbn [List.length];
        [reflexivity |].
      rewrite IH. now destruct (find _ rest).
  - intros pre old rest -> Hpre Hold.
    induction pre as [| l pre IH]; cbn [app].
    + now rewrite upsert_lines_cons, Hold.
    + cbn [forallb] in Hpre. apply andb_prop in Hpre as [Hl Hpre].
      apply negb_true_iff in Hl. rewrite upsert_lines_cons, Hl.
      f_equal. exact (IH Hpre).
Qed.

Lemma ends_with_cr_cons (c : ascii) (s : string) :
  s <> EmptyString -> ends_with_cr (String c s) = ends_with_cr s.
Proof. destruct s; [congruence | reflexivity]. Qed.

Lemma split_lines_line (l rest cur : string) :
  all_chars (fun c => negb (Ascii.eqb c LF)) l = true ->
  ends_with_cr l = false ->
  split_lines cur (l ++ String LF rest)
    = (cur ++ l)%string :: split_lines "" rest.
Proof.
  revert cur. induction l as [| c l IH]; intros cur Hlf Hcr.
  - cbn [append split_lines]. rewrite Ascii.eqb_refl, append_nil_r. reflexivity.
  - cbn [all_chars] in Hlf. apply andb_prop in Hlf as [Hc Hl].
    apply negb_true_iff in Hc.
    assert (Hcr' : ends_with_cr l = false).
    { destruct l as [| c' l']; [reflexivity |].
      rewrite ends_with_cr_cons in Hcr by discriminate. exact Hcr. }
    cbn [append split_lines]. rewrite Hc.
    destruct (Ascii.eqb c CR) eqn:Hccr.
    + destruct l as [| c' l'].
      * cbn [ends_with_cr] in Hcr. rewrite Hccr in Hcr. discriminate.
      * cbn [append]. cbn [all_chars] in Hl. apply andb_prop in Hl as [Hc' Hl'].
        apply negb_true_iff in Hc'. rewrite Hc'.
        change (String c' (l' ++ String LF rest))
          with (String c' l' ++ String LF rest)%string.
        rewrite IH, append_assoc; [reflexivity | | exact Hcr'].
        cbn [all_chars]. now rewrite Hc', Hl'.
    + rewrite (IH _ Hl Hcr'), append_assoc. reflexivity.
Qed.

Lemma clean_line_parts (l : string) :
  clean_line l = true ->
  truthy l = true /\
  all_chars (fun c => negb (Ascii.eqb c LF)) l = true /\
  ends_with_cr l = false.
Proof.
  unfold clean_line. intro H. apply andb_prop in H as [H Hcr].
  apply andb_prop in H as [Ht Hlf]. apply negb_true_iff in Hcr. auto.
Qed.

Lemma split_lines_render (lines : list string) :
  Forall (fun l => clean_line l = true) lines ->
  lines <> [] ->
  split_lines "" (render_lines lines) = lines ++ [EmptyString].
Proof.
  unfold render_lines. induction 1 as [| l ls Hl Hls IH]; [congruence |].
  intros _. destruct (clean_line_parts l Hl) as (_ & Hlf & Hcr).
  destruct ls as [| l2 ls].
  - cbn [String.concat app]. now rewrite (split_lines_line l "" "" Hlf Hcr).
  - change (String.concat (String LF "") (l :: l2 :: ls))
      with (l ++ String LF "" ++ String.concat (String LF "") (l2 :: ls))%string.
    rewrite append_assoc. cbn [append].
    rewrite (split_lines_line l _ "" Hlf Hcr). cbn [append app]. f_equal.
    apply IH. discriminate.
Qed.

Lemma filter_truthy_lines (lines : list string) :
  Forall (fun l => clean_line l = true) lines ->
  filter truthy lines = lines.
Proof.
  induction 1 as [| l ls Hl _ IH]; [reflexivity |].
  destruct (clean_line_parts l Hl) as (Ht & _). cbn. now rewrite Ht, IH.
Qed.

(** Clean lines written to the file are the lines read back from it. *)
Lemma env_lines_render (lines : list string) :
  Forall (fun l => clean_line l = true) lines ->
  env_lines (render_lines lines) = lines.
Proof.
  intro H. unfold env_lines. destruct lines as [| l ls]; [reflexivity |].
  rewrite (split_lines_render (l :: ls) H) by discriminate.
  rewrite filter_app, (filter_truthy_lines _ H). cbn [filter truthy].
  apply app_nil_r.
Qed.

Lemma upsert_lines_idem (key value : string) (lines : list string) :
  upsert_lines key value (upsert_lines key value lines)
    = upsert_lines key value lines.
Proof.
  induction lines as [| l rest IH].
  - rewrite upsert_lines_nil, upsert_lines_cons, startsWith_kv. reflexivity.
  - rewrite upsert_lines_cons. destruct (startsWith l (key ++ "=")) eqn:Hl.
    + now rewrite upsert_lines_cons, startsWith_kv.
    + now rewrite upsert_lines_cons, Hl, IH.
Qed.

Lemma set_set_same {V : Type} (k : string) (v v' : V) (o : object V) :
  Js.set k v (Js.set k v' o) = Js.set k v o.
Proof.
  induction o as [| [k0 v0] o IH]; cbn.
  - now rewrite String.eqb_refl.
  - destruct (String.eqb k k0) eqn:Hk; cbn; rewrite Hk; [reflexivity |].
    now rewrite IH.
Qed.

(** The file after [upsertEnv], read the way [upsertEnv] reads it, holds
    the lines it held before with the key set: provided these lines are
    clean, the first line that sets the key is the new one. *)
Theorem upsertEnv_reads_back (path key value : string) (fs : object string) :
  Forall (fun l => clean_line l = true)
         (upsert_lines key value (env_lines (nullish (Js.get path fs) ""))) ->
  exists content,
    Js.get path (upsertEnv path key value fs) = Some content /\
    env_lines content
      = upsert_lines key value (env_lines (nullish (Js.get path fs) "")) /\
    env_find key (env_lines content) = Some (key ++ "=" ++ value)%string.
Proof.
  intro Hclean. unfold upsertEnv. eexists. split; [apply get_set_same |].
  rewrite (env_lines_render _ Hclean). split; [reflexivity |].
  apply upsert_lines_lookup.
Qed.

(** Setting a key a second time to the same value leaves the file as the
    first time left it, provided the lines written are clean. *)
Theorem upsertEnv_idempotent (path key value : string) (fs : object string) :
  Forall (fun l => clean_line l = true)
         (upsert_lines key value (env_lines (nullish (Js.get path fs) ""))) ->
  upsertEnv path key value (upsertEnv path key value fs)
    = upsertEnv path key value fs.
Proof.
  intro Hclean. unfold upsertEnv at 1 2.
  rewrite get_set_same. cbn [nullish].
  rewrite (env_lines_render _ Hclean), upsert_lines_idem.
  unfold upsertEnv. apply set_set_same.
Qed.

Lemma prefix_cons (a b : ascii) (s1 s2 : string) :
  String.prefix (String a s1) (String b s2) = Ascii.eqb a b && String.prefix s1 s2.
Proof.
  cbn [String.prefix]. destruct (ascii_dec a b) as [-> | Hne].
  - now rewrite Ascii.eqb_refl.
  - apply Ascii.eqb_neq in Hne. now rewrite Hne.
Qed.

Lemma one_key_per_line (k1 k2 l : string) :
  plain_key k1 = true -> plain_key k2 = true ->
  String.prefix (k1 ++ "=") l = true ->
  String.prefix (k2 ++ "=") l = true ->
  k1 = k2.
Proof.
  unfold plain_key. revert k2 l.
  induction k1 as [| a k1 IH]; intros [| b k2] [| c l] H1 H2 P1 P2;
    cbn [append all_chars] in *; try reflexivity; try discriminate.
  - rewrite prefix_cons in P1, P2.
    apply andb_prop in P1 as [P1 _]. apply andb_prop in P2 as [P2 _].
    apply Ascii.eqb_eq in P1, P2. subst c b.
    apply andb_prop in H2 as [H2 _]. rewrite Ascii.eqb_refl in H2. discriminate.
  - rewrite prefix_cons in P1, P2.
    apply andb_prop in P1 as [P1 _]. apply andb_prop in P2 as [P2 _].
    apply Ascii.eqb_eq in P1, P2. subst c a.
    apply andb_prop in H1 as [H1 _]. rewrite Ascii.eqb_refl in H1. discriminate.
  - rewrite prefix_cons in P1, P2.
    apply andb_prop in P1 as [Pa P1]. apply andb_prop in P2 as [Pb P2].
    apply Ascii.eqb_eq in Pa, Pb. subst a b.
    apply andb_prop in H1 as [_ H1]. apply andb_prop in H2 as [_ H2].
    f_equal. exact (IH k2 l H1 H2 P1 P2).
Qed.

(** Setting one key does not change what the file says about another:
    for two different keys without an equals sign, the first line that
    sets the one is the same before and after the other is set. *)
Theorem upsert_lines_other_key (k1 k2 value : string) (lines : list string) :
  plain_key k1 = true -> plain_key k2 = true -> k1 <> k2 ->
  env_find k1 (upsert_lines k2 value lines) = env_find k1 lines.
Proof.
  intros H1 H2 Hne. unfold env_find.
  assert (Hsep : forall l, startsWith l (k2 ++ "=") = true ->
                           startsWith l (k1 ++ "=") = false).
  { intros l Hl. destruct (startsWith l (k1 ++ "=")) eqn:Hl1; [| reflexivity].
    exfalso. apply Hne. exact (one_key_per_line k1 k2 l H1 H2 Hl1 Hl). }
  pose proof (Hsep _ (startsWith_kv k2 value)) as Hkv.
  induction lines as [| l rest IH].
  - rewrite upsert_lines_nil. cbn [find]. now rewrite Hkv.
  - rewrite upsert_lines_cons.
    destruct (startsWith l (k2 ++ "=")) eqn:Hl; cbn [find].
    + now rewrite Hkv, (Hsep l Hl).
    + now rewrite IH.
Qed.

End EnvFile.

(** *** Patching and waiting *)

Section PatchAndWait.
Import Text Bootstrap.

Lemma replace_all_ip4_no_slash (repl s : string) :
  all_chars (fun c => negb (Ascii.eqb c "/")) s = true ->
  replace_all_ip4 0 repl s = s.
Proof.
  induction s as [| c s IH]; [reflexivity |].
  cbn [all_chars]. intro H. apply andb_prop in H as [Hc Hs].
  apply negb_true_iff in Hc. cbn [replace_all_ip4].
  assert (Hm : match_ip4 (String c s) = None).
  { unfold match_ip4. cbn [after_text after_char and_then]. now rewrite Hc. }
  rewrite Hm, (IH Hs). reflexivity.
Qed.

(** A text without a slash is returned as it is, whatever the ip: an
    ENR, which is [enr:] followed by base64url text, is never changed by
    [patchEnrIp]. *)
Theorem patchEnrIp_without_slash (enr : string) (ip : option string) :
  all_chars (fun c => negb (Ascii.eqb c "/")) enr = true ->
  patchEnrIp enr ip = enr.
Proof.
  intro H. unfold patchEnrIp. destruct ip as [i |]; [| reflexivity].
  destruct (truthy i); [| reflexivity].
  apply replace_all_ip4_no_slash. exact H.
Qed.

Context {H : Host}.

Lemma fetchIdentity_world (url : option string) (w : HWorld) :
  snd (fetchIdentity url w)
    = snd (fetch_identity (nullish url "undefined" ++ "/eth/v1/node/identity") w).
Proof.
  unfold fetchIdentity.
  destruct (fetch_identity _ w) as [[e | res] w']; [reflexivity |].
  destruct (negb (id_ok res)); reflexivity.
Qed.

(** [waitForEnr] returns only an identity that carries an ENR, and the
    only error it throws is its own timeout error, which names the
    service: what a single request throws is never passed on. *)
Theorem waitForEnr_outcome (fuel : nat) (service : string) (timeoutMs : Z)
    (w : HWorld) :
  match fst (waitForEnr fuel service timeoutMs w) with
  | inr (Got data) => has_enr data = true
  | inr StillWaiting => True
  | inl e => e = Error ("timeout waiting ENR for " ++ service)
  end.
Proof.
  unfold waitForEnr. generalize (clock w) as start. generalize (serviceUrl service) as url.
  intros url start. revert w.
  induction fuel as [| fuel IH]; intro w; cbn [waitForEnr_loop]; [exact I |].
  destruct (clock w - start <? timeoutMs); [| reflexivity].
  destruct (fetchIdentity url w) as [[e | data] w1].
  - apply IH.
  - destruct (has_enr data) eqn:Hd; [exact Hd | apply IH].
Qed.

Lemma waitForEnr_loop_ends (n : nat) (service : string) (url : option string)
    (start timeoutMs : Z) (w : HWorld) :
  (forall ms w, clock w + ms <= clock (after_sleep ms w)) ->
  (forall u w, clock w <= clock (snd (fetch_identity u w))) ->
  start + timeoutMs <= clock w + 2000 * Z.of_nat n ->
  (exists data, fst (waitForEnr_loop (S n) service url start timeoutMs w)
                = inr (Got data)) \/
  fst (waitForEnr_loop (S n) service url start timeoutMs w)
    = inl (Error ("timeout waiting ENR for " ++ service)).
Proof.
  intros Hsleep Hfetch. revert w.
  induction n as [| n IH]; intros w Hn.
  - cbn [waitForEnr_loop].
    destruct (Z.ltb_spec (clock w - start) timeoutMs); [lia |]. now right.
  - remember (S n) as m eqn:Hm. cbn [waitForEnr_loop].
    destruct (clock w - start <? timeoutMs); [| now right].
    pose proof (fetchIdentity_world url w) as Hw.
    pose proof (Hfetch (nullish url "undefined" ++ "/eth/v1/node/identity")%string w) as Hc.
    rewrite <- Hw in Hc.
    destruct (fetchIdentity url w) as [[e | data] w1]; cbn [snd] in Hc.
    + subst m. apply IH. specialize (Hsleep 2000 w1). lia.
    + destruct (has_enr data); [left; now exists data |].
      subst m. apply IH. specialize (Hsleep 2000 w1). lia.
Qed.

(** [waitForEnr] ends: if a sleep lasts at least its delay and the clock
    does not go back during a request, then within one more iteration
    than the timeout holds periods of two seconds, it has returned an
    identity or thrown its timeout error. *)
Theorem waitForEnr_ends (n : nat) (service : string) (timeoutMs : Z) (w : HWorld) :
  (forall ms w, clock w + ms <= clock (after_sleep ms w)) ->
  (forall u w, clock w <= clock (snd (fetch_identity u w))) ->
  timeoutMs <= 2000 * Z.of_nat n ->
  (exists data, fst (waitForEnr (S n) service timeoutMs w) = inr (Got data)) \/
  fst (waitForEnr (S n) service timeoutMs w)
    = inl (Error ("timeout waiting ENR for " ++ service)).
Proof.
  intros Hsleep Hfetch Hn. unfold waitForEnr.
  apply waitForEnr_loop_ends; [exact Hsleep | exact Hfetch | lia].
Qed.

End PatchAndWait.

(** *** The further properties on concrete inputs *)

Section FurtherScenarios.
Import Scripted Text Bootstrap.

Lemma init_data_keys_NoDup : NoDup (Js.keys init_data).
Proof.
  vm_compute. repeat (constructor; [cbn; intuition discriminate |]). constructor.
Qed.

(** With the first execution endpoint listed again in third place, its
    label is [geth-3]. *)
Lemma el_label_last_occurrence_witness :
  In "http://geth:8545" (@EL_ENDPOINTS (env duplicate_endpoint)) /\
  nth_error (@EL_ENDPOINTS (env duplicate_endpoint)) 0 = Some "http://geth:8545" /\
  @el_label (env duplicate_endpoint) "http://geth:8545" = "geth-3".
Proof.
  assert (Hin : In "http://geth:8545" (@EL_ENDPOINTS (env duplicate_endpoint)))
    by (left; reflexivity).
  split; [exact Hin |]. split; [reflexivity |].
  destruct (@el_label_last_occurrence (env duplicate_endpoint) _ Hin)
    as (i & Hn & Hmax & _ & Hlab).
  pose proof (Hmax 2%nat eq_refl) as Hlow.
  assert (Hup : (i < 3)%nat).
  { apply (nth_error_Some (@EL_ENDPOINTS (env duplicate_endpoint)) i).
    rewrite Hn. discriminate. }
  assert (Hi : i = 2%nat) by lia. subst i.
  rewrite Hlab. reflexivity.
Defined.

(** The first consensus endpoint with and without a trailing slash. *)
Lemma beaconGet_trailing_slash_witness :
  strip_trailing_slash "http://prysm:3500" = "http://prysm:3500" /\
  @beaconGet (env second_serves) "http://prysm:3500/" head_path (start second_serves 0)
    = @beaconGet (env second_serves) "http://prysm:3500" head_path
        (start second_serves 0).
Proof.
  split; [reflexivity |].
  exact (@beaconGet_trailing_slash (env second_serves) "http://prysm:3500" head_path
           (start second_serves 0) eq_refl).
Defined.

(** A budget of two seconds against a period of one second: the run
    ends within three passes through the head of the loop. *)
Lemma duration_budget_ends_witness :
  0 < @DURATION_SEC (env two_second_budget) /\
  @DURATION_SEC (env two_second_budget) * 1000
    <= 2 * @INTERVAL_MS (env two_second_budget) /\
  exists st',
    @main (env two_second_budget) 3 (start two_second_budget 0) = (inr Done, st').
Proof.
  split; [reflexivity |]. split; [vm_compute; discriminate |].
  apply (@duration_budget_ends (env two_second_budget) 2 (start two_second_budget 0)).
  - intros ms w. apply Z.le_refl.
  - reflexivity.
  - vm_compute. discriminate.
Defined.

(** A reading of the second beacon node lands in the record of
    [prysm-2], in its own column only. *)
Lemma update_mapped_sample_witness :
  Js.get (metric_instance mapped_sample) PROM_INSTANCE_MAP = Some "prysm-2" /\
  Js.get "prysm-2" init_data = Some missing_record /\
  (exists rec',
      Js.get "prysm-2" (update [mapped_sample] Km1 init_data) = Some rec' /\
      get_metric Km1 rec' = inject_Z 42 /\
      get_metric Km2 rec' = MISSING_Q) /\
  Js.get "geth-1" (update [mapped_sample] Km1 init_data) = Some missing_record.
Proof.
  split; [reflexivity |]. split; [reflexivity |].
  destruct (update_mapped_sample Km1 init_data mapped_sample "prysm-2" missing_record
              eq_refl eq_refl) as (rec' & Hget & Hval & Hoth & Hrest).
  split.
  - exists rec'. split; [exact Hget |]. split; [exact Hval |].
    rewrite (Hoth Km2) by discriminate. reflexivity.
  - rewrite (Hrest "geth-1") by discriminate. reflexivity.
Defined.

(** The same batch merged twice into the initial records. *)
Lemma update_idempotent_witness :
  NoDup (Js.keys init_data) /\
  update [mapped_sample; named_sample] Km1
    (update [mapped_sample; named_sample] Km1 init_data)
    = update [mapped_sample; named_sample] Km1 init_data.
Proof.
  split; [exact init_data_keys_NoDup |].
  exact (update_idempotent [mapped_sample; named_sample] Km1 init_data
           init_data_keys_NoDup).
Defined.

(** Two batches of different metrics merged into the initial records in
    both orders. *)
Lemma update_commute_witness :
  NoDup (Js.keys init_data) /\
  update [mapped_sample] Km1 (update [named_sample] Km2 init_data)
    = update [named_sample] Km2 (update [mapped_sample] Km1 init_data).
Proof.
  split; [exact init_data_keys_NoDup |].
  apply (update_commute [mapped_sample] [named_sample] Km1 Km2 init_data
           init_data_keys_NoDup).
  discriminate.
Defined.

(** Two endpoints joined by a comma. *)
Lemma parseList_join_witness :
  Forall (fun t => clean_token t = true) ["http://geth:8545"; "http://geth-2:8545"] /\
  parseList (Some "http://geth:8545,http://geth-2:8545") "http://geth:8545"
    = ["http://geth:8545"; "http://geth-2:8545"].
Proof.
  assert (H : Forall (fun t => clean_token t = true)
                ["http://geth:8545"; "http://geth-2:8545"])
    by (repeat constructor).
  split; [exact H |].
  exact (parseList_join ["http://geth:8545"; "http://geth-2:8545"] "http://geth:8545" H).
Defined.

(** A variable holding a comma between two spaces. *)
Lemma parseList_blank_witness :
  all_chars is_sep " , " = true /\
  parseList (Some " , ") "http://geth:8545" = [].
Proof.
  split; [reflexivity |].
  exact (parseList_blank " , " "http://geth:8545" eq_refl).
Defined.

(** A field with a comma in it. *)
Lemma csvEsc_injective_witness :
  csvEsc (Some "a,b") = csvEsc (Some "a,b") /\ "a,b" = "a,b".
Proof.
  split; [reflexivity |].
  exact (csvEsc_injective "a,b" "a,b" eq_refl).
Defined.

(** A row whose columns hold a comma, a line feed and quotes. *)
Lemma csv_line_round_trip_witness :
  needs_quoting "a,b" = true /\
  needs_quoting two_lines = true /\
  needs_quoting quoted_word = true /\
  parse_csv FieldStart "" (csv_line (map Some ["a,b"; two_lines; quoted_word; "plain"]))
    = ["a,b"; two_lines; quoted_word; "plain"].
Proof.
  repeat (split; [reflexivity |]).
  apply (csv_line_round_trip ["a,b"; two_lines; quoted_word; "plain"]).
  discriminate.
Defined.

Lemma env_file_clean :
  Forall (fun l => clean_line l = true)
         (upsert_lines "PRYSM_PEERS_1" "enr:-abc"
            (env_lines (nullish (Js.get ".env" env_file) ""))).
Proof. vm_compute. repeat constructor. Qed.

(** Setting a key that the file already sets: the line is replaced and
    the other line stays. *)
Lemma upsertEnv_reads_back_witness :
  env_lines (nullish (Js.get ".env" env_file) "") = ["A=1"; "PRYSM_PEERS_1=old"] /\
  exists content,
    Js.get ".env" (upsertEnv ".env" "PRYSM_PEERS_1" "enr:-abc" env_file)
      = Some content /\
    env_lines content = ["A=1"; "PRYSM_PEERS_1=enr:-abc"].
Proof.
  split; [reflexivity |].
  destruct (upsertEnv_reads_back ".env" "PRYSM_PEERS_1" "enr:-abc" env_file
              env_file_clean) as (content & Hget & Hlines & _).
  exists content. split; [exact Hget |]. rewrite Hlines. reflexivity.
Defined.

(** Setting the same key twice. *)
Lemma upsertEnv_idempotent_witness :
  upsertEnv ".env" "PRYSM_PEERS_1" "enr:-abc"
    (upsertEnv ".env" "PRYSM_PEERS_1" "enr:-abc" env_file)
    = upsertEnv ".env" "PRYSM_PEERS_1" "enr:-abc" env_file.
Proof.
  exact (upsertEnv_idempotent ".env" "PRYSM_PEERS_1" "enr:-abc" env_file
           env_file_clean).
Defined.

(** Setting the peers of the second node leaves those of the first. *)
Lemma upsert_lines_other_key_witness :
  plain_key "PRYSM_PEERS_1" = true /\
  plain_key "PRYSM_PEERS_2" = true /\
  env_find "PRYSM_PEERS_1"
    (upsert_lines "PRYSM_PEERS_2" "new" ["PRYSM_PEERS_1=a"; "PRYSM_PEERS_2=b"])
    = Some "PRYSM_PEERS_1=a".
Proof.
  split; [reflexivity |]. split; [reflexivity |].
  rewrite (upsert_lines_other_key "PRYSM_PEERS_1" "PRYSM_PEERS_2" "new"
             ["PRYSM_PEERS_1=a"; "PRYSM_PEERS_2=b"] eq_refl eq_refl)
    by discriminate.
  reflexivity.
Defined.

(** An ENR and the address of a container. *)
Lemma patchEnrIp_without_slash_witness :
  all_chars (fun c => negb (Ascii.eqb c "/")) "enr:-Iu4QJ_x9-aB" = true /\
  patchEnrIp "enr:-Iu4QJ_x9-aB" (Some "172.18.0.5") = "enr:-Iu4QJ_x9-aB".
Proof.
  split; [reflexivity |].
  exact (patchEnrIp_without_slash "enr:-Iu4QJ_x9-aB" (Some "172.18.0.5") eq_refl).
Defined.

(** On a host where no identity endpoint answers, a wait of four
    seconds makes two requests and then throws the timeout error. *)
Lemma waitForEnr_ends_witness :
  fst (@waitForEnr unreachable_host 3 "prysm" 4000 0)
    = inl (Error "timeout waiting ENR for prysm").
Proof.
  destruct (@waitForEnr_ends unreachable_host 2 "prysm" 4000 0) as [[data Hd] | Ht].
  - intros ms w. apply Z.le_refl.
  - intros u w. cbn. lia.
  - vm_compute. discriminate.
  - vm_compute in Hd. discriminate.
  - exact Ht.
Defined.

End FurtherScenarios.
